(** * expire-cache: lazy, timer and tiered caches

    A shallow embedding of the three cache classes of the package
    (ExpireCache, ExpireTimeoutCache, TieredCache) and of the reference
    three-tier strategy DateTieredCache, followed by the properties
    proved about them.

    Conventions of the embedding.
    - Every method takes the receiver's state and returns its result
      together with the new state.  Emitted events are appended to a
      trace kept in the state.  The logger is purely observational and
      is modelled only where an error reaches it (TieredCache.runTimeout).
    - The wall clock is explicit: a method that reads [Date.now()] or
      arms a timer takes the current time [now] (milliseconds, an
      integer) as an argument.
    - A JavaScript [Map] is modelled by its [[MapData]] list as
      ECMA-262 describes it: entries in insertion order, a deleted entry
      leaving an empty slot behind, so that live iterators can be
      modelled by an index into the list.
    - JavaScript numbers are modelled by their integral values plus NaN:
      time values and millisecond counts are integral. *)

From Stdlib Require Import ZArith List String Ascii Bool Lia Arith.
From Stdlib Require DecimalString DecimalZ DecimalPos DecimalFacts.
Import ListNotations.

Set Implicit Arguments.

(* ================================================================== *)
(** * Part I: the embedding                                            *)
(* ================================================================== *)

(** ** Platform primitives *)

Class EqDec (A : Type) := eq_dec : forall x y : A, {x = y} + {x <> y}.

#[global] Instance string_EqDec : EqDec string := string_dec.
#[global] Instance nat_EqDec : EqDec nat := Nat.eq_dec.
#[global] Instance unit_EqDec : EqDec unit :=
  fun x y => match x, y with tt, tt => left eq_refl end.

(** [ToBoolean] of the language: which values of a type pass an [if (v)]
  test. *)
Class Truthy (A : Type) := ToBoolean : A -> bool.

#[global] Instance string_Truthy : Truthy string :=
  fun s => match s with EmptyString => false | String _ _ => true end.

Module JS.

(** Numbers: NaN or an integral value. *)
Inductive number : Type :=
  | NaN
  | Num (z : Z).

Definition number_eqb (a b : number) : bool :=
  match a, b with
  | NaN, NaN => true
  | Num x, Num y => Z.eqb x y
  | _, _ => false
  end.

(** [a < b] of the language: false as soon as one side is NaN. *)
Definition lt (a b : number) : bool :=
  match a, b with
  | Num x, Num y => Z.ltb x y
  | _, _ => false
  end.

Definition add (a b : number) : number :=
  match a, b with
  | Num x, Num y => Num (x + y)
  | _, _ => NaN
  end.

Definition sub (a b : number) : number :=
  match a, b with
  | Num x, Num y => Num (x - y)
  | _, _ => NaN
  end.

#[global] Instance number_Truthy : Truthy number :=
  fun n => match n with NaN => false | Num z => negb (Z.eqb z 0) end.

(** [TimeClip]: a time value beyond 8.64e15 ms is not a date. *)
Definition maxTime : Z := 8640000000000000.

Definition TimeClip (n : number) : number :=
  match n with
  | NaN => NaN
  | Num z => if Z.ltb maxTime (Z.abs z) then NaN else Num z
  end.

(** A [Date] object is its time value. *)
Record Date : Type := mkDate { getTime : number }.

(** [new Date(n)] for a number [n]. *)
Definition newDate (n : number) : Date := mkDate (TimeClip n).

Definition validDate (d : Date) : Prop :=
  exists z, getTime d = Num z /\ (Z.abs z <= maxTime)%Z.

(** Results of calls that may throw. *)
Inductive result (E A : Type) : Type :=
  | Ok (a : A)
  | Throw (e : E).
Arguments Ok {E A} a.
Arguments Throw {E A} e.

Definition bind {E A B} (r : result E A) (f : A -> result E B) : result E B :=
  match r with
  | Ok a => f a
  | Throw e => Throw e
  end.

Fixpoint mapM {E A B} (f : A -> result E B) (l : list A) : result E (list B) :=
  match l with
  | [] => Ok []
  | a :: l' =>
      bind (f a) (fun b => bind (mapM f l') (fun bs => Ok (b :: bs)))
  end.

End JS.

(** ** [Map]: insertion-ordered [[MapData]] with empty slots *)

Module JsMap.
Section Map.
Context {K V : Type} `{EqDec K}.

Definition t : Type := list (option (K * V)).

Definition empty : t := [].

Fixpoint get (k : K) (m : t) : option V :=
  match m with
  | [] => None
  | Some (k', v) :: m' => if eq_dec k' k then Some v else get k m'
  | None :: m' => get k m'
  end.

Definition has (k : K) (m : t) : bool :=
  match get k m with Some _ => true | None => false end.

(** [set]: an existing key keeps its slot, a new key is appended. *)
Fixpoint set (k : K) (v : V) (m : t) : t :=
  match m with
  | [] => [Some (k, v)]
  | Some (k', v') :: m' =>
      if eq_dec k' k then Some (k', v) :: m'
      else Some (k', v') :: set k v m'
  | None :: m' => None :: set k v m'
  end.

(** [delete] empties the slot of the key and tells whether it found
    one. *)
Fixpoint delete (k : K) (m : t) : bool * t :=
  match m with
  | [] => (false, [])
  | Some (k', v') :: m' =>
      if eq_dec k' k then (true, None :: m')
      else let '(b, r) := delete k m' in (b, Some (k', v') :: r)
  | None :: m' => let '(b, r) := delete k m' in (b, None :: r)
  end.

Definition clear (m : t) : t := map (fun _ => None) m.

(** The live entries, in insertion order. *)
Fixpoint entries (m : t) : list (K * V) :=
  match m with
  | [] => []
  | Some e :: m' => e :: entries m'
  | None :: m' => entries m'
  end.

Definition keys (m : t) : list K := map fst (entries m).
Definition values (m : t) : list V := map snd (entries m).
Definition size (m : t) : nat := List.length (entries m).

(** [new Map(m)] and [new Map(pairs)]. *)
Definition of_list (l : list (K * V)) : t :=
  fold_left (fun acc kv => set (fst kv) (snd kv) acc) l empty.
Definition copy (m : t) : t := of_list (entries m).

(** The keys of the live entries are pairwise distinct. *)
Definition wf (m : t) : Prop := NoDup (keys m).

(** A live iterator created by [m.entries()]: the index of the next
    slot to look at, and whether it has already reported [done]. *)
Record iterator : Type := mkIter { it_index : nat; it_done : bool }.

Definition iter_start : iterator := mkIter 0 false.

(** Scan from slot [i] for the next live entry; return it with the
    index after it. *)
Fixpoint scan (i : nat) (m : t) : option ((K * V) * nat) :=
  match m with
  | [] => None
  | s :: m' =>
      match i with
      | O =>
          match s with
          | Some e => Some (e, 1%nat)
          | None =>
              match scan O m' with
              | Some (e, j) => Some (e, S j)
              | None => None
              end
          end
      | S i' =>
          match scan i' m' with
          | Some (e, j) => Some (e, S j)
          | None => None
          end
      end
  end.

(** [it.next()] against the map as it is now. *)
Definition next (it : iterator) (m : t) : option (K * V) * iterator :=
  if it_done it then (None, it)
  else
    match scan (it_index it) m with
    | Some (e, j) => (Some e, mkIter j false)
    | None => (None, mkIter (it_index it) true)
    end.

End Map.
Arguments t : clear implicits.
End JsMap.

(** ** Timers: [setTimeout] / [clearTimeout] *)

Module Timers.
Section Timers.
Context {K : Type}.

(** A pending timer: its handle, the key its callback was armed
    for, and the time from which it may fire. *)
Record timer : Type := mkTimer { t_id : nat; t_key : K; t_due : Z }.

Record t : Type := mkTimers { pending : list timer; next_id : nat }.

(** Handles start at 1: a handle is never falsy. *)
Definition init : t := mkTimers [] 1.

(** The delay a timer really gets: 1 ms when the requested delay is
    NaN, below 1 or above 2^31-1. *)
Definition delay_of (d : JS.number) : Z :=
  match d with
  | JS.NaN => 1
  | JS.Num z => if (Z.ltb z 1 || Z.ltb 2147483647 z)%bool then 1 else z
  end.

Definition setTimeout (k : K) (delay : JS.number) (now : Z) (s : t) : nat * t :=
  (next_id s,
   mkTimers (pending s ++ [mkTimer (next_id s) k (now + delay_of delay)])
            (S (next_id s))).

Definition clearTimeout (id : nat) (s : t) : t :=
  mkTimers (filter (fun tm => negb (Nat.eqb (t_id tm) id)) (pending s))
           (next_id s).

Definition find (id : nat) (s : t) : option timer :=
  List.find (fun tm => Nat.eqb (t_id tm) id) (pending s).

(** The scheduler picks a pending timer that is due: the timer
    leaves the pending set and its key is handed to the callback. *)
Definition fire (now : Z) (id : nat) (s : t) : option (K * t) :=
  match find id s with
  | Some tm =>
      if Z.leb (t_due tm) now
      then Some (t_key tm, clearTimeout id s)
      else None
  | None => None
  end.

(** The pending timers whose callback is for key [k]. *)
Definition pending_for `{EqDec K} (k : K) (s : t) : list timer :=
  filter (fun tm => if eq_dec (t_key tm) k then true else false) (pending s).

(** Handles are issued once: the pending ones are pairwise distinct
    and below the next handle. *)
Definition ids_ok (s : t) : Prop :=
  NoDup (map t_id (pending s)) /\
  forall tm, In tm (pending s) -> (t_id tm < next_id s)%nat.

(** From [s] to [s']: no handle is issued twice, and a timer pending
    in [s'] was pending in [s] or got its handle since. *)
Definition evolves (s s' : t) : Prop :=
  (next_id s <= next_id s')%nat /\
  forall tm, In tm (pending s') ->
             In tm (pending s) \/ (next_id s <= t_id tm)%nat.

End Timers.
Arguments t : clear implicits.
Arguments timer : clear implicits.
End Timers.

(** ** ExpireCache: expiry checked on read *)

Module ExpireCache.
Section Cache.
Context {Key Payload : Type} `{EqDec Key} `{Truthy Payload}.

Inductive event : Type :=
  | EvSet (key : Key) (data : Payload) (expires : option JS.Date)
  | EvGet (key : Key)
  | EvDelete (key : Key)
  | EvClear (copy : JsMap.t Key Payload)
  | EvExpires (key : Key) (value : Payload).

Record state : Type := mkState {
    cache : JsMap.t Key Payload;
    cacheTtl : JsMap.t Key (option JS.number);
    defaultExpireMs : option JS.number;
    emitted : list event
  }.

(** [new ExpireCache(logger, logMapping, defaultExpireMs)] *)
Definition create (defaultExpireMs : option JS.number) : state :=
  mkState JsMap.empty JsMap.empty defaultExpireMs [].

Definition emit (e : event) (st : state) : state :=
  mkState (cache st) (cacheTtl st) (defaultExpireMs st) (emitted st ++ [e]).

Definition setExpireMs (expireMs : option JS.number) (st : state) : state :=
  mkState (cache st) (cacheTtl st) expireMs (emitted st).

Definition notifyExpires (entries : JsMap.t Key Payload) (st : state) : state :=
  fold_left (fun s kv => emit (EvExpires (fst kv) (snd kv)) s)
            (JsMap.entries entries) st.

Definition getExpireDate (now : Z) (expires : option JS.Date) (st : state)
  : option JS.Date :=
  let defaultExpireDate :=
    match defaultExpireMs st with
    | Some ms =>
        if ToBoolean ms then Some (JS.newDate (JS.add (JS.Num now) ms))
        else None
    | None => None
    end in
  match expires with
  | Some d => Some d
  | None => defaultExpireDate
  end.

Definition set (now : Z) (key : Key) (data : Payload)
           (expires : option JS.Date) (st : state) : state :=
  let expireTs := option_map JS.getTime (getExpireDate now expires st) in
  let st1 := emit (EvSet key data (getExpireDate now expires st)) st in
  mkState (JsMap.set key data (cache st1))
          (JsMap.set key expireTs (cacheTtl st1))
          (defaultExpireMs st1) (emitted st1).

(** One turn of the loop of [cleanExpired] over an entry of
    [cacheTtl]; [del] is the local map [deleteEntries]. *)
Definition cleanStep (now : Z) (acc : state * JsMap.t Key Payload)
           (e : Key * option JS.number) : state * JsMap.t Key Payload :=
  let '(st, del) := acc in
  let '(key, expire) := e in
  match expire with
  | Some ex =>
      if JS.lt ex (JS.Num now) then
        let '(c1, del1) :=
          match JsMap.get key (cache st) with
          | Some value =>
              if ToBoolean value
              then (snd (JsMap.delete key (cache st)), JsMap.set key value del)
              else (cache st, del)
          | None => (cache st, del)
          end in
        (mkState c1 (snd (JsMap.delete key (cacheTtl st)))
                 (defaultExpireMs st) (emitted st), del1)
      else acc
  | None => acc
  end.

(** [cleanExpired]: the loop only ever deletes the key it is at, so
    the live iterator over [cacheTtl] visits the entries present
    when the loop starts. *)
Definition cleanExpired (now : Z) (st : state) : state :=
  let '(st1, deleteEntries) :=
    fold_left (cleanStep now) (JsMap.entries (cacheTtl st)) (st, JsMap.empty) in
  if Nat.ltb 0 (JsMap.size deleteEntries)
  then notifyExpires deleteEntries st1
  else st1.

Definition get (now : Z) (key : Key) (st : state) : option Payload * state :=
  let st1 := cleanExpired now (emit (EvGet key) st) in
  (JsMap.get key (cache st1), st1).

Definition has (now : Z) (key : Key) (st : state) : bool * state :=
  let st1 := cleanExpired now st in
  (JsMap.has key (cache st1), st1).

(** [expires] reads the stored timestamp first and sweeps after. *)
Definition expires (now : Z) (key : Key) (st : state) : option JS.Date * state :=
  let expires := JsMap.get key (cacheTtl st) in
  let st1 := cleanExpired now st in
  (match expires with
   | Some (Some ts) => if ToBoolean ts then Some (JS.newDate ts) else None
   | _ => None
   end, st1).

Definition delete (key : Key) (st : state) : bool * state :=
  let entry := JsMap.get key (cache st) in
  let st1 :=
    match entry with
    | Some e =>
        if ToBoolean e
        then emit (EvDelete key) (notifyExpires (JsMap.of_list [(key, e)]) st)
        else st
    | None => st
    end in
  let ttl' := snd (JsMap.delete key (cacheTtl st1)) in
  let '(deleted, cache') := JsMap.delete key (cache st1) in
  (deleted, mkState cache' ttl' (defaultExpireMs st1) (emitted st1)).

Definition clear (st : state) : state :=
  let copy := JsMap.copy (cache st) in
  let st1 := emit (EvClear copy) (notifyExpires copy st) in
  mkState (JsMap.clear (cache st1)) (JsMap.clear (cacheTtl st1))
          (defaultExpireMs st1) (emitted st1).

Definition size (st : state) : nat := JsMap.size (cache st).

(** The iteration methods sweep, then iterate over a private copy
    of the map; the iterator they return yields exactly the entries
    of that copy. *)
Definition entries (now : Z) (st : state) : list (Key * Payload) * state :=
  let st1 := cleanExpired now st in
  (JsMap.entries (JsMap.copy (cache st1)), st1).

Definition keys (now : Z) (st : state) : list Key * state :=
  let st1 := cleanExpired now st in
  (JsMap.keys (JsMap.copy (cache st1)), st1).

Definition values (now : Z) (st : state) : list Payload * state :=
  let st1 := cleanExpired now st in
  (JsMap.values (JsMap.copy (cache st1)), st1).

(** Vocabulary of the statements about the sweep: a stored timestamp
    counts as expired at [now] when it is strictly below it. *)
Definition isExpired (now : Z) (expire : option JS.number) : bool :=
  match expire with
  | Some ex => JS.lt ex (JS.Num now)
  | None => false
  end.

Definition expired (now : Z) (ttl : JsMap.t Key (option JS.number)) (k : Key) : bool :=
  match JsMap.get k ttl with
  | Some expire => isExpired now expire
  | None => false
  end.

Definition truthyAt (c : JsMap.t Key Payload) (k : Key) : bool :=
  match JsMap.get k c with
  | Some v => ToBoolean v
  | None => false
  end.

Definition allTruthy (c : JsMap.t Key Payload) : Prop :=
  forall k v, JsMap.get k c = Some v -> ToBoolean v = true.

(** The entries a sweep at [now] takes out, in the order of [cacheTtl]. *)
Definition swept (now : Z) (c : JsMap.t Key Payload)
           (es : list (Key * option JS.number)) : list (Key * Payload) :=
  flat_map (fun e =>
              if isExpired now (snd e) then
                match JsMap.get (fst e) c with
                | Some v => if ToBoolean v then [(fst e, v)] else []
                | None => []
                end
              else []) es.

(** Whether the loop of the sweep, at the entry [e] of [cacheTtl],
    takes the key [k] out of it. *)
Definition hit (now : Z) (k : Key) (e : Key * option JS.number) : bool :=
  if eq_dec (fst e) k then isExpired now (snd e) else false.

Definition expiresEvents (l : list (Key * Payload)) : list event :=
  map (fun kv => EvExpires (fst kv) (snd kv)) l.

(** [st'] is [st] after a sweep at [now]: the keys whose timestamp is
    strictly below [now] are gone from both maps, the others are as
    they were, and an [expires] event was emitted for each entry taken
    out. *)
Definition sweptState (now : Z) (st st' : state) : Prop :=
  (forall k, JsMap.get k (cache st') =
             if expired now (cacheTtl st) k then None else JsMap.get k (cache st)) /\
  (forall k, JsMap.get k (cacheTtl st') =
             if expired now (cacheTtl st) k then None else JsMap.get k (cacheTtl st)) /\
  emitted st' =
    emitted st ++ expiresEvents (swept now (cache st) (JsMap.entries (cacheTtl st))).

Definition wfState (st : state) : Prop :=
  JsMap.wf (cache st) /\ JsMap.wf (cacheTtl st).

(** The reads: the calls that sweep before they answer. *)
Inductive read : Type :=
  | ReadGet (key : Key)
  | ReadHas (key : Key)
  | ReadExpires (key : Key)
  | ReadEntries
  | ReadKeys
  | ReadValues.

(** The state a read made at [now] leaves. *)
Definition afterRead (now : Z) (r : read) (st : state) : state :=
  match r with
  | ReadGet key => snd (get now key st)
  | ReadHas key => snd (has now key st)
  | ReadExpires key => snd (expires now key st)
  | ReadEntries => snd (entries now st)
  | ReadKeys => snd (keys now st)
  | ReadValues => snd (values now st)
  end.

(** Consecutive reads, each with its time. *)
Definition afterReads (reads : list (Z * read)) (st : state) : state :=
  fold_left (fun s r => afterRead (fst r) (snd r) s) reads st.

(** The event a read emits before it sweeps: [get] emits [get], the
    other reads nothing. *)
Definition readEvents (r : read) : list event :=
  match r with
  | ReadGet key => [EvGet key]
  | _ => []
  end.

(** The states a client can bring the cache to. *)
Inductive reachable : state -> Prop :=
| reach_create d : reachable (create d)
| reach_setExpireMs d st : reachable st -> reachable (setExpireMs d st)
| reach_set now key data exp st : reachable st -> reachable (set now key data exp st)
| reach_get now key st : reachable st -> reachable (snd (get now key st))
| reach_has now key st : reachable st -> reachable (snd (has now key st))
| reach_expires now key st : reachable st -> reachable (snd (expires now key st))
| reach_delete key st : reachable st -> reachable (snd (delete key st))
| reach_clear st : reachable st -> reachable (clear st)
| reach_entries now st : reachable st -> reachable (snd (entries now st))
| reach_keys now st : reachable st -> reachable (snd (keys now st))
| reach_values now st : reachable st -> reachable (snd (values now st)).

End Cache.
Arguments state : clear implicits.
Arguments event : clear implicits.
End ExpireCache.

(** ** ExpireTimeoutCache: expiry by one timer per key *)

Module ExpireTimeoutCache.
Section Cache.
Context {Key Payload : Type} `{EqDec Key} `{Truthy Payload}.

Inductive event : Type :=
  | EvGet (key : Key)
  | EvDelete (key : Key)
  | EvClear (copy : JsMap.t Key Payload)
  | EvExpires (key : Key) (value : Payload).

(** [TimeoutObjectType] *)
Record TimeoutObjectType : Type := mkTimeoutObject {
    timeout : option nat;
    expires_at : option JS.Date
  }.

Record state : Type := mkState {
    cache : JsMap.t Key Payload;
    cacheTimeout : JsMap.t Key TimeoutObjectType;
    defaultExpireMs : option JS.number;
    timers : Timers.t Key;
    emitted : list event
  }.

Definition create (defaultExpireMs : option JS.number) : state :=
  mkState JsMap.empty JsMap.empty defaultExpireMs Timers.init [].

Definition emit (e : event) (st : state) : state :=
  mkState (cache st) (cacheTimeout st) (defaultExpireMs st) (timers st)
          (emitted st ++ [e]).

Definition setExpireMs (expireMs : option JS.number) (st : state) : state :=
  mkState (cache st) (cacheTimeout st) expireMs (timers st) (emitted st).

(** [clearTimeout(key)]: cancels the timer recorded for the key and
    blanks the [timeout] field of the recorded object in place. *)
Definition clearTimeout (key : Key) (st : state) : state :=
  match JsMap.get key (cacheTimeout st) with
  | Some entry =>
      match timeout entry with
      | Some h =>
          mkState (cache st)
                  (JsMap.set key (mkTimeoutObject None (expires_at entry))
                             (cacheTimeout st))
                  (defaultExpireMs st)
                  (Timers.clearTimeout h (timers st))
                  (emitted st)
      | None => st
      end
  | None => st
  end.

Definition notifyExpires (entries : JsMap.t Key Payload) (st : state) : state :=
  fold_left (fun s kv => emit (EvExpires (fst kv) (snd kv)) s)
            (JsMap.entries entries) st.

Definition getExpireDate (now : Z) (expires : option JS.Date) (st : state)
  : option JS.Date :=
  let defaultExpireDate :=
    match defaultExpireMs st with
    | Some ms =>
        if ToBoolean ms then Some (JS.newDate (JS.add (JS.Num now) ms))
        else None
    | None => None
    end in
  match expires with
  | Some d => Some d
  | None => defaultExpireDate
  end.

(** [handleTimeoutSetup]: a timer is armed exactly when an expiry
    date is given. *)
Definition handleTimeoutSetup (now : Z) (key : Key)
           (expiresDate : option JS.Date) (st : state)
  : (option JS.number * TimeoutObjectType) * state :=
  let expiresInMs :=
    option_map (fun d => JS.sub (JS.getTime d) (JS.Num now)) expiresDate in
  match expiresInMs with
  | Some ms =>
      let '(h, tm) := Timers.setTimeout key ms now (timers st) in
      ((expiresInMs, mkTimeoutObject (Some h) expiresDate),
       mkState (cache st) (cacheTimeout st) (defaultExpireMs st) tm (emitted st))
  | None => ((expiresInMs, mkTimeoutObject None expiresDate), st)
  end.

Definition set (now : Z) (key : Key) (data : Payload)
           (expires : option JS.Date) (st : state) : state :=
  let st1 := clearTimeout key st in
  let '((_, options), st2) :=
    handleTimeoutSetup now key (getExpireDate now expires st1) st1 in
  mkState (JsMap.set key data (cache st2))
          (JsMap.set key options (cacheTimeout st2))
          (defaultExpireMs st2) (timers st2) (emitted st2).

Definition get (key : Key) (st : state) : option Payload * state :=
  let st1 := emit (EvGet key) st in
  (JsMap.get key (cache st1), st1).

Definition has (key : Key) (st : state) : bool := JsMap.has key (cache st).

Definition expires (key : Key) (st : state) : option JS.Date :=
  match JsMap.get key (cacheTimeout st) with
  | Some entry => expires_at entry
  | None => None
  end.

Definition delete (key : Key) (st : state) : bool * state :=
  let st1 := clearTimeout key st in
  let entry := JsMap.get key (cache st1) in
  let st2 :=
    match entry with
    | Some e =>
        if ToBoolean e
        then notifyExpires (JsMap.of_list [(key, e)]) (emit (EvDelete key) st1)
        else st1
    | None => st1
    end in
  let '(deleted, cache') := JsMap.delete key (cache st2) in
  (deleted, mkState cache' (cacheTimeout st2) (defaultExpireMs st2)
                    (timers st2) (emitted st2)).

Definition clear (st : state) : state :=
  let st1 := fold_left (fun s kv => clearTimeout (fst kv) s)
                       (JsMap.entries (cacheTimeout st)) st in
  let copy := JsMap.copy (cache st1) in
  let st2 := emit (EvClear copy) (notifyExpires copy st1) in
  mkState (JsMap.clear (cache st2)) (JsMap.clear (cacheTimeout st2))
          (defaultExpireMs st2) (timers st2) (emitted st2).

Definition size (st : state) : nat := JsMap.size (cache st).

Definition entries (st : state) : list (Key * Payload) :=
  JsMap.entries (JsMap.copy (cache st)).
Definition keys (st : state) : list Key :=
  JsMap.keys (JsMap.copy (cache st)).
Definition values (st : state) : list Payload :=
  JsMap.values (JsMap.copy (cache st)).

(** [handleExpiredCallback] *)
Definition handleExpiredCallback (key : Key) (st : state) : state :=
  snd (delete key st).

(** The scheduler runs the callback of a pending timer that is due:
    the timer leaves the pending set, then its callback runs. *)
Definition fire (now : Z) (id : nat) (st : state) : option state :=
  match Timers.fire now id (timers st) with
  | Some (key, tm) =>
      Some (handleExpiredCallback key
              (mkState (cache st) (cacheTimeout st) (defaultExpireMs st)
                       tm (emitted st)))
  | None => None
  end.

(** Every pending timer is the one recorded for its key. *)
Definition recorded (st : state) : Prop :=
  forall tm, In tm (Timers.pending (timers st)) ->
             exists entry, JsMap.get (Timers.t_key tm) (cacheTimeout st) = Some entry /\
                           timeout entry = Some (Timers.t_id tm).

Definition invariant (st : state) : Prop :=
  JsMap.wf (cache st) /\ Timers.ids_ok (timers st) /\ recorded st.

(** Handles are recorded once: a recorded handle has been issued, and
    no two keys record the same handle. *)
Definition exclusive (st : state) : Prop :=
  (forall k e h, JsMap.get k (cacheTimeout st) = Some e -> timeout e = Some h ->
                 (h < Timers.next_id (timers st))%nat) /\
  (forall k1 k2 e1 e2 h,
      JsMap.get k1 (cacheTimeout st) = Some e1 -> timeout e1 = Some h ->
      JsMap.get k2 (cacheTimeout st) = Some e2 -> timeout e2 = Some h ->
      k1 = k2).

Definition expiresEvents (l : list (Key * Payload)) : list event :=
  map (fun kv => EvExpires (fst kv) (snd kv)) l.

(** Consecutive [set] calls on one key, each with its time, payload
    and expiry. *)
Definition setEach (key : Key) (sets : list (Z * Payload * option JS.Date))
           (st : state) : state :=
  fold_left (fun s a => set (fst (fst a)) key (snd (fst a)) (snd a) s) sets st.

(** The states a client and the scheduler can bring the cache to. *)
Inductive reachable : state -> Prop :=
| reach_create d : reachable (create d)
| reach_setExpireMs d st : reachable st -> reachable (setExpireMs d st)
| reach_set now key data exp st : reachable st -> reachable (set now key data exp st)
| reach_get key st : reachable st -> reachable (snd (get key st))
| reach_delete key st : reachable st -> reachable (snd (delete key st))
| reach_clear st : reachable st -> reachable (clear st)
| reach_fire now id st st' :
  reachable st -> fire now id st = Some st' -> reachable st'.

End Cache.
Arguments state : clear implicits.
Arguments event : clear implicits.
End ExpireTimeoutCache.

(** ** TieredCache: the abstract multi-tier engine *)

Module TieredCache.

(** [TierType<Data, Tier>] *)
Record TierType (Tier Data : Type) : Type := mkEntry { tier : Tier; data : Data }.

(** What [handleTierTimeout] may do to the engine through the
    protected members before it returns or throws. *)
Inductive action (Key Tier Data : Type) : Type :=
  | HandleSetValue (key : Key) (tier : Tier) (data : Data) (timeout : option JS.number)
  | HandleDeleteValue (key : Key)
  | CacheDelete (key : Key).
Arguments HandleDeleteValue {Key Tier Data} key.
Arguments CacheDelete {Key Tier Data} key.

(** The abstract members a subclass supplies.  [handleCacheEntry] and
    [handleTimeoutValue] are functions of their arguments that may
    throw; [handleTierTimeout] sees the stored entries and answers
    with the actions it performs on the engine, in order, and with the
    timeout it returns or the error it throws after them.
    [getInitialStatusData] is given by its keys: its values are all 0. *)
Class Strategy : Type := {
    Key : Type;
    Tier : Type;
    Data : Type;
    Error : Type;
    Key_EqDec :: EqDec Key;
    Tier_EqDec :: EqDec Tier;
    Data_Truthy :: Truthy Data;
    handleCacheEntry :
      Key -> Tier -> option (TierType Tier Data) -> JS.result Error (option Data);
    handleTimeoutValue :
      Key -> Tier -> Data -> JS.result Error (option JS.number);
    handleTierTimeout :
      Key -> JsMap.t Key (TierType Tier Data) ->
      list (action Key Tier Data) * JS.result Error (option JS.number);
    handleTierDefaultTimeout : Tier -> option JS.number;
    getInitialStatusData : list Tier
  }.

Section Engine.
Context {S : Strategy}.

Definition Entry : Type := TierType Tier Data.

(** [TieredCacheStatus] *)
Record TieredCacheStatus : Type := mkStatus {
    status_size : nat;
    status_tiers : list (Tier * JS.number)
  }.

Inductive event : Type :=
  | EvUpdate (status : TieredCacheStatus)
  | EvSet (keys : list Key)
  | EvDelete (keys : list Key)
  | EvClear.

Record state : Type := mkState {
    cache : JsMap.t Key Entry;
    cacheTimeout : JsMap.t Key nat;
    statusData : TieredCacheStatus;
    timers : Timers.t Key;
    emitted : list event;
    logged : list Error
  }.

Definition initialTiers : list (Tier * JS.number) :=
  map (fun t => (t, JS.Num 0)) getInitialStatusData.

(** The constructor. *)
Definition create : state :=
  mkState JsMap.empty JsMap.empty (mkStatus 0 initialTiers) Timers.init [] [].

Definition with_cache (c : JsMap.t Key Entry) (st : state) : state :=
  mkState c (cacheTimeout st) (statusData st) (timers st) (emitted st) (logged st).
Definition with_cacheTimeout (c : JsMap.t Key nat) (st : state) : state :=
  mkState (cache st) c (statusData st) (timers st) (emitted st) (logged st).
Definition with_statusData (s : TieredCacheStatus) (st : state) : state :=
  mkState (cache st) (cacheTimeout st) s (timers st) (emitted st) (logged st).
Definition with_timers (tm : Timers.t Key) (st : state) : state :=
  mkState (cache st) (cacheTimeout st) (statusData st) tm (emitted st) (logged st).
Definition emit (e : event) (st : state) : state :=
  mkState (cache st) (cacheTimeout st) (statusData st) (timers st)
          (emitted st ++ [e]) (logged st).
Definition log_error (e : Error) (st : state) : state :=
  mkState (cache st) (cacheTimeout st) (statusData st) (timers st)
          (emitted st) (logged st ++ [e]).

(** [acc[type]++] on the record of counters: an own key is
    incremented, an absent key becomes NaN. *)
Fixpoint increment (type : Tier) (acc : list (Tier * JS.number))
  : list (Tier * JS.number) :=
  match acc with
  | [] => [(type, JS.NaN)]
  | (t, n) :: acc' =>
      if eq_dec t type then (t, JS.add n (JS.Num 1)) :: acc'
      else (t, n) :: increment type acc'
  end.

Definition countTiers (c : JsMap.t Key Entry) : list (Tier * JS.number) :=
  fold_left (fun acc e => increment (tier e) acc) (JsMap.values c) initialTiers.

Definition buildStatus (rebuild : bool) (st : state) : TieredCacheStatus * state :=
  if rebuild then
    let s := mkStatus (JsMap.size (cache st)) (countTiers (cache st)) in
    (s, with_statusData s st)
  else (statusData st, st).

Definition status (st : state) : TieredCacheStatus * state :=
  buildStatus false st.

(** [this.emit('update', this.buildStatus(true))] *)
Definition emitUpdate (st : state) : state :=
  let '(s, st1) := buildStatus true st in emit (EvUpdate s) st1.

Definition setTimeout (now : Z) (key : Key) (timeout : option JS.number)
           (st : state) : state :=
  let st1 :=
    match JsMap.get key (cacheTimeout st) with
    | Some oldTimeout => with_timers (Timers.clearTimeout oldTimeout (timers st)) st
    | None => st
    end in
  match timeout with
  | Some ms =>
      let '(h, tm) := Timers.setTimeout key ms now (timers st1) in
      with_cacheTimeout (JsMap.set key h (cacheTimeout st1)) (with_timers tm st1)
  | None => st1
  end.

Definition clearTimeoutKey (key : Key) (st : state) : state :=
  let st1 :=
    match JsMap.get key (cacheTimeout st) with
    | Some oldTimeout => with_timers (Timers.clearTimeout oldTimeout (timers st)) st
    | None => st
    end in
  with_cacheTimeout (snd (JsMap.delete key (cacheTimeout st1))) st1.

Definition clearAllTimeouts (st : state) : state :=
  let tm := fold_left (fun acc h => Timers.clearTimeout h acc)
                      (JsMap.values (cacheTimeout st)) (timers st) in
  with_cacheTimeout (JsMap.clear (cacheTimeout st)) (with_timers tm st).

(** [timeout ?? fallback] *)
Definition orElse {A} (timeout : option A) (fallback : option A) : option A :=
  match timeout with
  | Some t => Some t
  | None => fallback
  end.

(** [handleSetValue]: the entry is stored before the timeout is
    resolved, so it stays stored when [handleTimeoutValue] throws. *)
Definition handleSetValue (now : Z) (key : Key) (tier : Tier) (data : Data)
           (timeout : option JS.number) (st : state)
  : JS.result Error unit * state :=
  let st1 := with_cache (JsMap.set key (mkEntry tier data) (cache st)) st in
  match timeout with
  | Some t => (JS.Ok tt, setTimeout now key (Some t) st1)
  | None =>
      match handleTimeoutValue key tier data with
      | JS.Ok t => (JS.Ok tt, setTimeout now key t st1)
      | JS.Throw e => (JS.Throw e, st1)
      end
  end.


Definition handleDeleteValue (key : Key) (st : state) : bool * state :=
  let st1 := clearTimeoutKey key st in
  let '(deleted, c) := JsMap.delete key (cache st1) in
  (deleted, with_cache c st1).

Definition get (now : Z) (key : Key) (tier : Tier) (timeout : option JS.number)
           (st : state) : JS.result Error (option Data) * state :=
  let entry := JsMap.get key (cache st) in
  match handleCacheEntry key tier entry with
  | JS.Throw e => (JS.Throw e, st)
  | JS.Ok value =>
      let truthy := match value with Some v => ToBoolean v | None => false end in
      (JS.Ok value,
       if truthy
       then setTimeout now key (orElse timeout (handleTierDefaultTimeout tier)) st
       else st)
  end.

Definition set (now : Z) (key : Key) (tier : Tier) (data : Data)
           (timeout : option JS.number) (st : state)
  : JS.result Error unit * state :=
  match handleSetValue now key tier data timeout st with
  | (JS.Throw e, st1) => (JS.Throw e, st1)
  | (JS.Ok _, st1) => (JS.Ok tt, emitUpdate (emit (EvSet [key]) st1))
  end.

(** The loop of [setEntries]: the first throw ends it. *)
Fixpoint setEntriesLoop (now : Z) (tier : Tier) (entriesArray : list (Key * Data))
         (timeout : option JS.number) (st : state)
  : JS.result Error unit * state :=
  match entriesArray with
  | [] => (JS.Ok tt, st)
  | (key, data) :: rest =>
      match handleSetValue now key tier data timeout st with
      | (JS.Throw e, st1) => (JS.Throw e, st1)
      | (JS.Ok _, st1) => setEntriesLoop now tier rest timeout st1
      end
  end.

Definition setEntries (now : Z) (tier : Tier) (entries : list (Key * Data))
           (timeout : option JS.number) (st : state)
  : JS.result Error unit * state :=
  match setEntriesLoop now tier entries timeout st with
  | (JS.Throw e, st1) => (JS.Throw e, st1)
  | (JS.Ok _, st1) => (JS.Ok tt, emitUpdate (emit (EvSet (map fst entries)) st1))
  end.

Definition getTier (key : Key) (st : state) : option Tier :=
  option_map (@tier Tier Data) (JsMap.get key (cache st)).

(** [tierValues] and [tierEntries] keep the iterator that
    [this.cache.entries()] returned at the call; every [next()] of
    the returned object advances that one iterator over the map as
    it is then. *)
Record tierIterable : Type := mkIterable {
    ti_tier : Tier;
    ti_iterator : JsMap.iterator
  }.

Inductive iterResult (A : Type) : Type :=
  | Done
  | Yield (value : A).
Arguments Done {A}.
Arguments Yield {A} value.

Definition tierValues (tier : Tier) (st : state) : tierIterable :=
  mkIterable tier JsMap.iter_start.

Definition tierValues_next (it : tierIterable) (st : state)
  : JS.result Error (iterResult (option Data)) * tierIterable :=
  let '(r, i) := JsMap.next (ti_iterator it) (cache st) in
  let it' := mkIterable (ti_tier it) i in
  match r with
  | None => (JS.Ok Done, it')
  | Some (k, e) =>
      match handleCacheEntry k (ti_tier it) (Some e) with
      | JS.Ok v => (JS.Ok (Yield v), it')
      | JS.Throw err => (JS.Throw err, it')
      end
  end.

Definition tierEntries (tier : Tier) (st : state) : tierIterable :=
  mkIterable tier JsMap.iter_start.

Definition tierEntries_next (it : tierIterable) (st : state)
  : JS.result Error (iterResult (Key * option Data)) * tierIterable :=
  let '(r, i) := JsMap.next (ti_iterator it) (cache st) in
  let it' := mkIterable (ti_tier it) i in
  match r with
  | None => (JS.Ok Done, it')
  | Some (k, e) =>
      match handleCacheEntry k (ti_tier it) (Some e) with
      | JS.Ok v => (JS.Ok (Yield (k, v)), it')
      | JS.Throw err => (JS.Throw err, it')
      end
  end.

(** A [for await] loop over the iterable while the cache stays as it
    is: the values yielded until [done], or the error that ended the
    loop.  [None] when [fuel] calls of [next] did not reach the end. *)
Fixpoint forAwait {A} (next : tierIterable -> state ->
                              JS.result Error (iterResult A) * tierIterable)
         (fuel : nat) (it : tierIterable) (st : state)
  : option (JS.result Error (list A)) :=
  match fuel with
  | O => None
  | Datatypes.S fuel' =>
      match next it st with
      | (JS.Throw err, _) => Some (JS.Throw err)
      | (JS.Ok Done, _) => Some (JS.Ok [])
      | (JS.Ok (Yield v), it') =>
          match forAwait next fuel' it' st with
          | Some (JS.Ok vs) => Some (JS.Ok (v :: vs))
          | Some (JS.Throw err) => Some (JS.Throw err)
          | None => None
          end
      end
  end.

(** The first [n] turns of a [for await] loop, made while the cache
    is in state [st]: the values they yield and the iterable as they
    leave it.  [None] when the loop ends within them, at [done] or at a
    throw. *)
Fixpoint turns {A} (next : tierIterable -> state ->
                           JS.result Error (iterResult A) * tierIterable)
         (n : nat) (it : tierIterable) (st : state)
  : option (list A * tierIterable) :=
  match n with
  | O => Some ([], it)
  | Datatypes.S n' =>
      match next it st with
      | (JS.Ok (Yield v), it') =>
          match turns next n' it' st with
          | Some (vs, it'') => Some (v :: vs, it'')
          | None => None
          end
      | _ => None
      end
  end.

(** What [next()] of [tierValues] and of [tierEntries] resolves to for
    the pair that the map iterator hands out. *)
Definition yieldValue (tier : Tier) (kv : Key * Entry)
  : JS.result Error (option Data) :=
  handleCacheEntry (fst kv) tier (Some (snd kv)).

Definition yieldEntry (tier : Tier) (kv : Key * Entry)
  : JS.result Error (Key * option Data) :=
  JS.bind (handleCacheEntry (fst kv) tier (Some (snd kv)))
          (fun v => JS.Ok (fst kv, v)).

(** The keys a [for await] loop over [tierEntries] visits. *)
Definition visitedKeys (fuel : nat) (it : tierIterable) (st : state)
  : option (list Key) :=
      match forAwait tierEntries_next fuel it st with
      | Some (JS.Ok l) => Some (map fst l)
      | _ => None
      end.

(** [keys()] hands out the live iterator [this.cache.keys()]; [next()]
    on it reads the map as it is then. *)
Definition keys (st : state) : JsMap.iterator := JsMap.iter_start.

Definition keys_next (it : JsMap.iterator) (st : state)
  : option Key * JsMap.iterator :=
  let '(r, i) := JsMap.next it (cache st) in (option_map fst r, i).

(** A [for ... of] loop over [keys()] while the cache stays as it is:
    the keys visited until [done].  [None] when [fuel] calls of [next]
    did not reach the end. *)
Fixpoint forOfKeys (fuel : nat) (it : JsMap.iterator) (st : state)
  : option (list Key) :=
  match fuel with
  | O => None
  | Datatypes.S fuel' =>
      match keys_next it st with
      | (None, _) => Some []
      | (Some k, it') => option_map (cons k) (forOfKeys fuel' it' st)
      end
  end.

Definition has (key : Key) (st : state) : bool := JsMap.has key (cache st).

Definition size (st : state) : nat := JsMap.size (cache st).

Definition clear (st : state) : state :=
  let keys := JsMap.keys (cache st) in
  let st1 := clearAllTimeouts st in
  let st2 := with_cache (JsMap.clear (cache st1)) st1 in
  emitUpdate (emit EvClear (emit (EvDelete keys) st2)).

Definition delete (key : Key) (st : state) : bool * state :=
  let '(isDeleted, st1) := handleDeleteValue key st in
  if isDeleted
  then (isDeleted, emitUpdate (emit (EvDelete [key]) st1))
  else (isDeleted, st1).

Fixpoint deleteKeysLoop (keys : list Key) (deleteKeys : list Key) (st : state)
  : list Key * state :=
  match keys with
  | [] => (deleteKeys, st)
  | key :: rest =>
      let st1 := clearTimeoutKey key st in
      let '(deleted, c) := JsMap.delete key (cache st1) in
      deleteKeysLoop rest (if deleted then deleteKeys ++ [key] else deleteKeys)
                     (with_cache c st1)
  end.

Definition deleteKeys (keys : list Key) (st : state) : nat * state :=
  let '(deleteKeys, st1) := deleteKeysLoop keys [] st in
  (List.length deleteKeys, emitUpdate (emit (EvDelete deleteKeys) st1)).

(** The engine's side of the actions of [handleTierTimeout]; a
    throw inside [handleSetValue] ends the hook. *)
Fixpoint runActions (now : Z) (acts : list (action Key Tier Data)) (st : state)
  : JS.result Error unit * state :=
  match acts with
  | [] => (JS.Ok tt, st)
  | a :: rest =>
      match a with
      | HandleSetValue key tier data timeout =>
          match handleSetValue now key tier data timeout st with
          | (JS.Throw e, st1) => (JS.Throw e, st1)
          | (JS.Ok _, st1) => runActions now rest st1
          end
      | HandleDeleteValue key =>
          runActions now rest (snd (handleDeleteValue key st))
      | CacheDelete key =>
          runActions now rest
                     (with_cache (snd (JsMap.delete key (cache st))) st)
      end
  end.

(** [await this.handleTierTimeout(key)] *)
Definition callTierTimeout (now : Z) (key : Key) (st : state)
  : JS.result Error (option JS.number) * state :=
  let '(acts, outcome) := handleTierTimeout key (cache st) in
  match runActions now acts st with
  | (JS.Throw e, st1) => (JS.Throw e, st1)
  | (JS.Ok _, st1) => (outcome, st1)
  end.

(** [runTimeout]: never throws; an error of the hook goes to the
    logger. *)
Definition runTimeout (now : Z) (key : Key) (st : state) : state :=
  match callTierTimeout now key st with
  | (JS.Ok timeoutValue, st1) =>
      let st2 :=
        match timeoutValue with
        | None => clearTimeoutKey key st1
        | Some t => setTimeout now key (Some t) st1
        end in
      emitUpdate st2
  | (JS.Throw error, st1) => log_error error st1
  end.

(** The scheduler runs the callback of a pending timer that is due. *)
Definition fire (now : Z) (id : nat) (st : state) : option state :=
  match Timers.fire now id (timers st) with
  | Some (key, tm) => Some (runTimeout now key (with_timers tm st))
  | None => None
  end.

(** The calls a client can make, and the firing of a timer. *)
Inductive op : Type :=
  | OpGet (now : Z) (key : Key) (tier : Tier) (timeout : option JS.number)
  | OpSet (now : Z) (key : Key) (tier : Tier) (data : Data) (timeout : option JS.number)
  | OpSetEntries (now : Z) (tier : Tier) (entries : list (Key * Data))
                 (timeout : option JS.number)
  | OpClear
  | OpDelete (key : Key)
  | OpDeleteKeys (keys : list Key)
  | OpStatus
  | OpFire (now : Z) (id : nat).

(** One call: whether it threw, and the state it leaves. *)
Definition step (o : op) (st : state) : JS.result Error unit * state :=
  match o with
  | OpGet now key tier timeout =>
      match get now key tier timeout st with
      | (JS.Ok _, st1) => (JS.Ok tt, st1)
      | (JS.Throw e, st1) => (JS.Throw e, st1)
      end
  | OpSet now key tier data timeout => set now key tier data timeout st
  | OpSetEntries now tier entries timeout => setEntries now tier entries timeout st
  | OpClear => (JS.Ok tt, clear st)
  | OpDelete key => (JS.Ok tt, snd (delete key st))
  | OpDeleteKeys keys => (JS.Ok tt, snd (deleteKeys keys st))
  | OpStatus => (JS.Ok tt, snd (status st))
  | OpFire now id =>
      match fire now id st with
      | Some st1 => (JS.Ok tt, st1)
      | None => (JS.Ok tt, st)
      end
  end.

(** Consecutive [set] calls on one key, each with its time, tier,
    data and timeout. *)
Definition setEach (key : Key)
       (sets : list (Z * Tier * Data * option JS.number)) (st : state) : state :=
  fold_left (fun s a =>
               snd (set (fst (fst (fst a))) key (snd (fst (fst a)))
                        (snd (fst a)) (snd a) s)) sets st.

(** A run of calls from a state. *)
Fixpoint run (ops : list op) (st : state) : state :=
  match ops with
  | [] => st
  | o :: rest => run rest (snd (step o st))
  end.

(** Whether a call, made in state [st], sees a hook throw: the
    call itself throws or, for a timer, [runTimeout] catches. *)
Definition hookThrew (o : op) (st : state) : bool :=
  match o with
  | OpFire now id =>
      match Timers.fire now id (timers st) with
      | Some (key, tm) =>
          match callTierTimeout now key (with_timers tm st) with
          | (JS.Throw _, _) => true
          | (JS.Ok _, _) => false
          end
      | None => false
      end
  | _ =>
      match step o st with
      | (JS.Throw _, _) => true
      | (JS.Ok _, _) => false
      end
  end.

(** No hook throws along the run. *)
Fixpoint quiet (ops : list op) (st : state) : bool :=
  match ops with
  | [] => true
  | o :: rest => negb (hookThrew o st) && quiet rest (snd (step o st))
  end.

(** Whether a call, made in state [st], changes the storage or
    runs a timer callback. *)
Definition mutates (o : op) (st : state) : bool :=
  match o with
  | OpGet _ _ _ _ => false
  | OpSet _ _ _ _ _ => true
  | OpSetEntries _ _ _ _ => true
  | OpClear => true
  | OpDelete key => JsMap.has key (cache st)
  | OpDeleteKeys _ => true
  | OpStatus => false
  | OpFire now id =>
      match Timers.fire now id (timers st) with
      | Some _ => true
      | None => false
      end
  end.

(** Vocabulary of the statements: every pending timer is the one
    recorded for its key. *)
Definition recorded (st : state) : Prop :=
  forall tm, In tm (Timers.pending (timers st)) ->
             JsMap.get (Timers.t_key tm) (cacheTimeout st) = Some (Timers.t_id tm).

Definition timersInv (st : state) : Prop :=
  Timers.ids_ok (timers st) /\ recorded st.

(** The status kept is the status of the entries stored. *)
Definition statusFresh (st : state) : Prop :=
  statusData st = mkStatus (JsMap.size (cache st)) (countTiers (cache st)).

(** The number of stored entries tagged [t]. *)
Definition tierCount (t : Tier) (c : JsMap.t Key Entry) : nat :=
  List.length (filter (fun e => if eq_dec (tier e) t then true else false)
                      (JsMap.values c)).

Fixpoint lookupTier (t : Tier) (l : list (Tier * JS.number)) : option JS.number :=
  match l with
  | [] => None
  | (t', n) :: l' => if eq_dec t' t then Some n else lookupTier t l'
  end.

Definition sumTiers (l : list (Tier * JS.number)) : JS.number :=
  fold_right (fun tn acc => JS.add (snd tn) acc) (JS.Num 0) l.

(** Every counter is a number. *)
Definition allNum (acc : list (Tier * JS.number)) : Prop :=
  forall tn, In tn acc -> exists z, snd tn = JS.Num z.

(** What the engine's own steps leave alone and keep true: the
    stored entries and the status when only timers are touched, the
    timer invariant, and the order in which handles are issued. *)
Definition timersOnly (st st' : state) : Prop :=
  cache st' = cache st /\ statusData st' = statusData st /\
  emitted st' = emitted st /\ logged st' = logged st.

Definition keepsTimers (st st' : state) : Prop :=
  (timersInv st -> timersInv st') /\
  Timers.evolves (timers st) (timers st').

(** The first half of [setTimeout] and of [clearTimeoutKey]: the
    recorded timer of the key is cancelled. *)
Definition cancelled (key : Key) (st : state) : state :=
  match JsMap.get key (cacheTimeout st) with
  | Some oldTimeout =>
      with_timers (Timers.clearTimeout oldTimeout (timers st)) st
  | None => st
  end.

(** Two states hold the same entries, timer records and timers. *)
Definition sameStore (st st' : state) : Prop :=
  cache st' = cache st /\ cacheTimeout st' = cacheTimeout st /\
  timers st' = timers st.

(** Handles are recorded once: the records have pairwise distinct
    keys, a recorded handle has been issued, and no two keys record the
    same handle. *)
Definition exclusive (st : state) : Prop :=
  JsMap.wf (cacheTimeout st) /\
  (forall k h, JsMap.get k (cacheTimeout st) = Some h ->
               (h < Timers.next_id (timers st))%nat) /\
  (forall k1 k2 h, JsMap.get k1 (cacheTimeout st) = Some h ->
                   JsMap.get k2 (cacheTimeout st) = Some h -> k1 = k2).

End Engine.
Arguments Done {A}.
Arguments Yield {A} value.
End TieredCache.

(** ** JSON texts and values *)

Module JSON.
#[local] Open Scope string_scope.
#[local] Set Warnings "-register-all".

(** The values [JSON.parse] builds, and the object literals the cache
  passes to [JSON.stringify]. *)
Inductive value : Type :=
| JNull
| JBool (b : bool)
| JNum (n : JS.number)
| JStr (s : string)
| JArr (elements : list value)
| JObj (members : list (string * value)).

(** The outcome of reading a text: the value read and the text left;
  a syntax error; or a text outside the embedding (a number with a
  fraction or an exponent or beyond 2^53, an escape in a string, or a
  text that exhausts the fuel of the reader). *)
Inductive parsed (A : Type) : Type :=
| Parsed (a : A) (rest : string)
| SyntaxError
| Unmodelled.
Arguments SyntaxError {A}.
Arguments Unmodelled {A}.

Definition quote : ascii := "034"%char.

Definition is_ws (c : ascii) : bool :=
  (Ascii.eqb c " " || Ascii.eqb c "009" || Ascii.eqb c "010" || Ascii.eqb c "013")%char.

Fixpoint skip_ws (s : string) : string :=
  match s with
  | String c r => if is_ws c then skip_ws r else s
  | EmptyString => s
  end.

Definition is_digit (c : ascii) : bool :=
  (Nat.leb 48 (nat_of_ascii c) && Nat.leb (nat_of_ascii c) 57)%bool.

(** The longest prefix of digits, as a decimal numeral. *)
Fixpoint read_digits (s : string) : Decimal.uint * string :=
  match s with
  | String c r =>
      if is_digit c then
        let '(d, r') := read_digits r in
        match DecimalString.uint_of_char c (Some d) with
        | Some d' => (d', r')
        | None => (Decimal.Nil, s)
        end
      else (Decimal.Nil, s)
  | EmptyString => (Decimal.Nil, s)
  end.

Definition maxSafe : Z := 9007199254740992.

(** A number: an optional minus sign, then 0 or a numeral without a
    leading zero. *)
Definition parse_number (s : string) : parsed value :=
  let '(negative, s1) :=
    match s with
    | String c r => if Ascii.eqb c "-"%char then (true, r) else (false, s)
    | EmptyString => (false, s)
    end in
  let '(d, rest) := read_digits s1 in
  let finish (z : Z) : parsed value :=
    match rest with
    | String c _ =>
        if (Ascii.eqb c "." || Ascii.eqb c "e" || Ascii.eqb c "E")%char
        then Unmodelled
        else if Z.ltb maxSafe (Z.abs z) then Unmodelled
        else Parsed (JNum (JS.Num (if negative then Z.opp z else z))) rest
    | EmptyString =>
        if Z.ltb maxSafe (Z.abs z) then Unmodelled
        else Parsed (JNum (JS.Num (if negative then Z.opp z else z))) rest
    end in
  match d with
  | Decimal.Nil => SyntaxError
  | Decimal.D0 Decimal.Nil => finish 0%Z
  | Decimal.D0 _ => SyntaxError
  | _ => finish (Z.of_uint d)
  end.

(** The characters of a string up to its closing quote. *)
Fixpoint read_string (s : string) : parsed string :=
  match s with
  | EmptyString => SyntaxError
  | String c r =>
      if Ascii.eqb c quote then Parsed EmptyString r
      else if Ascii.eqb c "\"%char then Unmodelled
      else if Nat.ltb (nat_of_ascii c) 32 then SyntaxError
      else
        match read_string r with
        | Parsed t r' => Parsed (String c t) r'
        | SyntaxError => SyntaxError
        | Unmodelled => Unmodelled
        end
  end.

Fixpoint strip_prefix (p s : string) : option string :=
  match p with
  | EmptyString => Some s
  | String c p' =>
      match s with
      | String c' s' => if Ascii.eqb c c' then strip_prefix p' s' else None
      | EmptyString => None
      end
  end.

Definition literal (p : string) (v : value) (s : string) : parsed value :=
  match strip_prefix p s with
  | Some rest => Parsed v rest
  | None => SyntaxError
  end.

(** A member read twice keeps its place and takes the later value. *)
Fixpoint put (k : string) (v : value) (ms : list (string * value))
  : list (string * value) :=
  match ms with
  | [] => [(k, v)]
  | (k', v') :: r =>
      if String.eqb k' k then (k', v) :: r else (k', v') :: put k v r
  end.

Fixpoint member (k : string) (ms : list (string * value)) : option value :=
  match ms with
  | [] => None
  | (k', v) :: r => if String.eqb k' k then Some v else member k r
  end.

Fixpoint parse_value (fuel : nat) (s : string) : parsed value :=
  match fuel with
  | O => Unmodelled
  | S fuel' =>
      match skip_ws s with
      | EmptyString => SyntaxError
      | String c r =>
          if Ascii.eqb c "n"%char then literal "ull" JNull r
          else if Ascii.eqb c "t"%char then literal "rue" (JBool true) r
          else if Ascii.eqb c "f"%char then literal "alse" (JBool false) r
          else if Ascii.eqb c quote then
            match read_string r with
            | Parsed t r' => Parsed (JStr t) r'
            | SyntaxError => SyntaxError
            | Unmodelled => Unmodelled
            end
          else if Ascii.eqb c "["%char then
            match skip_ws r with
            | String c' r' =>
                if Ascii.eqb c' "]"%char then Parsed (JArr []) r'
                else parse_elements fuel' r []
            | EmptyString => SyntaxError
            end
          else if Ascii.eqb c "{"%char then
            match skip_ws r with
            | String c' r' =>
                if Ascii.eqb c' "}"%char then Parsed (JObj []) r'
                else parse_members fuel' r []
            | EmptyString => SyntaxError
            end
          else parse_number (String c r)
      end
  end
with parse_elements (fuel : nat) (s : string) (acc : list value) : parsed value :=
  match fuel with
  | O => Unmodelled
  | S fuel' =>
      match parse_value fuel' s with
      | Parsed v r =>
          match skip_ws r with
          | String c r' =>
              if Ascii.eqb c ","%char then parse_elements fuel' r' (acc ++ [v])%list
              else if Ascii.eqb c "]"%char then Parsed (JArr (acc ++ [v])%list) r'
              else SyntaxError
          | EmptyString => SyntaxError
          end
      | SyntaxError => SyntaxError
      | Unmodelled => Unmodelled
      end
  end
with parse_members (fuel : nat) (s : string) (acc : list (string * value))
  : parsed value :=
  match fuel with
  | O => Unmodelled
  | S fuel' =>
      match skip_ws s with
      | String c r =>
          if Ascii.eqb c quote then
            match read_string r with
            | Parsed k r1 =>
                match skip_ws r1 with
                | String c1 r2 =>
                    if Ascii.eqb c1 ":"%char then
                      match parse_value fuel' r2 with
                      | Parsed v r3 =>
                          match skip_ws r3 with
                          | String c3 r4 =>
                              if Ascii.eqb c3 ","%char
                              then parse_members fuel' r4 (put k v acc)
                              else if Ascii.eqb c3 "}"%char
                              then Parsed (JObj (put k v acc)) r4
                              else SyntaxError
                          | EmptyString => SyntaxError
                          end
                      | SyntaxError => SyntaxError
                      | Unmodelled => Unmodelled
                      end
                    else SyntaxError
                | EmptyString => SyntaxError
                end
            | SyntaxError => SyntaxError
            | Unmodelled => Unmodelled
            end
          else SyntaxError
      | EmptyString => SyntaxError
      end
  end.

(** A text at which reading a numeral stops: it is empty or starts
    with a character that is not a digit. *)
Definition stops (rest : string) : Prop :=
  match rest with
  | String c _ => JSON.is_digit c = false
  | EmptyString => True
  end.

(** [JSON.parse(text)]: one value, then nothing but white space. *)
Definition parse (text : string) : parsed value :=
  match parse_value (2 * String.length text + 2) text with
  | Parsed v r =>
      match skip_ws r with
      | EmptyString => Parsed v EmptyString
      | String _ _ => SyntaxError
      end
  | SyntaxError => SyntaxError
  | Unmodelled => Unmodelled
  end.

(** [Number.prototype.toString] on the numbers of the embedding: the
    decimal numeral, as JavaScript prints an integer below 10^21 in
    magnitude (the time values and the parsed numbers are all below
    2^53). *)
Definition Number_toString (n : JS.number) : string :=
  match n with
  | JS.NaN => "NaN"
  | JS.Num z => DecimalString.NilEmpty.string_of_int (Z.to_int z)
  end.

(** [JSON.stringify({$cdate: n})]: a number that is not finite is
    written [null]. *)
Definition stringify_cdate (n : JS.number) : string :=
  String "{"%char (String quote ("$cdate" ++ String quote (String ":"%char
    (match n with
     | JS.NaN => "null"
     | JS.Num _ => Number_toString n
     end ++ "}")))).

(** [String(v)] for a value [v]: an array joins its elements with
    commas, [null] elements being empty. *)
Fixpoint ToString (v : value) : string :=
  match v with
  | JNull => "null"
  | JBool true => "true"
  | JBool false => "false"
  | JNum n => Number_toString n
  | JStr s => s
  | JArr l =>
      (fix join (l : list value) : string :=
         match l with
         | [] => EmptyString
         | e :: r =>
             let one := match e with JNull => EmptyString | _ => ToString e end in
             match r with
             | [] => one
             | _ :: _ => one ++ "," ++ join r
             end
         end) l
  | JObj _ => "[object Object]"
  end.

#[global] Instance value_Truthy : Truthy value :=
  fun v => match v with
           | JNull => false
           | JBool b => b
           | JNum n => ToBoolean n
           | JStr s => ToBoolean s
           | JArr _ | JObj _ => true
           end.

End JSON.

(** ** DateTieredCache: the reference three-tier strategy *)

Module DateTieredCache.
#[local] Open Scope string_scope.

(** The tier labels ['model'], ['object'] and ['stringValue']. *)
Inductive tierName : Type := model | object | stringValue.

(** The values the strategy handles: [Date] objects, and the values
  that [JSON.parse] returns and the object literals [{$cdate: n}]
  (strings among them). *)
Inductive data : Type :=
| DDate (d : JS.Date)
| DJson (v : JSON.value).

Inductive error : Type :=
| TypeError
| SyntaxError
| Unmodelled.

Definition DataCacheTier : Type := TieredCache.TierType tierName data.

#[global] Instance tierName_EqDec : EqDec tierName.
Proof. intros x y. decide equality. Defined.

#[global] Instance data_Truthy : Truthy data :=
  fun d => match d with
           | DDate _ => true
           | DJson v => ToBoolean v
           end.

(** [DateTimeout]: every tier has the timeout 100. *)
Definition DateTimeout_Model : JS.number := JS.Num 100.
Definition DateTimeout_Object : JS.number := JS.Num 100.
Definition DateTimeout_StringValue : JS.number := JS.Num 100.

Section Strategy.

(** [Date.parse] belongs to the host: its answer on a string that is
  not in the interchange format is left to the implementation. *)
Variable Date_parse : string -> JS.number.

(** [{$cdate: v}] *)
Definition cdateObject (v : JSON.value) : JSON.value := JSON.JObj [("$cdate", v)].

(** [cache.data.getTime()]: a type error unless the data is a [Date]. *)
Definition call_getTime (d : data) : JS.result error JS.number :=
  match d with
  | DDate date => JS.Ok (JS.getTime date)
  | DJson _ => JS.Throw TypeError
  end.

(** [cache.data.$cdate]: [undefined] on anything but an object with
    that member, a type error on [null]. *)
Definition get_cdate (d : data) : JS.result error (option JSON.value) :=
  match d with
  | DDate _ => JS.Ok None
  | DJson JSON.JNull => JS.Throw TypeError
  | DJson (JSON.JObj ms) => JS.Ok (JSON.member "$cdate" ms)
  | DJson _ => JS.Ok None
  end.

(** [v?.$cdate] *)
Definition opt_cdate (v : JSON.value) : option JSON.value :=
  match v with
  | JSON.JObj ms => JSON.member "$cdate" ms
  | _ => None
  end.

(** [JSON.parse(cache.data)]: the data is converted to a string first;
    the string of a [Date] is never a JSON text. *)
Definition parse_data (d : data) : JS.result error JSON.value :=
  match d with
  | DDate _ => JS.Throw SyntaxError
  | DJson v =>
      match JSON.parse (JSON.ToString v) with
      | JSON.Parsed r _ => JS.Ok r
      | JSON.SyntaxError => JS.Throw SyntaxError
      | JSON.Unmodelled => JS.Throw Unmodelled
      end
  end.

(** [new Date(x)] for [x] undefined or a value. *)
Definition Date_of (x : option JSON.value) : JS.Date :=
  match x with
  | None => JS.newDate JS.NaN
  | Some JSON.JNull => JS.newDate (JS.Num 0)
  | Some (JSON.JBool b) => JS.newDate (JS.Num (if b then 1 else 0))
  | Some (JSON.JNum n) => JS.newDate n
  | Some (JSON.JStr s) => JS.newDate (Date_parse s)
  | Some v => JS.newDate (Date_parse (JSON.ToString v))
  end.

Definition getModel (_key : string) (cache : DataCacheTier) : JS.result error data :=
  match TieredCache.tier cache with
  | model => JS.Ok (TieredCache.data cache)
  | object =>
      JS.bind (get_cdate (TieredCache.data cache))
              (fun x => JS.Ok (DDate (Date_of x)))
  | stringValue =>
      JS.bind (parse_data (TieredCache.data cache))
              (fun v => JS.Ok (DDate (Date_of (opt_cdate v))))
  end.

Definition getStringValue (_key : string) (cache : DataCacheTier)
  : JS.result error data :=
  match TieredCache.tier cache with
  | model =>
      JS.bind (call_getTime (TieredCache.data cache))
              (fun n => JS.Ok (DJson (JSON.JStr (JSON.stringify_cdate n))))
  | object =>
      JS.bind (get_cdate (TieredCache.data cache))
              (fun x => JS.Ok (DJson (JSON.JStr
                                 (JSON.stringify_cdate (JS.getTime (Date_of x))))))
  | stringValue => JS.Ok (TieredCache.data cache)
  end.

Definition getObject (_key : string) (cache : DataCacheTier) : JS.result error data :=
  match TieredCache.tier cache with
  | model =>
      JS.bind (call_getTime (TieredCache.data cache))
              (fun n => JS.Ok (DJson (cdateObject (JSON.JNum n))))
  | object => JS.Ok (TieredCache.data cache)
  | stringValue =>
      JS.bind (parse_data (TieredCache.data cache)) (fun v => JS.Ok (DJson v))
  end.

Definition handleCacheEntry (key : string) (targetTier : tierName)
           (cacheEntry : option DataCacheTier) : JS.result error (option data) :=
  match cacheEntry with
  | None => JS.Ok None
  | Some entry =>
      JS.bind (match targetTier with
               | model => getModel key entry
               | object => getObject key entry
               | stringValue => getStringValue key entry
               end) (fun d => JS.Ok (Some d))
  end.

Definition handleTierDefaultTimeout (type : tierName) : option JS.number :=
  match type with
  | model => Some DateTimeout_Model
  | object => Some DateTimeout_Object
  | stringValue => Some DateTimeout_StringValue
  end.

Definition handleTimeoutValue (key : string) (tier : tierName) (_data : data)
  : JS.result error (option JS.number) :=
  JS.Ok (handleTierDefaultTimeout tier).

Definition handleTierTimeout (key : string) (cache : JsMap.t string DataCacheTier)
  : list (TieredCache.action string tierName data) *
    JS.result error (option JS.number) :=
  match JsMap.get key cache with
  | Some entry =>
      match TieredCache.tier entry with
      | model =>
          match call_getTime (TieredCache.data entry) with
          | JS.Ok n =>
              ([TieredCache.HandleSetValue key object
                  (DJson (cdateObject (JSON.JNum n))) None],
               JS.Ok (handleTierDefaultTimeout object))
          | JS.Throw e => ([], JS.Throw e)
          end
      | object =>
          match get_cdate (TieredCache.data entry) with
          | JS.Ok x =>
              ([TieredCache.HandleSetValue key stringValue
                  (DJson (JSON.JStr (JSON.Number_toString (JS.getTime (Date_of x)))))
                  None],
               JS.Ok (handleTierDefaultTimeout stringValue))
          | JS.Throw e => ([], JS.Throw e)
          end
      | stringValue => ([TieredCache.CacheDelete key], JS.Ok None)
      end
  | None => ([], JS.Ok None)
  end.

Definition getInitialStatusData : list tierName := [model; object; stringValue].

#[global] Instance strategy : TieredCache.Strategy := {|
  TieredCache.Key := string;
  TieredCache.Tier := tierName;
  TieredCache.Data := data;
  TieredCache.Error := error;
  TieredCache.handleCacheEntry := handleCacheEntry;
  TieredCache.handleTimeoutValue := handleTimeoutValue;
  TieredCache.handleTierTimeout := handleTierTimeout;
  TieredCache.handleTierDefaultTimeout := handleTierDefaultTimeout;
  TieredCache.getInitialStatusData := getInitialStatusData
|}.

(** The data of a valid time value [z] in each tier: the [Date], the
    object [{$cdate: z}], and the text [JSON.stringify] writes for that
    object. *)
Definition canonical (z : Z) (tier : tierName) : data :=
  match tier with
  | model => DDate (JS.mkDate (JS.Num z))
  | object => DJson (cdateObject (JSON.JNum (JS.Num z)))
  | stringValue => DJson (JSON.JStr (JSON.stringify_cdate (JS.Num z)))
  end.

End Strategy.

(** The host of the closed examples: its [Date.parse] recognises no
  string.  None of the examples reaches [Date.parse]. *)
Definition noDateParse : string -> JS.number := fun _ => JS.NaN.

Definition exampleStrategy : TieredCache.Strategy := strategy noDateParse.

End DateTieredCache.

(** ** A strategy whose hooks all throw *)

Module FaultyTieredCache.
#[local] Open Scope string_scope.

(** One tier; every hook throws the name of the hook. *)
#[global] Instance strategy : TieredCache.Strategy := {|
  TieredCache.Key := string;
  TieredCache.Tier := unit;
  TieredCache.Data := string;
  TieredCache.Error := string;
  TieredCache.handleCacheEntry := fun _ _ _ => JS.Throw "handleCacheEntry";
  TieredCache.handleTimeoutValue := fun _ _ _ => JS.Throw "handleTimeoutValue";
  TieredCache.handleTierTimeout := fun _ _ => ([], JS.Throw "handleTierTimeout");
  TieredCache.handleTierDefaultTimeout := fun _ => None;
  TieredCache.getInitialStatusData := [tt]
|}.

End FaultyTieredCache.

(** ** The caches of the examples *)

Module Examples.
#[local] Open Scope string_scope.

(** The lazy cache with one entry ["k"] that expires at time 100. *)
Definition oneEntry : ExpireCache.state string string :=
  ExpireCache.set 0 "k" "v" (Some (JS.newDate (JS.Num 100))) (ExpireCache.create None).

(** One entry ["k"] in each cache, stored without an expiry. *)
Definition lazyOne : ExpireCache.state string string :=
  ExpireCache.set 0 "k" "v" None (ExpireCache.create None).

Definition timedOne : ExpireTimeoutCache.state string string :=
  ExpireTimeoutCache.set 0 "k" "v" None (ExpireTimeoutCache.create None).





(** The timer cache after one [set] with an expiry at time 100. *)
Definition timedArmed : ExpireTimeoutCache.state string string :=
  ExpireTimeoutCache.set 0 "k" "v" (Some (JS.newDate (JS.Num 100)))
                         (ExpireTimeoutCache.create None).


(** The reference cache, for any [Date.parse] of the host. *)
Abbreviation DateCache := DateTieredCache.strategy (only parsing).

(** It holds the key ["a"] when [tierEntries] is called, and gets the
    key ["b"] before the loop runs. *)
Definition withA (Date_parse : string -> JS.number)
  : @TieredCache.state (DateCache Date_parse) :=
  snd (@TieredCache.set (DateCache Date_parse) 0 "a" DateTieredCache.object
         (DateTieredCache.DJson
            (DateTieredCache.cdateObject (JSON.JNum (JS.Num 1)))) None
         (@TieredCache.create (DateCache Date_parse))).

Definition withAB (Date_parse : string -> JS.number)
  : @TieredCache.state (DateCache Date_parse) :=
  snd (@TieredCache.set (DateCache Date_parse) 1 "b" DateTieredCache.object
         (DateTieredCache.DJson
            (DateTieredCache.cdateObject (JSON.JNum (JS.Num 2)))) None
         (withA Date_parse)).

(** One entry stored in the tier ['stringValue'] that holds the empty
    string; its timer is due at time 100. *)
Definition withEmptyString (Date_parse : string -> JS.number)
  : @TieredCache.state (DateCache Date_parse) :=
  snd (@TieredCache.set (DateCache Date_parse) 0 "k" DateTieredCache.stringValue
         (DateTieredCache.DJson (JSON.JStr EmptyString)) None
         (@TieredCache.create (DateCache Date_parse))).

(** A run of the reference cache: a set, the firing of its timer, a
    delete of a key that is not stored, a read. *)
Definition exampleRun : list (@TieredCache.op DateTieredCache.exampleStrategy) :=
  [@TieredCache.OpSet DateTieredCache.exampleStrategy 0 "k1" DateTieredCache.model
      (DateTieredCache.DDate (JS.newDate (JS.Num 1704067200000))) None;
   @TieredCache.OpFire DateTieredCache.exampleStrategy 100 1;
   @TieredCache.OpDelete DateTieredCache.exampleStrategy "k2";
   @TieredCache.OpGet DateTieredCache.exampleStrategy 110 "k1"
      DateTieredCache.stringValue None].

(** The faulty cache after a [set] whose hook throws. *)
Definition faultyAfterSet : @TieredCache.state FaultyTieredCache.strategy :=
  snd (@TieredCache.set FaultyTieredCache.strategy 0 "k" tt "v" None
         (@TieredCache.create FaultyTieredCache.strategy)).

(** The faulty cache with one entry whose timer, armed with an explicit
    timeout, is due at time 100. *)
Definition faultyArmed : @TieredCache.state FaultyTieredCache.strategy :=
  snd (@TieredCache.set FaultyTieredCache.strategy 0 "k" tt "v" (Some (JS.Num 100))
         (@TieredCache.create FaultyTieredCache.strategy)).

End Examples.

(* ================================================================== *)
(** * Part II: properties                                              *)
(* ================================================================== *)

Import Examples.

(** ** Facts about [Map] *)

Module JsMapFacts.
Section Facts.
Context {K V : Type} `{EqDec K}.
Implicit Types (m : JsMap.t K V) (k : K) (v : V).

Ltac key_cases :=
  repeat match goal with
         | |- context [eq_dec ?a ?b] => destruct (eq_dec a b); subst
         | H : context [eq_dec ?a ?b] |- _ => destruct (eq_dec a b); subst
         end.

Lemma get_set_same m k v : JsMap.get k (JsMap.set k v m) = Some v.
Proof.
  induction m as [|[[k' v']|] m IH]; simpl; key_cases; simpl; key_cases;
    try congruence; auto.
Qed.

Lemma get_set_other m k k' v :
  k <> k' -> JsMap.get k' (JsMap.set k v m) = JsMap.get k' m.
Proof.
  intros Hne.
  induction m as [|[[k0 v0]|] m IH]; simpl; key_cases; simpl; key_cases;
    try congruence; auto.
Qed.

Lemma get_set m k k' v :
  JsMap.get k' (JsMap.set k v m) =
  if eq_dec k k' then Some v else JsMap.get k' m.
Proof.
  destruct (eq_dec k k'); subst; auto using get_set_same, get_set_other.
Qed.

Lemma get_In m k v : JsMap.get k m = Some v -> In (k, v) (JsMap.entries m).
Proof.
  induction m as [|[[k0 v0]|] m IH]; simpl; try discriminate; auto.
  key_cases; intros E; [injection E as ->; auto | auto].
Qed.

Lemma get_None m k : JsMap.get k m = None <-> ~ In k (JsMap.keys m).
Proof.
  unfold JsMap.keys.
  induction m as [|[[k0 v0]|] m IH]; simpl; [tauto | | exact IH].
  destruct (eq_dec k0 k) as [->|Hne].
  - split; [discriminate | intros E; exfalso; apply E; auto].
  - rewrite IH. tauto.
Qed.

Lemma In_get m k v :
  JsMap.wf m -> In (k, v) (JsMap.entries m) -> JsMap.get k m = Some v.
Proof.
  unfold JsMap.wf, JsMap.keys.
  induction m as [|[[k0 v0]|] m IH]; simpl; [tauto | | exact IH].
  intros Hnd [E | Hin].
  - injection E as -> ->. key_cases; congruence.
  - inversion Hnd as [|? ? Hnotin Hnd']; subst.
    key_cases; [| auto].
    exfalso; apply Hnotin. change k with (fst (k, v)). now apply in_map.
Qed.

Lemma has_get m k : JsMap.has k m = true <-> exists v, JsMap.get k m = Some v.
Proof.
  unfold JsMap.has. destruct (JsMap.get k m); split; eauto; try discriminate.
  intros [? ?]; discriminate.
Qed.

Lemma has_false m k : JsMap.has k m = false <-> JsMap.get k m = None.
Proof.
  unfold JsMap.has. destruct (JsMap.get k m); split; auto; discriminate.
Qed.

Lemma keys_set m k v :
  JsMap.keys (JsMap.set k v m) =
  if JsMap.has k m then JsMap.keys m else JsMap.keys m ++ [k].
Proof.
  unfold JsMap.keys, JsMap.has.
  induction m as [|[[k0 v0]|] m IH]; simpl; auto.
  key_cases; simpl; auto.
  rewrite IH. destruct (JsMap.get k m); auto.
Qed.

Lemma wf_set m k v : JsMap.wf m -> JsMap.wf (JsMap.set k v m).
Proof.
  unfold JsMap.wf. intros Hnd. rewrite keys_set.
  destruct (JsMap.has k m) eqn:E; auto.
  apply has_false, get_None in E.
  apply NoDup_app; auto.
  - constructor; [intros [] | constructor].
  - intros x Hx [<- | []]; auto.
Qed.

Lemma wf_empty : JsMap.wf (@JsMap.empty K V).
Proof. constructor. Qed.

Lemma delete_fst m k : fst (JsMap.delete k m) = JsMap.has k m.
Proof.
  unfold JsMap.has.
  induction m as [|[[k0 v0]|] m IH]; simpl; auto.
  - key_cases; auto. destruct (JsMap.delete k m); simpl in *; auto.
  - destruct (JsMap.delete k m); simpl in *; auto.
Qed.

Lemma get_delete_other m k k' :
  k <> k' -> JsMap.get k' (snd (JsMap.delete k m)) = JsMap.get k' m.
Proof.
  intros Hne.
  induction m as [|[[k0 v0]|] m IH]; simpl; auto.
  - key_cases; simpl; try congruence;
      destruct (JsMap.delete k m); simpl in *; key_cases; congruence.
  - destruct (JsMap.delete k m); simpl in *; auto.
Qed.

Lemma entries_delete m k :
  JsMap.entries (snd (JsMap.delete k m)) =
  (fix drop (l : list (K * V)) : list (K * V) :=
     match l with
     | [] => []
     | e :: l' => if eq_dec (fst e) k then l' else e :: drop l'
     end) (JsMap.entries m).
Proof.
  induction m as [|[[k0 v0]|] m IH]; simpl; auto.
  - key_cases; simpl; auto.
    destruct (JsMap.delete k m); simpl in *. now rewrite IH.
  - destruct (JsMap.delete k m); simpl in *; auto.
Qed.

Lemma keys_delete_incl m k k' :
  In k' (JsMap.keys (snd (JsMap.delete k m))) -> In k' (JsMap.keys m).
Proof.
  unfold JsMap.keys. rewrite entries_delete.
  induction (JsMap.entries m) as [|e l IH]; simpl; auto.
  key_cases; simpl; tauto.
Qed.

Lemma wf_delete m k : JsMap.wf m -> JsMap.wf (snd (JsMap.delete k m)).
Proof.
  unfold JsMap.wf. intros Hnd.
  assert (Hincl : forall k', In k' (JsMap.keys (snd (JsMap.delete k m))) ->
                             In k' (JsMap.keys m)) by apply keys_delete_incl.
  revert Hnd Hincl. unfold JsMap.keys. rewrite entries_delete.
  induction (JsMap.entries m) as [|e l IH]; simpl; auto.
  intros Hnd _. inversion Hnd as [|? ? Hnotin Hnd']; subst.
  key_cases; auto. simpl. constructor.
  - intros Hin. apply Hnotin. clear - Hin.
    induction l as [|e' l IH]; simpl in *; auto.
    key_cases; simpl in *; tauto.
  - apply IH; auto. intros k' Hin. clear - Hin.
    induction l as [|e' l IH]; simpl in *; auto.
    key_cases; simpl in *; tauto.
Qed.

Lemma get_delete_same m k :
  JsMap.wf m -> JsMap.get k (snd (JsMap.delete k m)) = None.
Proof.
  unfold JsMap.wf, JsMap.keys.
  induction m as [|[[k0 v0]|] m IH]; simpl; auto.
  - intros Hnd. inversion Hnd as [|? ? Hnotin Hnd']; subst.
    key_cases; simpl.
    + apply get_None. exact Hnotin.
    + destruct (JsMap.delete k m) eqn:E; simpl in *. key_cases; try congruence.
      auto.
  - intros Hnd. destruct (JsMap.delete k m) eqn:E; simpl in *. auto.
Qed.

Lemma get_delete m k k' :
  JsMap.wf m ->
  JsMap.get k' (snd (JsMap.delete k m)) =
  if eq_dec k k' then None else JsMap.get k' m.
Proof.
  intros Hwf. destruct (eq_dec k k'); subst;
    auto using get_delete_same, get_delete_other.
Qed.

Lemma delete_absent m k :
  JsMap.get k m = None -> JsMap.delete k m = (false, m).
Proof.
  induction m as [|[[k0 v0]|] m IH]; simpl; auto.
  - key_cases; try discriminate. intros E. now rewrite IH.
  - intros E. now rewrite IH.
Qed.

Lemma entries_clear m : JsMap.entries (JsMap.clear m) = [].
Proof. induction m as [|[e|] m IH]; simpl; auto. Qed.

Lemma get_clear m k : JsMap.get k (JsMap.clear m) = None.
Proof. induction m as [|[e|] m IH]; simpl; auto. Qed.

Lemma entries_app m m' :
  JsMap.entries (m ++ m') = JsMap.entries m ++ JsMap.entries m'.
Proof. induction m as [|[e|] m IH]; simpl; auto. now rewrite IH. Qed.

Lemma set_absent m k v :
  JsMap.get k m = None -> JsMap.set k v m = m ++ [Some (k, v)].
Proof.
  induction m as [|[[k0 v0]|] m IH]; simpl; auto.
  - key_cases; try discriminate. intros E. now rewrite IH.
  - intros E. now rewrite IH.
Qed.

Lemma size_delete m k :
  JsMap.size (snd (JsMap.delete k m)) =
  if JsMap.has k m then pred (JsMap.size m) else JsMap.size m.
Proof.
  unfold JsMap.size, JsMap.has.
  induction m as [|[[k0 v0]|] m IH]; simpl; auto.
  - key_cases; simpl; auto.
    destruct (JsMap.delete k m); simpl in *. rewrite IH.
    destruct (JsMap.get k m) eqn:E; auto.
    apply get_In in E. destruct (JsMap.entries m); [destruct E | reflexivity].
  - destruct (JsMap.delete k m); simpl in *; auto.
Qed.

(** The iterator: [scan] finds the first live entry at or after a
    slot. *)
Lemma scan_spec m i :
  match JsMap.scan i m with
  | Some (e, j) =>
      JsMap.entries (skipn i m) = e :: JsMap.entries (skipn j m) /\
      (i < j <= List.length m)%nat
  | None => JsMap.entries (skipn i m) = []
  end.
Proof.
  revert i. induction m as [|s m IH]; intros i; simpl.
  - destruct i; reflexivity.
  - destruct i as [|i].
    + destruct s as [e|]; simpl.
      * split; [reflexivity | lia].
      * specialize (IH 0%nat). destruct (JsMap.scan 0 m) as [[e j]|]; simpl in *; auto.
        destruct IH; split; auto; lia.
    + specialize (IH i). destruct (JsMap.scan i m) as [[e j]|]; simpl in *; auto.
      destruct IH; split; auto; lia.
Qed.

(** The entries an iterator has gone through when [scan] hands out the
    next one. *)
Lemma scan_firstn m i :
  match JsMap.scan i m with
  | Some (e, j) => JsMap.entries (firstn j m) = JsMap.entries (firstn i m) ++ [e]
  | None => True
  end.
Proof.
  revert i. induction m as [|s m IH]; intros i; simpl.
  - exact I.
  - destruct i as [|i].
    + destruct s as [e|]; simpl; [now destruct m|].
      specialize (IH 0%nat). destruct (JsMap.scan 0 m) as [[e j]|]; simpl in *; auto.
    + specialize (IH i). destruct (JsMap.scan i m) as [[e j]|]; simpl in *; auto.
      destruct s as [e0|]; simpl; [now rewrite IH | exact IH].
Qed.

(** A key that is new to the map goes to a slot behind every slot an
    iterator can have reached. *)
Lemma entries_skipn_set_absent m k v i :
  JsMap.get k m = None -> (i <= List.length m)%nat ->
  JsMap.entries (skipn i (JsMap.set k v m)) = JsMap.entries (skipn i m) ++ [(k, v)].
Proof.
  intros Hg Hi. rewrite (set_absent _ _ v Hg), skipn_app.
  replace (i - List.length m)%nat with 0%nat by lia.
  now rewrite entries_app.
Qed.

(** [delete] empties the slot of the key where it is: what an iterator
    has still to go through loses the key and nothing else. *)
Lemma entries_skipn_delete m k i :
  JsMap.wf m ->
  JsMap.entries (skipn i (snd (JsMap.delete k m))) =
  filter (fun kv => if eq_dec (fst kv) k then false else true)
         (JsMap.entries (skipn i m)).
Proof.
  unfold JsMap.wf, JsMap.keys. revert i.
  induction m as [|[[k0 v0]|] m IH]; intros i Hwf; simpl.
  - now destruct i.
  - simpl in Hwf. inversion Hwf as [|? ? Hnotin Hnd]; subst.
    destruct (eq_dec k0 k) as [->|Hne]; simpl.
    + assert (Hrest : forall j, filter (fun kv => if eq_dec (fst kv) k then false else true)
                           (JsMap.entries (skipn j m)) = JsMap.entries (skipn j m)).
      { intros j. apply forallb_filter_id. apply forallb_forall. intros [k1 v1] Hin.
        simpl. destruct (eq_dec k1 k) as [->|]; auto.
        exfalso. apply Hnotin. apply in_map_iff. exists (k, v1). split; auto.
        assert (Hincl : forall (l : JsMap.t K V) j x,
                   In x (JsMap.entries (skipn j l)) -> In x (JsMap.entries l)).
        { induction l as [|s l IHl]; intros j0 x Hx.
          - now destruct j0.
          - destruct j0 as [|j0]; [exact Hx|]. simpl in Hx.
            apply IHl in Hx. destruct s; simpl; auto. }
        exact (Hincl m j _ Hin). }
      destruct i as [|i]; simpl.
      * destruct (eq_dec k k); [|congruence]. symmetry. apply (Hrest 0%nat).
      * symmetry. apply Hrest.
    + destruct (JsMap.delete k m) as [b r] eqn:Hd. simpl in *.
      destruct i as [|i]; simpl.
      * destruct (eq_dec k0 k); [congruence|]. f_equal. exact (IH 0%nat Hnd).
      * exact (IH i Hnd).
  - destruct (JsMap.delete k m) as [b r] eqn:Hd. simpl in *.
    destruct i as [|i]; simpl.
    + exact (IH 0%nat Hwf).
    + exact (IH i Hwf).
Qed.

End Facts.
End JsMapFacts.

(** ** Facts about timers *)

Module TimersFacts.
Section Facts.
Context {K : Type} `{EqDec K}.
Implicit Types (s : Timers.t K) (tm : Timers.timer K).

Lemma In_clearTimeout s id tm :
  In tm (Timers.pending (Timers.clearTimeout id s)) <->
  In tm (Timers.pending s) /\ Timers.t_id tm <> id.
Proof.
  unfold Timers.clearTimeout; simpl. rewrite filter_In.
  destruct (Nat.eqb_spec (Timers.t_id tm) id); simpl; intuition congruence.
Qed.

(** Filtering pending timers keeps their handles distinct. *)
Lemma distinct_ids_filter (keep : Timers.timer K -> bool) (l : list (Timers.timer K)) :
  NoDup (map (@Timers.t_id K) l) ->
  NoDup (map (@Timers.t_id K) (filter keep l)).
Proof.
  intros Hnd. induction l as [|tm l IH]; cbn [filter map] in *; [exact Hnd|].
  apply NoDup_cons_iff in Hnd as [Hfresh Hrest].
  destruct (keep tm); cbn [map]; [|now apply IH].
  apply NoDup_cons; [|now apply IH].
  rewrite in_map_iff. intros (tm' & Hid & Hin).
  apply Hfresh. rewrite in_map_iff. exists tm'.
  split; [exact Hid|]. now apply filter_In in Hin.
Qed.

Lemma ids_ok_clearTimeout s id :
  Timers.ids_ok s -> Timers.ids_ok (Timers.clearTimeout id s).
Proof.
  intros [Hnd Hlt]. split.
  - unfold Timers.clearTimeout; simpl. now apply distinct_ids_filter.
  - intros tm Htm. apply In_clearTimeout in Htm as [Htm _]. now apply Hlt.
Qed.

Lemma ids_ok_setTimeout s k d now :
  Timers.ids_ok s -> Timers.ids_ok (snd (Timers.setTimeout k d now s)).
Proof.
  intros [Hnd Hlt]. split; simpl.
  - rewrite map_app. simpl. apply NoDup_app; auto.
    + constructor; [intros [] | constructor].
    + intros x Hx [<- | []]. apply in_map_iff in Hx as (tm & E & Htm).
      apply Hlt in Htm. lia.
  - intros tm Htm. apply in_app_iff in Htm as [Htm | [<- | []]]; simpl.
    + apply Hlt in Htm. lia.
    + lia.
Qed.

Lemma ids_ok_init : Timers.ids_ok (@Timers.init K).
Proof. split; simpl; [constructor | intros ? []]. Qed.

Lemma fire_spec now id s k s' :
  Timers.fire now id s = Some (k, s') ->
  s' = Timers.clearTimeout id s /\
  exists tm, In tm (Timers.pending s) /\ Timers.t_id tm = id /\
             Timers.t_key tm = k /\ (Timers.t_due tm <= now)%Z.
Proof.
  unfold Timers.fire, Timers.find.
  destruct (find _ _) as [tm|] eqn:F; [|discriminate].
  destruct (Z.leb_spec (Timers.t_due tm) now); [|discriminate].
  intros E. injection E as <- <-. split; auto.
  apply find_some in F as [Hin Hid]. apply Nat.eqb_eq in Hid. eauto.
Qed.


Lemma pending_for_In s k tm :
  In tm (Timers.pending_for k s) <->
  In tm (Timers.pending s) /\ Timers.t_key tm = k.
Proof.
  unfold Timers.pending_for. rewrite filter_In.
  destruct (eq_dec (Timers.t_key tm) k); intuition congruence.
Qed.

Lemma pending_for_nil s k :
  (forall tm, In tm (Timers.pending s) -> Timers.t_key tm <> k) ->
  Timers.pending_for k s = [].
Proof.
  intros Hno. destruct (Timers.pending_for k s) as [|tm l] eqn:E; auto.
  assert (Hin : In tm (Timers.pending_for k s)) by (rewrite E; simpl; auto).
  apply pending_for_In in Hin as [Hin Hk]. now apply Hno in Hin.
Qed.

Lemma pending_for_setTimeout s k d now :
  Timers.pending_for k (snd (Timers.setTimeout k d now s)) =
  Timers.pending_for k s ++
  [Timers.mkTimer (Timers.next_id s) k (now + Timers.delay_of d)].
Proof.
  unfold Timers.pending_for; simpl. rewrite filter_app. simpl.
  destruct (eq_dec k k); [reflexivity | congruence].
Qed.

Lemma pending_for_setTimeout_other s k k' d now :
  k <> k' ->
  Timers.pending_for k' (snd (Timers.setTimeout k d now s)) =
  Timers.pending_for k' s.
Proof.
  intros Hne. unfold Timers.pending_for; simpl. rewrite filter_app. simpl.
  destruct (eq_dec k k'); [congruence | apply List.app_nil_r].
Qed.

Lemma evolves_refl s : Timers.evolves s s.
Proof. split; auto. Qed.

Lemma evolves_trans s1 s2 s3 :
  Timers.evolves s1 s2 -> Timers.evolves s2 s3 -> Timers.evolves s1 s3.
Proof.
  intros [L1 P1] [L2 P2]. split; [lia|].
  intros tm Htm. destruct (P2 tm Htm) as [Hin | Hge].
  - auto.
  - right. lia.
Qed.

Lemma evolves_clearTimeout s id : Timers.evolves s (Timers.clearTimeout id s).
Proof.
  split; simpl; auto. intros tm Htm.
  left. now apply In_clearTimeout in Htm.
Qed.

Lemma evolves_setTimeout s k d now :
  Timers.evolves s (snd (Timers.setTimeout k d now s)).
Proof.
  split; simpl; [lia|]. intros tm Htm.
  apply in_app_iff in Htm as [Htm | [<- | []]]; [auto | right; simpl; lia].
Qed.

Lemma In_clearTimeouts (ids : list nat) s tm :
  In tm (Timers.pending
           (fold_left (fun acc h => Timers.clearTimeout h acc) ids s)) <->
  In tm (Timers.pending s) /\ ~ In (Timers.t_id tm) ids.
Proof.
  revert s. induction ids as [|h ids IH]; intros s; simpl.
  - tauto.
  - rewrite IH, In_clearTimeout. intuition congruence.
Qed.

Lemma clearTimeouts_next_id (ids : list nat) s :
  Timers.next_id (fold_left (fun acc h => Timers.clearTimeout h acc) ids s) =
  Timers.next_id s.
Proof. revert s. induction ids as [|h ids IH]; intros s; simpl; auto. now rewrite IH. Qed.

Lemma ids_ok_clearTimeouts (ids : list nat) s :
  Timers.ids_ok s ->
  Timers.ids_ok (fold_left (fun acc h => Timers.clearTimeout h acc) ids s).
Proof.
  revert s. induction ids as [|h ids IH]; intros s Hok; simpl; auto.
  apply IH. now apply ids_ok_clearTimeout.
Qed.


End Facts.
End TimersFacts.

(** ** ExpireCache *)

Module ExpireCacheFacts.
Import ExpireCache.
Section Facts.
Context {Key Payload : Type} `{EqDec Key} `{Truthy Payload}.
Abbreviation state := (ExpireCache.state Key Payload).

Lemma notifyExpires_spec (m : JsMap.t Key Payload) (st : state) :
  notifyExpires m st =
  mkState (cache st) (cacheTtl st) (defaultExpireMs st)
          (emitted st ++ expiresEvents (JsMap.entries m)).
Proof.
  unfold notifyExpires, expiresEvents.
  revert st. induction (JsMap.entries m) as [|e l IH]; intros st; simpl.
  - rewrite app_nil_r. now destruct st.
  - rewrite IH. unfold emit; simpl. now rewrite <- app_assoc.
Qed.

Lemma hit_absent now k es :
  ~ In k (map fst es) -> existsb (hit now k) es = false.
Proof.
  induction es as [|e es IH]; simpl; auto.
  intros Hnin. rewrite IH by tauto. unfold hit.
  destruct (eq_dec (fst e) k); [exfalso; apply Hnin; auto | reflexivity].
Qed.

Lemma hit_entries now k (ttl : JsMap.t Key (option JS.number)) :
  JsMap.wf ttl -> existsb (hit now k) (JsMap.entries ttl) = expired now ttl k.
Proof.
  unfold JsMap.wf, JsMap.keys, expired.
  induction ttl as [|[[k0 x]|] ttl IH]; simpl; auto.
  intros Hnd. inversion Hnd as [|? ? Hnotin Hnd']; subst.
  unfold hit at 1; simpl. destruct (eq_dec k0 k) as [->|Hne].
  - rewrite hit_absent by exact Hnotin. apply orb_false_r.
  - simpl. auto.
Qed.

Lemma swept_ext now (c c' : JsMap.t Key Payload) es :
  (forall k, In k (map fst es) -> JsMap.get k c = JsMap.get k c') ->
  swept now c es = swept now c' es.
Proof.
  induction es as [|e es IH]; simpl; auto.
  intros Hext. rewrite IH by auto. now rewrite (Hext (fst e)) by auto.
Qed.

Lemma cleanStep_fresh now (st : state) del key expire :
  isExpired now expire = false ->
  cleanStep now (st, del) (key, expire) = (st, del).
Proof.
  unfold cleanStep, isExpired. destruct expire as [ex|]; auto.
  now intros ->.
Qed.

Lemma cleanStep_expired now (st : state) del key expire :
  isExpired now expire = true ->
  cleanStep now (st, del) (key, expire) =
  (mkState (if truthyAt (cache st) key
            then snd (JsMap.delete key (cache st)) else cache st)
           (snd (JsMap.delete key (cacheTtl st)))
           (defaultExpireMs st) (emitted st),
   match JsMap.get key (cache st) with
   | Some v => if ToBoolean v then JsMap.set key v del else del
   | None => del
   end).
Proof.
  unfold cleanStep, isExpired, truthyAt. destruct expire as [ex|]; [|discriminate].
  intros ->. destruct (JsMap.get key (cache st)) as [v|]; auto.
  destruct (ToBoolean v); auto.
Qed.

(** The loop of [cleanExpired], entry by entry. *)
Lemma cleanLoop now es :
  forall (st : state) del,
    NoDup (map fst es) ->
    JsMap.wf (cache st) -> JsMap.wf (cacheTtl st) ->
    (forall k, In k (map fst es) -> JsMap.get k del = None) ->
    let r := fold_left (cleanStep now) es (st, del) in
    (forall k, JsMap.get k (cache (fst r)) =
               if (existsb (hit now k) es && truthyAt (cache st) k)%bool
               then None else JsMap.get k (cache st)) /\
    (forall k, JsMap.get k (cacheTtl (fst r)) =
               if existsb (hit now k) es then None
               else JsMap.get k (cacheTtl st)) /\
    JsMap.entries (snd r) = JsMap.entries del ++ swept now (cache st) es /\
    emitted (fst r) = emitted st /\
    defaultExpireMs (fst r) = defaultExpireMs st /\
    JsMap.wf (cache (fst r)) /\ JsMap.wf (cacheTtl (fst r)).
Proof.
  induction es as [|[key expire] es IH]; intros st del Hnd Hwc Hwt Hdel;
    cbv zeta; cbn [fold_left].
  - simpl. rewrite List.app_nil_r. repeat split; auto.
  - inversion Hnd as [|? ? Hnotin Hnd']; subst. simpl in Hnotin.
    destruct (isExpired now expire) eqn:Hexp.
    + rewrite cleanStep_expired by exact Hexp.
      set (c1 := if truthyAt (cache st) key
                 then snd (JsMap.delete key (cache st)) else cache st).
      set (del1 := match JsMap.get key (cache st) with
                   | Some v => if ToBoolean v then JsMap.set key v del else del
                   | None => del
                   end).
      assert (Hc1 : forall k, JsMap.get k c1 =
                              if eq_dec key k
                              then (if truthyAt (cache st) key then None
                                    else JsMap.get k (cache st))
                              else JsMap.get k (cache st)).
      { intros k. unfold c1. destruct (truthyAt (cache st) key).
        - now apply JsMapFacts.get_delete.
        - now destruct (eq_dec key k). }
      assert (Hwc1 : JsMap.wf c1).
      { unfold c1. destruct (truthyAt (cache st) key); auto.
        now apply JsMapFacts.wf_delete. }
      assert (Hdel1 : forall k, In k (map fst es) -> JsMap.get k del1 = None).
      { intros k Hk. unfold del1.
        assert (Hd : JsMap.get k del = None) by (apply Hdel; simpl; auto).
        destruct (JsMap.get key (cache st)) as [v|]; [|exact Hd].
        destruct (ToBoolean v); [|exact Hd].
        rewrite JsMapFacts.get_set_other;
          [exact Hd | intros ->; contradiction]. }
      specialize (IH (mkState c1 (snd (JsMap.delete key (cacheTtl st)))
                              (defaultExpireMs st) (emitted st)) del1
                     Hnd' Hwc1 (JsMapFacts.wf_delete key Hwt) Hdel1).
      simpl in IH. destruct IH as (Ic & It & Ie & Iem & Id & Iwc & Iwt).
      repeat split; auto.
      * intros k. rewrite Ic, Hc1. unfold hit at 2. simpl. rewrite Hexp.
        unfold truthyAt at 1. rewrite Hc1.
        destruct (eq_dec key k) as [->|Hne]; simpl.
        -- rewrite hit_absent by exact Hnotin. simpl.
           now destruct (truthyAt (cache st) k).
        -- reflexivity.
      * intros k. rewrite It, JsMapFacts.get_delete by exact Hwt.
        unfold hit at 2. simpl. rewrite Hexp.
        destruct (eq_dec key k) as [->|Hne]; simpl.
        -- now rewrite hit_absent by exact Hnotin.
        -- reflexivity.
      * rewrite Ie.
        rewrite (swept_ext now c1 (cache st)).
        2:{ intros k Hk. rewrite Hc1.
            destruct (eq_dec key k) as [->|]; [contradiction | reflexivity]. }
        unfold del1, swept at 2. simpl. rewrite Hexp. fold (swept now (cache st) es).
        destruct (JsMap.get key (cache st)) as [v|] eqn:Hg; [|reflexivity].
        destruct (ToBoolean v); [|reflexivity].
        rewrite JsMapFacts.set_absent by (apply Hdel; simpl; auto).
        rewrite JsMapFacts.entries_app. simpl. now rewrite <- List.app_assoc.
    + rewrite cleanStep_fresh by exact Hexp.
      specialize (IH st del Hnd' Hwc Hwt (fun k Hk => Hdel k (or_intror Hk))).
      simpl in IH. destruct IH as (Ic & It & Ie & Iem & Id & Iwc & Iwt).
      repeat split; auto.
      * intros k. rewrite Ic. unfold hit at 2. simpl. rewrite Hexp.
        now destruct (eq_dec key k).
      * intros k. rewrite It. unfold hit at 2. simpl. rewrite Hexp.
        now destruct (eq_dec key k).
      * rewrite Ie. unfold swept at 2. simpl. now rewrite Hexp.
Qed.

Lemma cleanExpired_spec now (st : state) :
  JsMap.wf (cache st) -> JsMap.wf (cacheTtl st) ->
  let st' := cleanExpired now st in
  (forall k, JsMap.get k (cache st') =
             if (expired now (cacheTtl st) k && truthyAt (cache st) k)%bool
             then None else JsMap.get k (cache st)) /\
  (forall k, JsMap.get k (cacheTtl st') =
             if expired now (cacheTtl st) k then None
             else JsMap.get k (cacheTtl st)) /\
  emitted st' =
    emitted st ++ expiresEvents (swept now (cache st) (JsMap.entries (cacheTtl st))) /\
  defaultExpireMs st' = defaultExpireMs st /\
  JsMap.wf (cache st') /\ JsMap.wf (cacheTtl st').
Proof.
  intros Hwc Hwt. cbv zeta. unfold cleanExpired.
  pose proof (@cleanLoop now (JsMap.entries (cacheTtl st)) st JsMap.empty
                         Hwt Hwc Hwt (fun k _ => eq_refl)) as L.
  cbv zeta in L.
  destruct (fold_left (cleanStep now) (JsMap.entries (cacheTtl st)) (st, JsMap.empty))
    as [st1 del]. simpl in L.
  destruct L as (Ic & It & Ie & Iem & Id & Iwc & Iwt).
  assert (E : (if Nat.ltb 0 (JsMap.size del) then notifyExpires del st1 else st1) =
              mkState (cache st1) (cacheTtl st1) (defaultExpireMs st1)
                      (emitted st1 ++ expiresEvents (JsMap.entries del))).
  { destruct (Nat.ltb 0 (JsMap.size del)) eqn:Hs.
    - apply notifyExpires_spec.
    - unfold JsMap.size in Hs. destruct (JsMap.entries del); [|discriminate].
      simpl. rewrite List.app_nil_r. now destruct st1. }
  rewrite E; simpl. rewrite Ie, Iem.
  repeat split; auto.
  - intros k. rewrite Ic. now rewrite hit_entries.
  - intros k. rewrite It. now rewrite hit_entries.
Qed.

Lemma of_list_entries (l : list (Key * Payload)) :
  forall acc : JsMap.t Key Payload,
    NoDup (map fst l) ->
    (forall k, In k (map fst l) -> JsMap.get k acc = None) ->
    JsMap.entries (fold_left (fun a kv => JsMap.set (fst kv) (snd kv) a) l acc) =
    JsMap.entries acc ++ l.
Proof.
  induction l as [|[k v] l IH]; intros acc Hnd Hfresh; simpl.
  - now rewrite List.app_nil_r.
  - inversion Hnd as [|? ? Hnotin Hnd']; subst.
    rewrite IH; auto.
    + rewrite JsMapFacts.set_absent by (apply Hfresh; simpl; auto).
      rewrite JsMapFacts.entries_app. simpl. now rewrite <- List.app_assoc.
    + intros k' Hk'. rewrite JsMapFacts.get_set_other.
      * apply Hfresh; simpl; auto.
      * intros ->. contradiction.
Qed.

Lemma entries_copy (m : JsMap.t Key Payload) :
  JsMap.wf m -> JsMap.entries (JsMap.copy m) = JsMap.entries m.
Proof.
  intros Hwf. unfold JsMap.copy, JsMap.of_list.
  now rewrite of_list_entries.
Qed.

Lemma wf_clear {A} (m : JsMap.t Key A) : JsMap.wf (JsMap.clear m).
Proof.
  unfold JsMap.wf, JsMap.keys. rewrite JsMapFacts.entries_clear. constructor.
Qed.

Lemma cleanExpired_wf now st : wfState st -> wfState (cleanExpired now st).
Proof.
  intros [Hc Ht]. destruct (cleanExpired_spec now st Hc Ht) as (_ & _ & _ & _ & ? & ?).
  now split.
Qed.

Lemma delete_wf key st : wfState st -> wfState (snd (delete key st)).
Proof.
  intros [Hc Ht]. unfold delete.
  assert (E : forall st1 : state,
             cache st1 = cache st -> cacheTtl st1 = cacheTtl st ->
             wfState (snd (let '(deleted, cache') := JsMap.delete key (cache st1) in
                           (deleted, mkState cache' (snd (JsMap.delete key (cacheTtl st1)))
                                             (defaultExpireMs st1) (emitted st1))))).
  { intros st1 E1 E2. rewrite E1, E2.
    pose proof (JsMapFacts.wf_delete key Hc) as Hc'.
    destruct (JsMap.delete key (cache st)) as [b c']. simpl in *.
    split; simpl; auto. now apply JsMapFacts.wf_delete. }
  destruct (JsMap.get key (cache st)) as [e|]; [|apply E; reflexivity].
  destruct (ToBoolean e); [|apply E; reflexivity].
  apply E; rewrite notifyExpires_spec; reflexivity.
Qed.

Lemma reachable_wf st : reachable st -> wfState st.
Proof.
  induction 1 as [d | d st _ IH | now key data exp st _ IH | now key st _ IH
                 | now key st _ IH | now key st _ IH | key st _ IH | st _ IH
                 | now st _ IH | now st _ IH | now st _ IH].
  - split; apply JsMapFacts.wf_empty.
  - exact IH.
  - destruct IH. split; simpl; now apply JsMapFacts.wf_set.
  - simpl. apply cleanExpired_wf. exact IH.
  - simpl. now apply cleanExpired_wf.
  - simpl. now apply cleanExpired_wf.
  - now apply delete_wf.
  - split; simpl; apply wf_clear.
  - simpl. now apply cleanExpired_wf.
  - simpl. now apply cleanExpired_wf.
  - simpl. now apply cleanExpired_wf.
Qed.

Lemma sweptState_cleanExpired now st :
  wfState st -> allTruthy (cache st) -> sweptState now st (cleanExpired now st).
Proof.
  intros [Hc Ht] Htr.
  destruct (cleanExpired_spec now st Hc Ht) as (Ic & It & Ie & _).
  repeat split; auto.
  intros k. rewrite Ic. unfold truthyAt.
  destruct (expired now (cacheTtl st) k); auto.
  destruct (JsMap.get k (cache st)) as [v|] eqn:E; auto.
  now rewrite (Htr k v E).
Qed.

End Facts.

(** C7, as stated, fails: at the very time of the expiry the entry is
    still served by [get], [has] and the iteration, and no [expires]
    event is emitted. *)
Lemma C7_expiry_equal_to_now_not_swept :
  fst (get 100 "k"%string oneEntry) = Some "v"%string /\
  fst (has 100 "k"%string oneEntry) = true /\
  fst (keys 100 oneEntry) = ["k"%string] /\
  emitted (snd (has 100 "k"%string oneEntry)) = emitted oneEntry.
Proof. repeat split; reflexivity. Qed.

(** C7, amended: every call to get, has, expires, entries, keys or
    values sweeps the storage: it removes every tracked key whose stored
    expiry is strictly below the current time and emits an [expires]
    event for each entry removed; get, has, entries, keys and values
    compute their result from the swept storage.  Stated for caches
    whose payloads are truthy. *)
Theorem C7_reads_sweep_first
        {Key Payload : Type} `{EqDec Key} `{Truthy Payload}
        (st : ExpireCache.state Key Payload) (now : Z) (key : Key) :
  reachable st -> allTruthy (cache st) ->
  let st' := cleanExpired now st in
  sweptState now st st' /\
  (fst (get now key st) =
     (if expired now (cacheTtl st) key then None else JsMap.get key (cache st)) /\
   sweptState now (emit (EvGet key) st) (snd (get now key st))) /\
  has now key st = (JsMap.has key (cache st'), st') /\
  snd (expires now key st) = st' /\
  entries now st = (JsMap.entries (cache st'), st') /\
  keys now st = (JsMap.keys (cache st'), st') /\
  values now st = (JsMap.values (cache st'), st').
Proof.
  intros Hr Htr. cbv zeta.
  pose proof (reachable_wf Hr) as Hwf.
  pose proof (cleanExpired_wf now Hwf) as [Hc' _].
  pose proof (sweptState_cleanExpired now Hwf Htr) as Hs.
  assert (Hs' : sweptState now (emit (EvGet key) st)
                           (cleanExpired now (emit (EvGet key) st))).
  { apply sweptState_cleanExpired; [exact Hwf | exact Htr]. }
  split; [exact Hs|].
  split.
  { split; [|exact Hs']. unfold get; simpl. destruct Hs' as (Ic & _). apply Ic. }
  unfold has, expires, entries, keys, values, JsMap.keys, JsMap.values; simpl.
  rewrite (entries_copy Hc'). repeat split.
Qed.

Lemma C7_reads_sweep_first_witness :
  sweptState 101 oneEntry (cleanExpired 101 oneEntry) /\
  fst (get 101 "k"%string oneEntry) = None.
Proof.
  assert (Hr : reachable oneEntry) by (apply reach_set, reach_create).
  assert (Htr : allTruthy (cache oneEntry)).
  { intros k v. simpl. destruct (eq_dec "k"%string k); [|discriminate].
    intros E. injection E as <-. reflexivity. }
  pose proof (C7_reads_sweep_first 101 "k"%string Hr Htr) as (Hs & (Hg & _) & _).
  split; [exact Hs | exact Hg].
Defined.

End ExpireCacheFacts.


(** ** ExpireTimeoutCache *)

Module ExpireTimeoutCacheFacts.
Import ExpireTimeoutCache.
Section Facts.
Context {Key Payload : Type} `{EqDec Key} `{Truthy Payload}.
Abbreviation state := (ExpireTimeoutCache.state Key Payload).

Lemma timed_notifyExpires_spec (m : JsMap.t Key Payload) (st : state) :
  notifyExpires m st =
  mkState (cache st) (cacheTimeout st) (defaultExpireMs st) (timers st)
          (emitted st ++ expiresEvents (JsMap.entries m)).
Proof.
  unfold notifyExpires, expiresEvents.
  revert st. induction (JsMap.entries m) as [|e l IH]; intros st; simpl.
  - rewrite List.app_nil_r. now destruct st.
  - rewrite IH. unfold emit; simpl. now rewrite <- List.app_assoc.
Qed.

(** A key without a recorded handle has no pending timer. *)
Lemma recorded_none (st : state) key :
  recorded st ->
  (forall entry, JsMap.get key (cacheTimeout st) = Some entry -> timeout entry = None) ->
  Timers.pending_for key (timers st) = [].
Proof.
  intros Hrec Hno. apply TimersFacts.pending_for_nil.
  intros tm Htm Hk. destruct (Hrec tm Htm) as (entry & Hg & Ht).
  rewrite Hk in Hg. apply Hno in Hg. congruence.
Qed.

Lemma clearTimeout_frame key (st : state) :
  cache (clearTimeout key st) = cache st /\
  defaultExpireMs (clearTimeout key st) = defaultExpireMs st /\
  emitted (clearTimeout key st) = emitted st /\
  (forall tm, In tm (Timers.pending (timers (clearTimeout key st))) ->
              In tm (Timers.pending (timers st))) /\
  (forall k, JsMap.has k (cacheTimeout (clearTimeout key st)) =
             JsMap.has k (cacheTimeout st)).
Proof.
  unfold clearTimeout.
  destruct (JsMap.get key (cacheTimeout st)) as [entry|] eqn:Hg; [|repeat split; auto].
  destruct (timeout entry) as [h|]; [|repeat split; auto].
  simpl. repeat split; auto.
  - intros tm Htm. now apply TimersFacts.In_clearTimeout in Htm.
  - intros k. unfold JsMap.has. rewrite JsMapFacts.get_set.
    destruct (eq_dec key k) as [<-|]; [now rewrite Hg | reflexivity].
Qed.

Lemma clearTimeout_spec key (st : state) :
  invariant st ->
  invariant (clearTimeout key st) /\
  Timers.pending_for key (timers (clearTimeout key st)) = [].
Proof.
  intros (Hwf & Hids & Hrec).
  unfold clearTimeout.
  destruct (JsMap.get key (cacheTimeout st)) as [entry|] eqn:Hg.
  2:{ split; [exact (conj Hwf (conj Hids Hrec))|].
      apply recorded_none; auto. intros e He. congruence. }
  destruct (timeout entry) as [h|] eqn:Ht.
  2:{ split; [exact (conj Hwf (conj Hids Hrec))|].
      apply recorded_none; auto. intros e He. congruence. }
  assert (Hrec' : recorded
            (mkState (cache st)
                     (JsMap.set key (mkTimeoutObject None (expires_at entry))
                                (cacheTimeout st))
                     (defaultExpireMs st) (Timers.clearTimeout h (timers st))
                     (emitted st))).
  { intros tm Htm. simpl in *.
    apply TimersFacts.In_clearTimeout in Htm as [Htm Hid].
    destruct (Hrec tm Htm) as (e & He & Hte).
    rewrite JsMapFacts.get_set.
    destruct (eq_dec key (Timers.t_key tm)) as [E|]; [|eauto].
    exfalso. rewrite <- E in He. congruence. }
  split.
  - split; [exact Hwf|]. split; [|exact Hrec'].
    simpl. now apply TimersFacts.ids_ok_clearTimeout.
  - apply recorded_none; auto. simpl. intros e.
    rewrite JsMapFacts.get_set_same. intros E. now injection E as <-.
Qed.

Lemma set_spec now key data exp (st : state) :
  invariant st ->
  invariant (set now key data exp st) /\
  Timers.pending_for key (timers (set now key data exp st)) =
    match getExpireDate now exp st with
    | Some d =>
        [Timers.mkTimer (Timers.next_id (timers st)) key
           (now + Timers.delay_of (JS.sub (JS.getTime d) (JS.Num now)))]
    | None => []
    end.
Proof.
  intros Hinv.
  destruct (clearTimeout_spec key Hinv) as ((Hwf1 & Hids1 & Hrec1) & Hnone).
  destruct (clearTimeout_frame key st) as (Ec & Ed & Ee & Hsub & Hhas).
  assert (Hnext : Timers.next_id (timers (clearTimeout key st)) =
                  Timers.next_id (timers st)).
  { unfold clearTimeout. destruct (JsMap.get key (cacheTimeout st)) as [e|]; auto.
    destruct (timeout e); auto. }
  assert (Hdate : getExpireDate now exp (clearTimeout key st) =
                  getExpireDate now exp st).
  { unfold getExpireDate. now rewrite Ed. }
  assert (Hother : forall tm, In tm (Timers.pending (timers (clearTimeout key st))) ->
                              Timers.t_key tm <> key).
  { intros tm Htm Hk.
    assert (Hin : In tm (Timers.pending_for key (timers (clearTimeout key st))))
      by (apply TimersFacts.pending_for_In; auto).
    rewrite Hnone in Hin. destruct Hin. }
  unfold set, handleTimeoutSetup. rewrite Hdate.
  destruct (getExpireDate now exp st) as [d|];
    cbn [option_map fst snd cache cacheTimeout timers emitted defaultExpireMs
         Timers.setTimeout Timers.pending Timers.next_id].
  - split.
    + split; [now apply JsMapFacts.wf_set|]. split.
      * apply (TimersFacts.ids_ok_setTimeout key _ now Hids1).
      * intros tm Htm.
        cbn [cache cacheTimeout timers Timers.pending] in Htm |- *.
        apply in_app_iff in Htm as [Htm | [<- | []]];
          cbn [Timers.t_key Timers.t_id].
        -- destruct (Hrec1 tm Htm) as (e & He & Hte).
           rewrite JsMapFacts.get_set_other; [eauto|].
           intros E. now apply (Hother tm Htm).
        -- rewrite JsMapFacts.get_set_same. eauto.
    + pose proof (TimersFacts.pending_for_setTimeout
                    (timers (clearTimeout key st)) key
                    (JS.sub (JS.getTime d) (JS.Num now)) now) as P.
      cbn [snd Timers.setTimeout] in P. rewrite P, Hnone, Hnext. reflexivity.
  - split; [|exact Hnone].
    split; [now apply JsMapFacts.wf_set|]. split; [exact Hids1|].
    intros tm Htm. cbn [cache cacheTimeout timers] in Htm |- *.
    destruct (Hrec1 tm Htm) as (e & He & Hte).
    rewrite JsMapFacts.get_set_other; [eauto|].
    intros E. now apply (Hother tm Htm).
Qed.

Lemma delete_spec key (st : state) :
  invariant st ->
  invariant (snd (delete key st)) /\
  Timers.pending_for key (timers (snd (delete key st))) = [] /\
  fst (delete key st) = JsMap.has key (cache st) /\
  JsMap.has key (cache (snd (delete key st))) = false /\
  (forall k, k <> key ->
             JsMap.get k (cache (snd (delete key st))) = JsMap.get k (cache st)) /\
  emitted (snd (delete key st)) =
    emitted st ++
    match JsMap.get key (cache st) with
    | Some v => if ToBoolean v then [EvDelete key; EvExpires key v] else []
    | None => []
    end.
Proof.
  intros Hinv.
  destruct (clearTimeout_spec key Hinv) as ((Hwf1 & Hids1 & Hrec1) & Hnone).
  destruct (clearTimeout_frame key st) as (Ec & Ed & Ee & Hsub & Hhas).
  unfold delete. rewrite Ec.
  set (st2 := match JsMap.get key (cache st) with
              | Some e =>
                  if ToBoolean e
                  then notifyExpires (JsMap.of_list [(key, e)])
                                     (emit (EvDelete key) (clearTimeout key st))
                  else clearTimeout key st
              | None => clearTimeout key st
              end).
  assert (E2 : cache st2 = cache st /\ cacheTimeout st2 = cacheTimeout (clearTimeout key st) /\
               timers st2 = timers (clearTimeout key st) /\
               emitted st2 = emitted st ++
                 match JsMap.get key (cache st) with
                 | Some v => if ToBoolean v then [EvDelete key; EvExpires key v] else []
                 | None => []
                 end).
  { unfold st2. destruct (JsMap.get key (cache st)) as [v|].
    - destruct (ToBoolean v).
      + rewrite timed_notifyExpires_spec. simpl. rewrite Ec, Ee.
        repeat split; auto. now rewrite <- List.app_assoc.
      + rewrite Ec, Ee, List.app_nil_r. auto.
    - rewrite Ec, Ee, List.app_nil_r. auto. }
  destruct E2 as (E2c & E2t & E2m & E2e). rewrite E2c.
  pose proof (JsMapFacts.delete_fst (cache st) key) as Hfst.
  pose proof (@JsMapFacts.get_delete _ _ _ (cache st) key) as Hget.
  pose proof (@JsMapFacts.wf_delete _ _ _ (cache st) key) as Hwfd.
  destruct (JsMap.delete key (cache st)) as [b c']. simpl in *.
  destruct Hinv as (Hwf & _ & _).
  rewrite E2t, E2m, E2e.
  split; [|split; [|split; [|split; [|split]]]].
  - split; [auto|]. split; [exact Hids1|]. exact Hrec1.
  - exact Hnone.
  - exact Hfst.
  - apply JsMapFacts.has_false. rewrite Hget by exact Hwf.
    destruct (eq_dec key key); congruence.
  - intros k Hk. rewrite Hget by exact Hwf.
    destruct (eq_dec key k); congruence.
  - reflexivity.
Qed.

Lemma clearAll_spec (l : list (Key * TimeoutObjectType)) :
  forall st : state,
    invariant st ->
    let st' := fold_left (fun s kv => clearTimeout (fst kv) s) l st in
    invariant st' /\
    (forall tm, In tm (Timers.pending (timers st')) ->
                In tm (Timers.pending (timers st)) /\
                ~ In (Timers.t_key tm) (map fst l)) /\
    cache st' = cache st /\ emitted st' = emitted st /\
    defaultExpireMs st' = defaultExpireMs st.
Proof.
  induction l as [|kv l IH]; intros st Hinv; cbv zeta; cbn [fold_left].
  - split; [exact Hinv|]. split; [|auto]. intros tm Htm. split; [exact Htm | intros []].
  - destruct (clearTimeout_spec (fst kv) Hinv) as (Hinv1 & Hnone).
    destruct (clearTimeout_frame (fst kv) st) as (Ec & Ed & Ee & Hsub & _).
    destruct (IH _ Hinv1) as (Hinv' & Hp & Ec' & Ee' & Ed').
    split; [exact Hinv'|]. split; [|split; [|split]]; try congruence.
    intros tm Htm. destruct (Hp tm Htm) as [Htm1 Hnot].
    split; [now apply Hsub|]. simpl. intros [E | Hin]; [|contradiction].
    assert (Hin : In tm (Timers.pending_for (fst kv)
                           (timers (clearTimeout (fst kv) st))))
      by (apply TimersFacts.pending_for_In; auto).
    rewrite Hnone in Hin. destruct Hin.
Qed.

Lemma clear_spec (st : state) :
  invariant st ->
  invariant (clear st) /\ Timers.pending (timers (clear st)) = [].
Proof.
  intros Hinv. pose proof Hinv as (_ & _ & Hrec).
  pose proof (clearAll_spec (JsMap.entries (cacheTimeout st)) Hinv) as L.
  cbv zeta in L. unfold clear.
  set (st1 := fold_left (fun s kv => clearTimeout (fst kv) s)
                        (JsMap.entries (cacheTimeout st)) st) in *.
  destruct L as ((Hwf' & Hids' & Hrec') & Hp & _).
  assert (Hnil : Timers.pending (timers st1) = []).
  { destruct (Timers.pending (timers st1)) as [|tm l] eqn:E; auto. exfalso.
    destruct (Hp tm) as [Hin Hnot]; [try rewrite E; simpl; auto|].
    apply Hnot. destruct (Hrec tm Hin) as (e & He & _).
    apply JsMapFacts.get_In in He.
    change (Timers.t_key tm) with (fst (Timers.t_key tm, e)). now apply in_map. }
  rewrite timed_notifyExpires_spec.
  cbn [cache cacheTimeout timers emitted defaultExpireMs emit].
  split; [|exact Hnil].
  split; [|split].
  - unfold JsMap.wf, JsMap.keys. cbn [cache]. rewrite JsMapFacts.entries_clear.
    constructor.
  - exact Hids'.
  - intros tm Htm. cbn [timers] in Htm. rewrite Hnil in Htm. destruct Htm.
Qed.

Lemma timed_fire_spec now id (st st' : state) :
  invariant st -> fire now id st = Some st' ->
  invariant st' /\
  (forall tm, In tm (Timers.pending (timers st')) ->
              In tm (Timers.pending (timers st)) /\ Timers.t_id tm <> id).
Proof.
  intros (Hwf & Hids & Hrec). unfold fire.
  destruct (Timers.fire now id (timers st)) as [[key tm']|] eqn:F; [|discriminate].
  intros E. injection E as <-.
  apply TimersFacts.fire_spec in F as (-> & _).
  set (mid := mkState (cache st) (cacheTimeout st) (defaultExpireMs st)
                      (Timers.clearTimeout id (timers st)) (emitted st)).
  assert (Hmid : invariant mid).
  { split; [exact Hwf|]. split.
    - now apply TimersFacts.ids_ok_clearTimeout.
    - intros tm Htm. apply TimersFacts.In_clearTimeout in Htm as [Htm _].
      exact (Hrec tm Htm). }
  unfold handleExpiredCallback.
  destruct (delete_spec key Hmid) as (Hinv' & _).
  split; [exact Hinv'|].
  intros tm Htm.
  assert (Hsub : In tm (Timers.pending (timers mid))).
  { revert Htm. unfold delete.
    destruct (clearTimeout_frame key mid) as (_ & _ & _ & Hsub & _).
    destruct (JsMap.get key (cache (clearTimeout key mid))) as [e|].
    - destruct (ToBoolean e).
      + rewrite timed_notifyExpires_spec. cbn [cache emit].
        destruct (JsMap.delete key _). cbn [snd timers]. apply Hsub.
      + destruct (JsMap.delete key _). cbn [snd timers]. apply Hsub.
    - destruct (JsMap.delete key _). cbn [snd timers]. apply Hsub. }
  now apply TimersFacts.In_clearTimeout in Hsub.
Qed.

Lemma reachable_invariant (st : state) : reachable st -> invariant st.
Proof.
  induction 1 as [d | d st _ IH | now key data exp st _ IH | key st _ IH
                 | key st _ IH | st _ IH | now id st st' _ IH Hf].
  - split; [apply JsMapFacts.wf_empty|]. split; [apply TimersFacts.ids_ok_init|].
    intros tm [].
  - exact IH.
  - now apply set_spec.
  - exact IH.
  - now apply delete_spec.
  - now apply clear_spec.
  - now apply (@timed_fire_spec now id st st' IH Hf).
Qed.


End Facts.
End ExpireTimeoutCacheFacts.

(** ** The two expiring caches: [delete] and the default expiry *)

Module CacheClaims.
Section Facts.
Context {Key Payload : Type} `{EqDec Key} `{Truthy Payload}.

Lemma lazy_delete_spec key (st : ExpireCache.state Key Payload) :
  ExpireCache.wfState st ->
  fst (ExpireCache.delete key st) = JsMap.has key (ExpireCache.cache st) /\
  JsMap.has key (ExpireCache.cache (snd (ExpireCache.delete key st))) = false /\
  ExpireCache.emitted (snd (ExpireCache.delete key st)) =
    ExpireCache.emitted st ++
    match JsMap.get key (ExpireCache.cache st) with
    | Some v =>
        if ToBoolean v
        then [ExpireCache.EvExpires key v; ExpireCache.EvDelete key] else []
    | None => []
    end.
Proof.
  intros [Hwf _]. unfold ExpireCache.delete.
  set (st1 := match JsMap.get key (ExpireCache.cache st) with
              | Some e =>
                  if ToBoolean e
                  then ExpireCache.emit (ExpireCache.EvDelete key)
                         (ExpireCache.notifyExpires (JsMap.of_list [(key, e)]) st)
                  else st
              | None => st
              end).
  assert (E : ExpireCache.cache st1 = ExpireCache.cache st /\
              ExpireCache.emitted st1 =
                ExpireCache.emitted st ++
                match JsMap.get key (ExpireCache.cache st) with
                | Some v =>
                    if ToBoolean v
                    then [ExpireCache.EvExpires key v; ExpireCache.EvDelete key]
                    else []
                | None => []
                end).
  { unfold st1. destruct (JsMap.get key (ExpireCache.cache st)) as [v|].
    - destruct (ToBoolean v).
      + rewrite ExpireCacheFacts.notifyExpires_spec. simpl.
        split; auto. now rewrite <- List.app_assoc.
      + now rewrite List.app_nil_r.
    - now rewrite List.app_nil_r. }
  destruct E as [Ec Ee]. rewrite Ec.
  pose proof (JsMapFacts.delete_fst (ExpireCache.cache st) key) as Hfst.
  pose proof (@JsMapFacts.get_delete_same _ _ _ (ExpireCache.cache st) key Hwf) as Hget.
  destruct (JsMap.delete key (ExpireCache.cache st)) as [b c']. simpl in *.
  split; [exact Hfst|]. split; [|exact Ee].
  now apply JsMapFacts.has_false.
Qed.







End Facts.

(** C9, as stated, fails: an explicit [delete] of a stored entry is
    notified as expired as well as deleted, in both caches. *)
Lemma C9_delete_also_emits_expires :
  ExpireCache.emitted (snd (ExpireCache.delete "k"%string lazyOne)) =
    ExpireCache.emitted lazyOne ++
    [ExpireCache.EvExpires "k"%string "v"%string; ExpireCache.EvDelete "k"%string] /\
  ExpireTimeoutCache.emitted (snd (ExpireTimeoutCache.delete "k"%string timedOne)) =
    [ExpireTimeoutCache.EvDelete "k"%string;
     ExpireTimeoutCache.EvExpires "k"%string "v"%string].
Proof. split; reflexivity. Qed.

(** C9, amended: in both caches [delete(key)] removes the entry
    unconditionally and returns true exactly when an entry was removed;
    when the removed entry has a truthy payload the call emits both an
    [expires] event with the key and the payload and a [delete] event
    with the key ([expires] first in the lazy cache, [delete] first in
    the timer cache), and when no entry existed it emits nothing. *)
Theorem C9_delete_removes_and_notifies
        {Key Payload : Type} `{EqDec Key} `{Truthy Payload} (key : Key)
        (lazy : ExpireCache.state Key Payload)
        (timed : ExpireTimeoutCache.state Key Payload) :
  ExpireCache.reachable lazy -> ExpireTimeoutCache.reachable timed ->
  (fst (ExpireCache.delete key lazy) = JsMap.has key (ExpireCache.cache lazy) /\
   JsMap.has key (ExpireCache.cache (snd (ExpireCache.delete key lazy))) = false /\
   (forall v, JsMap.get key (ExpireCache.cache lazy) = Some v ->
              ToBoolean v = true ->
              ExpireCache.emitted (snd (ExpireCache.delete key lazy)) =
              ExpireCache.emitted lazy ++
              [ExpireCache.EvExpires key v; ExpireCache.EvDelete key]) /\
   (JsMap.get key (ExpireCache.cache lazy) = None ->
    ExpireCache.emitted (snd (ExpireCache.delete key lazy)) =
    ExpireCache.emitted lazy)) /\
  (fst (ExpireTimeoutCache.delete key timed) =
     JsMap.has key (ExpireTimeoutCache.cache timed) /\
   JsMap.has key (ExpireTimeoutCache.cache
                    (snd (ExpireTimeoutCache.delete key timed))) = false /\
   (forall v, JsMap.get key (ExpireTimeoutCache.cache timed) = Some v ->
              ToBoolean v = true ->
              ExpireTimeoutCache.emitted (snd (ExpireTimeoutCache.delete key timed)) =
              ExpireTimeoutCache.emitted timed ++
              [ExpireTimeoutCache.EvDelete key; ExpireTimeoutCache.EvExpires key v]) /\
   (JsMap.get key (ExpireTimeoutCache.cache timed) = None ->
    ExpireTimeoutCache.emitted (snd (ExpireTimeoutCache.delete key timed)) =
    ExpireTimeoutCache.emitted timed)).
Proof.
  intros Hl Ht. split.
  - destruct (lazy_delete_spec key (ExpireCacheFacts.reachable_wf Hl))
      as (Hfst & Hgone & Hev).
    split; [exact Hfst|]. split; [exact Hgone|]. split.
    + intros v Hv Htr. rewrite Hev, Hv, Htr. reflexivity.
    + intros Hv. rewrite Hev, Hv. apply List.app_nil_r.
  - destruct (ExpireTimeoutCacheFacts.delete_spec
                key (ExpireTimeoutCacheFacts.reachable_invariant Ht))
      as (_ & _ & Hfst & Hgone & _ & Hev).
    split; [exact Hfst|]. split; [exact Hgone|]. split.
    + intros v Hv Htr. rewrite Hev, Hv, Htr. reflexivity.
    + intros Hv. rewrite Hev, Hv. apply List.app_nil_r.
Qed.

Lemma C9_delete_removes_and_notifies_witness :
  fst (ExpireCache.delete "k"%string lazyOne) = true /\
  fst (ExpireTimeoutCache.delete "k"%string timedOne) = true.
Proof.
  assert (Hl : ExpireCache.reachable lazyOne)
    by (apply ExpireCache.reach_set, ExpireCache.reach_create).
  assert (Ht : ExpireTimeoutCache.reachable timedOne)
    by (apply ExpireTimeoutCache.reach_set, ExpireTimeoutCache.reach_create).
  pose proof (C9_delete_removes_and_notifies "k"%string Hl Ht)
    as ((Hfl & _) & (Hft & _)).
  split; [exact Hfl | exact Hft].
Defined.



End CacheClaims.

(** ** TieredCache *)

Module TieredCacheFacts.
Import TieredCache.
Section Facts.
Context {S : Strategy}.
Implicit Types (st : state) (key : Key).

Lemma keepsTimers_refl st : keepsTimers st st.
Proof. split; auto. apply TimersFacts.evolves_refl. Qed.

Lemma keepsTimers_trans st1 st2 st3 :
  keepsTimers st1 st2 -> keepsTimers st2 st3 -> keepsTimers st1 st3.
Proof.
  intros [I1 E1] [I2 E2]. split; auto.
  eapply TimersFacts.evolves_trans; eauto.
Qed.

(** Changing anything but the timers and their record. *)
Lemma keepsTimers_same st st' :
  timers st' = timers st -> cacheTimeout st' = cacheTimeout st ->
  keepsTimers st st'.
Proof.
  intros Et Ec. split.
  - intros [Hids Hrec]. split.
    + now rewrite Et.
    + intros tm Htm. rewrite Et in Htm. rewrite Ec. now apply Hrec.
  - rewrite Et. apply TimersFacts.evolves_refl.
Qed.

Lemma recorded_no_pending st key :
  recorded st ->
  (forall h, JsMap.get key (cacheTimeout st) = Some h ->
             forall tm, In tm (Timers.pending (timers st)) -> Timers.t_id tm <> h) ->
  Timers.pending_for key (timers st) = [].
Proof.
  intros Hrec Hno. apply TimersFacts.pending_for_nil.
  intros tm Htm Hk. pose proof (Hrec tm Htm) as Hg. rewrite Hk in Hg.
  exact (Hno _ Hg tm Htm eq_refl).
Qed.

Lemma cancelled_spec key st :
  timersOnly st (cancelled key st) /\
  cacheTimeout (cancelled key st) = cacheTimeout st /\
  Timers.next_id (timers (cancelled key st)) = Timers.next_id (timers st) /\
  Timers.evolves (timers st) (timers (cancelled key st)) /\
  (timersInv st ->
   timersInv (cancelled key st) /\
   Timers.pending_for key (timers (cancelled key st)) = []).
Proof.
  unfold cancelled.
  destruct (JsMap.get key (cacheTimeout st)) as [old|] eqn:Hg.
  - split; [repeat split|]. split; [reflexivity|]. split; [reflexivity|].
    split; [apply TimersFacts.evolves_clearTimeout|].
    intros [Hids Hrec].
    assert (Hrec' : recorded (with_timers (Timers.clearTimeout old (timers st)) st)).
    { intros tm Htm. simpl in *.
      apply TimersFacts.In_clearTimeout in Htm as [Htm _]. now apply Hrec. }
    split.
    + split; [now apply TimersFacts.ids_ok_clearTimeout | exact Hrec'].
    + apply recorded_no_pending; [exact Hrec'|]. simpl.
      intros h Hh tm Htm. apply TimersFacts.In_clearTimeout in Htm as [_ Hne].
      congruence.
  - split; [repeat split|]. split; [reflexivity|]. split; [reflexivity|].
    split; [apply TimersFacts.evolves_refl|].
    intros [Hids Hrec]. split; [now split|].
    apply recorded_no_pending; [exact Hrec|]. intros h Hh. congruence.
Qed.

Lemma setTimeout_spec now key timeout st :
  timersOnly st (setTimeout now key timeout st) /\
  keepsTimers st (setTimeout now key timeout st) /\
  (timersInv st ->
   Timers.pending_for key (timers (setTimeout now key timeout st)) =
   match timeout with
   | Some ms =>
       [Timers.mkTimer (Timers.next_id (timers st)) key (now + Timers.delay_of ms)]
   | None => []
   end).
Proof.
  unfold setTimeout. fold (cancelled key st).
  destruct (cancelled_spec key st) as ((Ec & Es & Ee & El) & Ect & Enext & Eev & Hinv).
  destruct timeout as [ms|].
  - cbn [Timers.setTimeout].
    split; [now repeat split|]. split; [split|].
    + intros Hi. destruct (Hinv Hi) as ([Hids Hrec] & Hnone). split.
      * apply (TimersFacts.ids_ok_setTimeout key ms now Hids).
      * intros tm Htm. cbn in Htm |- *.
        apply in_app_iff in Htm as [Htm | [<- | []]]; cbn.
        -- rewrite JsMapFacts.get_set_other; [now apply Hrec|].
           intros E.
           assert (Hin : In tm (Timers.pending_for key (timers (cancelled key st))))
             by (apply TimersFacts.pending_for_In; auto).
           rewrite Hnone in Hin. destruct Hin.
        -- apply JsMapFacts.get_set_same.
    + eapply TimersFacts.evolves_trans; [exact Eev|].
      apply (TimersFacts.evolves_setTimeout (timers (cancelled key st)) key ms now).
    + intros Hi. destruct (Hinv Hi) as (_ & Hnone).
      pose proof (TimersFacts.pending_for_setTimeout
                    (timers (cancelled key st)) key ms now) as P.
      cbn in P |- *. rewrite P, Hnone, Enext. reflexivity.
  - split; [now repeat split|]. split; [split|].
    + intros Hi. now destruct (Hinv Hi).
    + exact Eev.
    + intros Hi. now destruct (Hinv Hi).
Qed.

Lemma clearTimeoutKey_spec key st :
  timersOnly st (clearTimeoutKey key st) /\
  keepsTimers st (clearTimeoutKey key st) /\
  (timersInv st -> Timers.pending_for key (timers (clearTimeoutKey key st)) = []).
Proof.
  unfold clearTimeoutKey. fold (cancelled key st).
  destruct (cancelled_spec key st) as ((Ec & Es & Ee & El) & Ect & Enext & Eev & Hinv).
  split; [now repeat split|]. split; [split|].
  - intros Hi. destruct (Hinv Hi) as ([Hids Hrec] & Hnone). split; [exact Hids|].
    intros tm Htm. cbn in Htm |- *.
    rewrite JsMapFacts.get_delete_other; [now apply Hrec|].
    intros E.
    assert (Hin : In tm (Timers.pending_for key (timers (cancelled key st))))
      by (apply TimersFacts.pending_for_In; auto).
    rewrite Hnone in Hin. destruct Hin.
  - exact Eev.
  - intros Hi. now destruct (Hinv Hi).
Qed.

Lemma clearAllTimeouts_spec st :
  timersOnly st (clearAllTimeouts st) /\
  keepsTimers st (clearAllTimeouts st) /\
  (timersInv st -> Timers.pending (timers (clearAllTimeouts st)) = []).
Proof.
  unfold clearAllTimeouts.
  assert (Hnil : timersInv st ->
                 Timers.pending
                   (fold_left (fun acc h => Timers.clearTimeout h acc)
                              (JsMap.values (cacheTimeout st)) (timers st)) = []).
  { intros [_ Hrec].
    destruct (Timers.pending _) as [|tm l] eqn:E; auto. exfalso.
    assert (Hin : In tm (Timers.pending
                           (fold_left (fun acc h => Timers.clearTimeout h acc)
                                      (JsMap.values (cacheTimeout st)) (timers st))))
      by (rewrite E; simpl; auto).
    apply TimersFacts.In_clearTimeouts in Hin as [Hin Hnot].
    apply Hnot. apply Hrec, JsMapFacts.get_In in Hin.
    change (Timers.t_id tm) with (snd (Timers.t_key tm, Timers.t_id tm)).
    now apply in_map. }
  split; [now repeat split|]. split; [split|]; cbn.
  - intros Hi. pose proof (Hnil Hi) as Hn. destruct Hi as [Hids _]. split.
    + now apply TimersFacts.ids_ok_clearTimeouts.
    + intros tm Htm. cbn in Htm. rewrite Hn in Htm. destruct Htm.
  - split.
    + now rewrite TimersFacts.clearTimeouts_next_id.
    + intros tm Htm. left. now apply TimersFacts.In_clearTimeouts in Htm.
  - exact Hnil.
Qed.

Lemma emitUpdate_spec st :
  cache (emitUpdate st) = cache st /\
  cacheTimeout (emitUpdate st) = cacheTimeout st /\
  timers (emitUpdate st) = timers st /\
  logged (emitUpdate st) = logged st /\
  statusFresh (emitUpdate st) /\
  emitted (emitUpdate st) = emitted st ++ [EvUpdate (statusData (emitUpdate st))].
Proof. unfold emitUpdate, statusFresh; cbn. repeat split. Qed.

Lemma keepsTimers_emitUpdate st : keepsTimers st (emitUpdate st).
Proof.
  destruct (emitUpdate_spec st) as (_ & Ec & Et & _). now apply keepsTimers_same.
Qed.

Lemma keepsTimers_emit e st : keepsTimers st (emit e st).
Proof. now apply keepsTimers_same. Qed.

Lemma keepsTimers_with_cache c st : keepsTimers st (with_cache c st).
Proof. now apply keepsTimers_same. Qed.

Lemma keepsTimers_log e st : keepsTimers st (log_error e st).
Proof. now apply keepsTimers_same. Qed.

Lemma handleSetValue_keeps now key tier data timeout st :
  keepsTimers st (snd (handleSetValue now key tier data timeout st)) /\
  statusData (snd (handleSetValue now key tier data timeout st)) = statusData st /\
  emitted (snd (handleSetValue now key tier data timeout st)) = emitted st /\
  logged (snd (handleSetValue now key tier data timeout st)) = logged st.
Proof.
  unfold handleSetValue.
  set (st1 := with_cache (JsMap.set key (mkEntry tier data) (cache st)) st).
  assert (K1 : keepsTimers st st1) by apply keepsTimers_with_cache.
  assert (F : forall t, keepsTimers st (setTimeout now key t st1) /\
                        statusData (setTimeout now key t st1) = statusData st /\
                        emitted (setTimeout now key t st1) = emitted st /\
                        logged (setTimeout now key t st1) = logged st).
  { intros t. destruct (setTimeout_spec now key t st1) as ((_ & Es & Ee & El) & K & _).
    split; [exact (keepsTimers_trans K1 K)|].
    split; [exact Es|]. split; [exact Ee | exact El]. }
  destruct timeout as [t|]; cbn [snd]; [apply F|].
  destruct (handleTimeoutValue key tier data) as [t|e]; cbn [snd]; [apply F|].
  split; [exact K1|]. repeat split.
Qed.

Lemma handleDeleteValue_keeps key st :
  keepsTimers st (snd (handleDeleteValue key st)) /\
  statusData (snd (handleDeleteValue key st)) = statusData st /\
  emitted (snd (handleDeleteValue key st)) = emitted st /\
  logged (snd (handleDeleteValue key st)) = logged st /\
  fst (handleDeleteValue key st) = JsMap.has key (cache st) /\
  (JsMap.has key (cache st) = false ->
   cache (snd (handleDeleteValue key st)) = cache st) /\
  (timersInv st ->
   Timers.pending_for key (timers (snd (handleDeleteValue key st))) = []).
Proof.
  unfold handleDeleteValue.
  destruct (clearTimeoutKey_spec key st) as ((Ec & Es & Ee & El) & K & Hp).
  rewrite Ec.
  pose proof (JsMapFacts.delete_fst (cache st) key) as Hfst.
  pose proof (@JsMapFacts.delete_absent _ _ _ (cache st) key) as Habs.
  destruct (JsMap.delete key (cache st)) as [b c]. cbn [fst snd] in *.
  split; [eapply keepsTimers_trans; [exact K | apply keepsTimers_with_cache]|].
  repeat split; auto.
  intros Hh. cbn. apply JsMapFacts.has_false in Hh. apply Habs in Hh. congruence.
Qed.

Lemma runActions_keeps now acts :
  forall st,
    keepsTimers st (snd (runActions now acts st)) /\
    statusData (snd (runActions now acts st)) = statusData st /\
    emitted (snd (runActions now acts st)) = emitted st /\
    logged (snd (runActions now acts st)) = logged st.
Proof.
  induction acts as [|a acts IH]; intros st; cbn [runActions snd].
  - split; [apply keepsTimers_refl | auto].
  - destruct a as [key tier data timeout | key | key].
    + destruct (handleSetValue_keeps now key tier data timeout st) as (K & Es & Ee & El).
      destruct (handleSetValue now key tier data timeout st) as [[u|e] st1];
        cbn [snd] in *.
      * destruct (IH st1) as (K' & Es' & Ee' & El').
        split; [exact (keepsTimers_trans K K')|]. repeat split; congruence.
      * auto.
    + destruct (handleDeleteValue_keeps key st) as (K & Es & Ee & El & _).
      destruct (IH (snd (handleDeleteValue key st))) as (K' & Es' & Ee' & El').
      split; [exact (keepsTimers_trans K K')|]. repeat split; congruence.
    + destruct (IH (with_cache (snd (JsMap.delete key (cache st))) st))
        as (K' & Es' & Ee' & El').
      split; [eapply keepsTimers_trans; [apply keepsTimers_with_cache | exact K']|].
      auto.
Qed.

Lemma callTierTimeout_keeps now key st :
  keepsTimers st (snd (callTierTimeout now key st)) /\
  statusData (snd (callTierTimeout now key st)) = statusData st /\
  emitted (snd (callTierTimeout now key st)) = emitted st /\
  logged (snd (callTierTimeout now key st)) = logged st.
Proof.
  unfold callTierTimeout.
  destruct (handleTierTimeout key (cache st)) as [acts outcome].
  pose proof (runActions_keeps now acts st) as R.
  destruct (runActions now acts st) as [[u|e] st1]; exact R.
Qed.

Lemma runTimeout_keeps now key st : keepsTimers st (runTimeout now key st).
Proof.
  unfold runTimeout.
  destruct (callTierTimeout_keeps now key st) as (K & _).
  destruct (callTierTimeout now key st) as [[timeoutValue|e] st1]; cbn [snd] in K.
  - eapply keepsTimers_trans; [exact K|].
    eapply keepsTimers_trans; [|apply keepsTimers_emitUpdate].
    destruct timeoutValue as [t|].
    + now destruct (setTimeout_spec now key (Some t) st1) as (_ & K' & _).
    + now destruct (clearTimeoutKey_spec key st1) as (_ & K' & _).
  - eapply keepsTimers_trans; [exact K | apply keepsTimers_log].
Qed.

Lemma get_keeps now key tier timeout st :
  keepsTimers st (snd (get now key tier timeout st)) /\
  cache (snd (get now key tier timeout st)) = cache st /\
  statusData (snd (get now key tier timeout st)) = statusData st /\
  emitted (snd (get now key tier timeout st)) = emitted st.
Proof.
  unfold get.
  destruct (handleCacheEntry key tier (JsMap.get key (cache st))) as [value|e];
    cbn [snd]; [|split; [apply keepsTimers_refl | auto]].
  destruct (match value with Some v => ToBoolean v | None => false end);
    [|split; [apply keepsTimers_refl | auto]].
  destruct (setTimeout_spec now key (orElse timeout (handleTierDefaultTimeout tier)) st)
    as ((Ec & Es & Ee & El) & K & _).
  auto.
Qed.

Lemma set_keeps now key tier data timeout st :
  keepsTimers st (snd (set now key tier data timeout st)).
Proof.
  unfold set.
  destruct (handleSetValue_keeps now key tier data timeout st) as (K & _).
  destruct (handleSetValue now key tier data timeout st) as [[u|e] st1];
    cbn [snd] in *; [|exact K].
  eapply keepsTimers_trans; [exact K|].
  eapply keepsTimers_trans; [apply keepsTimers_emit | apply keepsTimers_emitUpdate].
Qed.

Lemma setEntriesLoop_keeps now tier entries timeout :
  forall st, keepsTimers st (snd (setEntriesLoop now tier entries timeout st)).
Proof.
  induction entries as [|[key data] entries IH]; intros st; cbn [setEntriesLoop snd].
  - apply keepsTimers_refl.
  - destruct (handleSetValue_keeps now key tier data timeout st) as (K & _).
    destruct (handleSetValue now key tier data timeout st) as [[u|e] st1];
      cbn [snd] in *; [|exact K].
    eapply keepsTimers_trans; [exact K | apply IH].
Qed.

Lemma setEntries_keeps now tier entries timeout st :
  keepsTimers st (snd (setEntries now tier entries timeout st)).
Proof.
  unfold setEntries.
  pose proof (setEntriesLoop_keeps now tier entries timeout st) as K.
  destruct (setEntriesLoop now tier entries timeout st) as [[u|e] st1];
    cbn [snd] in *; [|exact K].
  eapply keepsTimers_trans; [exact K|].
  eapply keepsTimers_trans; [apply keepsTimers_emit | apply keepsTimers_emitUpdate].
Qed.

Lemma clear_keeps st :
  keepsTimers st (clear st) /\
  (timersInv st -> Timers.pending (timers (clear st)) = []).
Proof.
  unfold clear.
  destruct (clearAllTimeouts_spec st) as (_ & K & Hn).
  destruct (emitUpdate_spec
              (emit EvClear
                 (emit (EvDelete (JsMap.keys (cache st)))
                    (with_cache (JsMap.clear (cache (clearAllTimeouts st)))
                                (clearAllTimeouts st))))) as (_ & _ & Et & _).
  split.
  - eapply keepsTimers_trans; [exact K|].
    eapply keepsTimers_trans; [apply keepsTimers_with_cache|].
    eapply keepsTimers_trans; [apply keepsTimers_emit|].
    eapply keepsTimers_trans; [apply keepsTimers_emit | apply keepsTimers_emitUpdate].
  - intros Hi. rewrite Et. cbn. now apply Hn.
Qed.

Lemma delete_keeps key st : keepsTimers st (snd (delete key st)).
Proof.
  unfold delete.
  destruct (handleDeleteValue_keeps key st) as (K & _).
  destruct (handleDeleteValue key st) as [[|] st1]; cbn [snd] in *; [|exact K].
  eapply keepsTimers_trans; [exact K|].
  eapply keepsTimers_trans; [apply keepsTimers_emit | apply keepsTimers_emitUpdate].
Qed.

Lemma deleteKeysLoop_keeps keys :
  forall acc st, keepsTimers st (snd (deleteKeysLoop keys acc st)).
Proof.
  induction keys as [|key keys IH]; intros acc st; cbn [deleteKeysLoop snd].
  - apply keepsTimers_refl.
  - destruct (clearTimeoutKey_spec key st) as (_ & K & _).
    destruct (JsMap.delete key (cache (clearTimeoutKey key st))) as [b c].
    eapply keepsTimers_trans; [exact K|].
    eapply keepsTimers_trans; [apply keepsTimers_with_cache | apply IH].
Qed.

Lemma deleteKeys_keeps keys st : keepsTimers st (snd (deleteKeys keys st)).
Proof.
  unfold deleteKeys.
  pose proof (deleteKeysLoop_keeps keys [] st) as K.
  destruct (deleteKeysLoop keys [] st) as [dk st1]; cbn [snd] in *.
  eapply keepsTimers_trans; [exact K|].
  eapply keepsTimers_trans; [apply keepsTimers_emit | apply keepsTimers_emitUpdate].
Qed.

Lemma fire_keeps now id st st' :
  fire now id st = Some st' ->
  keepsTimers st st' /\
  (timersInv st ->
   forall tm, In tm (Timers.pending (timers st')) -> Timers.t_id tm <> id).
Proof.
  unfold fire.
  destruct (Timers.fire now id (timers st)) as [[key tm']|] eqn:F; [|discriminate].
  intros E. injection E as <-.
  apply TimersFacts.fire_spec in F as (-> & (tm0 & Hin0 & Hid0 & _)).
  set (mid := with_timers (Timers.clearTimeout id (timers st)) st).
  assert (Kmid : keepsTimers st mid).
  { split.
    - intros [Hids Hrec]. split.
      + now apply TimersFacts.ids_ok_clearTimeout.
      + intros tm Htm. cbn in Htm |- *.
        apply TimersFacts.In_clearTimeout in Htm as [Htm _]. now apply Hrec.
    - apply TimersFacts.evolves_clearTimeout. }
  pose proof (runTimeout_keeps now key mid) as [Kinv Kev].
  split; [eapply keepsTimers_trans; [exact Kmid | now split]|].
  intros [[_ Hlt] _] tm Htm.
  destruct Kev as [_ Kp]. destruct (Kp tm Htm) as [Hin | Hge].
  - now apply TimersFacts.In_clearTimeout in Hin.
  - cbn in Hge. apply Hlt in Hin0. lia.
Qed.

Lemma step_keeps o st : keepsTimers st (snd (step o st)).
Proof.
  destruct o as [now key tier timeout | now key tier data timeout
                | now tier entries timeout | | key | keys | | now id]; cbn [step].
  - pose proof (get_keeps now key tier timeout st) as (K & _).
    destruct (get now key tier timeout st) as [[v|e] st1]; exact K.
  - apply set_keeps.
  - apply setEntries_keeps.
  - apply clear_keeps.
  - apply delete_keeps.
  - apply deleteKeys_keeps.
  - apply keepsTimers_refl.
  - destruct (fire now id st) as [st1|] eqn:F; cbn [snd].
    + now apply (fire_keeps _ _ _ F).
    + apply keepsTimers_refl.
Qed.

Lemma run_keeps ops : forall st, keepsTimers st (run ops st).
Proof.
  induction ops as [|o ops IH]; intros st; cbn [run].
  - apply keepsTimers_refl.
  - eapply keepsTimers_trans; [apply step_keeps | apply IH].
Qed.

Lemma timersInv_create : timersInv create.
Proof. split; [apply TimersFacts.ids_ok_init | intros tm []]. Qed.

Lemma timersInv_run ops : timersInv (run ops create).
Proof. destruct (run_keeps ops create) as [K _]. apply K, timersInv_create. Qed.


(** *** The status *)

Lemma statusFresh_same st st' :
  cache st' = cache st -> statusData st' = statusData st ->
  statusFresh st -> statusFresh st'.
Proof. unfold statusFresh. intros -> ->. auto. Qed.

Lemma fire_Some now id st st' :
  fire now id st = Some st' ->
  exists key tm, Timers.fire now id (timers st) = Some (key, tm) /\
                 st' = runTimeout now key (with_timers tm st).
Proof.
  unfold fire. destruct (Timers.fire now id (timers st)) as [[key tm]|]; [|discriminate].
  intros E. injection E as <-. eauto.
Qed.

(** A call that changes the storage, and in which no hook throws, ends
    by recomputing the status and emitting it. *)
Lemma step_update o st :
  mutates o st = true -> hookThrew o st = false ->
  statusFresh (snd (step o st)) /\
  exists evs, emitted (snd (step o st)) =
              evs ++ [EvUpdate (statusData (snd (step o st)))].
Proof.
  assert (U : forall s, statusFresh (emitUpdate s) /\
                        exists evs, emitted (emitUpdate s) =
                                    evs ++ [EvUpdate (statusData (emitUpdate s))]).
  { intros s. destruct (emitUpdate_spec s) as (_ & _ & _ & _ & Hf & He). eauto. }
  destruct o as [now key tier timeout | now key tier data timeout
                | now tier entries timeout | | key | keys | | now id];
    cbn [mutates hookThrew step]; try discriminate.
  - intros _. unfold set.
    destruct (handleSetValue now key tier data timeout st) as [[u|e] st1];
      [intros _; apply U | discriminate].
  - intros _. unfold setEntries.
    destruct (setEntriesLoop now tier entries timeout st) as [[u|e] st1];
      [intros _; apply U | discriminate].
  - intros _ _. apply U.
  - intros Hh _. unfold delete.
    destruct (handleDeleteValue_keeps key st) as (_ & _ & _ & _ & Hfst & _).
    destruct (handleDeleteValue key st) as [b st1]. cbn [fst] in Hfst.
    rewrite Hfst, Hh. apply U.
  - intros _ _. unfold deleteKeys.
    destruct (deleteKeysLoop keys [] st) as [dk st1]. apply U.
  - unfold fire.
    destruct (Timers.fire now id (timers st)) as [[key tm]|]; [|discriminate].
    intros _. unfold runTimeout.
    destruct (callTierTimeout now key (with_timers tm st)) as [[tv|e] st1];
      [intros _; apply U | discriminate].
Qed.

(** Without a throwing hook, a call keeps the status in step with the
    storage. *)
Lemma step_status o st :
  hookThrew o st = false -> statusFresh st -> statusFresh (snd (step o st)).
Proof.
  intros Hq Hf. destruct (mutates o st) eqn:Hm.
  - now apply step_update.
  - destruct o as [now key tier timeout | now key tier data timeout
                  | now tier entries timeout | | key | keys | | now id];
      cbn [mutates] in Hm; try discriminate; cbn [step].
    + destruct (get_keeps now key tier timeout st) as (_ & Ec & Es & _).
      destruct (get now key tier timeout st) as [[v|e] st1]; cbn [snd] in *;
        now apply (@statusFresh_same st st1 Ec Es).
    + unfold delete.
      destruct (handleDeleteValue_keeps key st) as (_ & Es & _ & _ & Hfst & Hc & _).
      destruct (handleDeleteValue key st) as [b st1]. cbn [fst snd] in *.
      rewrite Hfst, Hm. cbn [snd]. apply (@statusFresh_same st st1 (Hc Hm) Es Hf).
    + exact Hf.
    + unfold fire. destruct (Timers.fire now id (timers st)); [discriminate | exact Hf].
Qed.

Lemma statusFresh_create : statusFresh create.
Proof. reflexivity. Qed.

Lemma run_status ops :
  forall st, quiet ops st = true -> statusFresh st -> statusFresh (run ops st).
Proof.
  induction ops as [|o ops IH]; intros st Hq Hf; cbn [run quiet] in *; auto.
  apply andb_true_iff in Hq as [Hq1 Hq2]. apply negb_true_iff in Hq1.
  apply IH; auto. now apply step_status.
Qed.

(** *** The counters of [buildStatus] *)

Lemma sumTiers_cons tn acc :
  sumTiers (tn :: acc) = JS.add (snd tn) (sumTiers acc).
Proof. reflexivity. Qed.

Lemma sumTiers_Num acc : allNum acc -> exists z, sumTiers acc = JS.Num z.
Proof.
  induction acc as [|[t n] acc IH]; intros Hall.
  - cbn. eauto.
  - destruct (Hall (t, n)) as [z Hz]; [simpl; auto|]. cbn in Hz. subst n.
    destruct IH as [z' Hz']; [intros tn Htn; apply Hall; simpl; auto|].
    rewrite sumTiers_cons, Hz'. cbn. eauto.
Qed.

Lemma lookupTier_Num acc t n :
  allNum acc -> lookupTier t acc = Some n -> exists z, n = JS.Num z.
Proof.
  induction acc as [|[t0 n0] acc IH]; intros Hall; cbn; [discriminate|].
  destruct (eq_dec t0 t).
  - intros E. injection E as <-. apply (Hall (t0, n0)). simpl; auto.
  - apply IH. intros tn Htn. apply Hall. simpl; auto.
Qed.

Lemma increment_spec type acc :
  allNum acc -> In type (map fst acc) ->
  allNum (increment type acc) /\
  map fst (increment type acc) = map fst acc /\
  sumTiers (increment type acc) = JS.add (sumTiers acc) (JS.Num 1) /\
  forall t, lookupTier t (increment type acc) =
            if eq_dec type t
            then option_map (fun n => JS.add n (JS.Num 1)) (lookupTier t acc)
            else lookupTier t acc.
Proof.
  induction acc as [|[t0 n0] acc IH]; intros Hall Hin; [destruct Hin|].
  destruct (Hall (t0, n0)) as [z0 Hz0]; [simpl; auto|]. cbn in Hz0. subst n0.
  assert (Hall' : allNum acc) by (intros tn Htn; apply Hall; simpl; auto).
  destruct (sumTiers_Num Hall') as [zs Hzs].
  cbn [increment]. destruct (eq_dec t0 type) as [->|Hne].
  - split; [|split; [|split]].
    + intros tn [<- | Htn]; cbn; eauto.
    + reflexivity.
    + rewrite !sumTiers_cons. cbn [snd]. rewrite Hzs. cbn. f_equal. lia.
    + intros t. cbn. destruct (eq_dec type t) as [->|Hnt].
      * destruct (eq_dec t t); [reflexivity | congruence].
      * reflexivity.
  - destruct Hin as [E | Hin]; [cbn in E; congruence|].
    destruct (IH Hall' Hin) as (Ia & Im & Is & Il).
    split; [|split; [|split]].
    + intros tn [<- | Htn]; cbn; eauto.
    + cbn. now rewrite Im.
    + rewrite !sumTiers_cons. cbn [snd]. rewrite Is, Hzs. cbn. f_equal. lia.
    + intros t. cbn. rewrite Il.
      destruct (eq_dec t0 t) as [->|]; [|reflexivity].
      destruct (eq_dec type t); [congruence | reflexivity].
Qed.

Lemma countLoop (vals : list Entry) :
  forall acc,
    allNum acc -> (forall t, In t (map fst acc)) ->
    let r := fold_left (fun a e => increment (tier e) a) vals acc in
    sumTiers r = JS.add (sumTiers acc) (JS.Num (Z.of_nat (List.length vals))) /\
    forall t,
      lookupTier t r =
      option_map (fun n =>
                    JS.add n (JS.Num (Z.of_nat
                      (List.length (filter (fun e => if eq_dec (tier e) t
                                                     then true else false) vals)))))
                 (lookupTier t acc).
Proof.
  induction vals as [|e vals IH]; intros acc Hall Hfull; cbv zeta; cbn [fold_left].
  - destruct (sumTiers_Num Hall) as [z Hz]. rewrite Hz. cbn. split.
    + f_equal. lia.
    + intros t. destruct (lookupTier t acc) as [n|] eqn:E; cbn; auto.
      destruct (@lookupTier_Num acc t n Hall E) as [z' ->]. cbn. do 2 f_equal. lia.
  - destruct (increment_spec (tier e) Hall (Hfull (tier e))) as (Ia & Im & Is & Il).
    destruct (IH (increment (tier e) acc) Ia) as (Js & Jl).
    { intros t. rewrite Im. apply Hfull. }
    cbv zeta in Js, Jl. split.
    + rewrite Js, Is. destruct (sumTiers_Num Hall) as [z Hz]. rewrite Hz.
      cbn [JS.add List.length]. f_equal. lia.
    + intros t. rewrite Jl, Il. cbn [filter].
      destruct (eq_dec (tier e) t) as [E|Hne].
      * destruct (lookupTier t acc) as [n|] eqn:E'; cbn; auto.
        destruct (@lookupTier_Num acc t n Hall E') as [z ->]. cbn. do 2 f_equal. lia.
      * reflexivity.
Qed.

Lemma countTiers_spec (c : JsMap.t Key Entry) :
  (forall t : Tier, In t getInitialStatusData) ->
  sumTiers (countTiers c) = JS.Num (Z.of_nat (JsMap.size c)) /\
  forall t, lookupTier t (countTiers c) = Some (JS.Num (Z.of_nat (tierCount t c))).
Proof.
  intros Hfull. unfold countTiers, tierCount, JsMap.size, JsMap.values.
  assert (Hall : allNum initialTiers).
  { intros tn Htn. unfold initialTiers in Htn.
    apply in_map_iff in Htn as (t & <- & _). cbn. eauto. }
  assert (Hkeys : map fst initialTiers = getInitialStatusData).
  { unfold initialTiers. rewrite map_map. cbn. apply map_id. }
  assert (Hsum0 : sumTiers initialTiers = JS.Num 0).
  { unfold initialTiers. generalize getInitialStatusData as l.
    induction l as [|t l IH]; [reflexivity|].
    cbn [map]. rewrite sumTiers_cons, IH. reflexivity. }
  assert (Hl0 : forall t, lookupTier t initialTiers = Some (JS.Num 0)).
  { intros t. specialize (Hfull t). unfold initialTiers.
    revert Hfull. generalize getInitialStatusData as l.
    induction l as [|t0 l IH]; cbn; intros Hin; [destruct Hin|].
    destruct (eq_dec t0 t); auto. destruct Hin; [congruence | auto]. }
  destruct (@countLoop (map snd (JsMap.entries c)) initialTiers Hall) as (Js & Jl).
  { intros t. rewrite Hkeys. apply Hfull. }
  cbv zeta in Js, Jl. split.
  - rewrite Js, Hsum0. cbn. now rewrite length_map.
  - intros t. rewrite Jl, Hl0. reflexivity.
Qed.

(** *** Iteration *)

Lemma entries_length (m : JsMap.t Key Entry) :
  (List.length (JsMap.entries m) <= List.length m)%nat.
Proof. induction m as [|[e|] m IH]; cbn; lia. Qed.

Lemma entries_skipn_length (m : JsMap.t Key Entry) i :
  (List.length (JsMap.entries (skipn i m)) <= List.length m)%nat.
Proof.
  pose proof (entries_length (skipn i m)) as L. rewrite length_skipn in L. lia.
Qed.

(** A loop over an iterable that stands at slot [i], run while the
    cache is in state [st], yields the live entries from slot [i] on. *)
Lemma forAwait_from {A} (project : Tier -> Key * Entry -> JS.result Error A)
      (next : tierIterable -> state -> JS.result Error (iterResult A) * tierIterable)
      (tier : Tier) st :
  (forall it,
      next it st =
      (match fst (JsMap.next (ti_iterator it) (cache st)) with
       | None => JS.Ok Done
       | Some kv => JS.bind (project (ti_tier it) kv) (fun v => JS.Ok (Yield v))
       end,
       mkIterable (ti_tier it) (snd (JsMap.next (ti_iterator it) (cache st))))) ->
  forall fuel i,
    (List.length (JsMap.entries (skipn i (cache st))) < fuel)%nat ->
    forAwait next fuel (mkIterable tier (JsMap.mkIter i false)) st =
    Some (JS.mapM (project tier) (JsMap.entries (skipn i (cache st)))).
Proof.
  intros Hnext. induction fuel as [|fuel IH]; intros i Hlt; [lia|].
  cbn [forAwait]. rewrite Hnext. unfold JsMap.next.
  cbn [ti_iterator JsMap.it_done JsMap.it_index ti_tier].
  pose proof (JsMapFacts.scan_spec (cache st) i) as Hs.
  destruct (JsMap.scan i (cache st)) as [[kv j]|]; cbn [fst snd].
  - destruct Hs as [He _]. rewrite He in Hlt |- *. cbn [JS.mapM List.length] in *.
    destruct (project tier kv) as [v|err]; cbn [JS.bind]; [|reflexivity].
    rewrite IH by lia.
    destruct (JS.mapM (project tier) (JsMap.entries (skipn j (cache st))));
      reflexivity.
  - rewrite Hs. reflexivity.
Qed.

End Facts.

(** C1, as stated, fails: a key stored after the call of [tierEntries]
    and before the loop runs is visited, and a key deleted in between is
    not; the sequence is not over a snapshot taken at call time. *)
Lemma C1_iteration_sees_later_mutations :
  (forall Date_parse,
      JsMap.keys (cache (withA Date_parse)) = ["a"%string] /\
      @visitedKeys (DateCache Date_parse) 5
         (@tierEntries (DateCache Date_parse) DateTieredCache.object (withA Date_parse))
         (withAB Date_parse) = Some ["a"%string; "b"%string]) /\
  (forall Date_parse,
      @visitedKeys (DateCache Date_parse) 5
         (@tierEntries (DateCache Date_parse) DateTieredCache.object (withA Date_parse))
         (snd (@delete (DateCache Date_parse) "a"%string (withA Date_parse)))
      = Some []).
Proof. split; intros Date_parse; [split|]; reflexivity. Qed.

Lemma tierValues_next_shape {S : Strategy} it (st : state) :
  tierValues_next it st =
  (match fst (JsMap.next (ti_iterator it) (cache st)) with
   | None => JS.Ok Done
   | Some kv => JS.bind (yieldValue (ti_tier it) kv) (fun v => JS.Ok (Yield v))
   end,
   mkIterable (ti_tier it) (snd (JsMap.next (ti_iterator it) (cache st)))).
Proof.
  unfold tierValues_next, yieldValue.
  destruct (JsMap.next (ti_iterator it) (cache st)) as [[[k e]|] i];
    cbn [fst snd]; [|reflexivity].
  destruct (handleCacheEntry k (ti_tier it) (Some e)); reflexivity.
Qed.

Lemma tierEntries_next_shape {S : Strategy} it (st : state) :
  tierEntries_next it st =
  (match fst (JsMap.next (ti_iterator it) (cache st)) with
   | None => JS.Ok Done
   | Some kv => JS.bind (yieldEntry (ti_tier it) kv) (fun v => JS.Ok (Yield v))
   end,
   mkIterable (ti_tier it) (snd (JsMap.next (ti_iterator it) (cache st)))).
Proof.
  unfold tierEntries_next, yieldEntry.
  destruct (JsMap.next (ti_iterator it) (cache st)) as [[[k e]|] i];
    cbn [fst snd]; [|reflexivity].
  destruct (handleCacheEntry k (ti_tier it) (Some e)); reflexivity.
Qed.

(** The first turns of a loop: the iterator has gone through the slots
    below the index it is left at, and has yielded their entries. *)
Lemma turns_from {S : Strategy} {A}
      (project : Tier -> Key * Entry -> JS.result Error A)
      (next : tierIterable -> state -> JS.result Error (iterResult A) * tierIterable)
      (tier : Tier) (mid : state) :
  (forall it,
      next it mid =
      (match fst (JsMap.next (ti_iterator it) (cache mid)) with
       | None => JS.Ok Done
       | Some kv => JS.bind (project (ti_tier it) kv) (fun v => JS.Ok (Yield v))
       end,
       mkIterable (ti_tier it) (snd (JsMap.next (ti_iterator it) (cache mid))))) ->
  forall n i vs it,
    turns next n (mkIterable tier (JsMap.mkIter i false)) mid = Some (vs, it) ->
    (i <= List.length (cache mid))%nat ->
    exists j es,
      it = mkIterable tier (JsMap.mkIter j false) /\
      (j <= List.length (cache mid))%nat /\
      JsMap.entries (firstn j (cache mid)) =
        JsMap.entries (firstn i (cache mid)) ++ es /\
      JS.mapM (project tier) es = JS.Ok vs /\
      List.length vs = n.
Proof.
  intros Hnext. induction n as [|n IH]; intros i vs it Ht Hi; cbn [turns] in Ht.
  - injection Ht as <- <-. exists i, []. rewrite List.app_nil_r. now repeat split.
  - rewrite Hnext in Ht. unfold JsMap.next in Ht.
    cbn [ti_iterator JsMap.it_done JsMap.it_index ti_tier] in Ht.
    pose proof (JsMapFacts.scan_spec (cache mid) i) as Hs.
    pose proof (JsMapFacts.scan_firstn (cache mid) i) as Hf.
    destruct (JsMap.scan i (cache mid)) as [[kv j1]|]; cbn [fst snd] in Ht;
      [|discriminate].
    destruct (project tier kv) as [v|err] eqn:Hp; cbn [JS.bind] in Ht; [|discriminate].
    destruct (turns next n (mkIterable tier (JsMap.mkIter j1 false)) mid)
      as [[vs' it']|] eqn:Hrest; [|discriminate].
    injection Ht as <- <-.
    destruct Hs as [_ Hj1].
    destruct (IH j1 vs' it' Hrest) as (j & es & -> & Hj & He & Hm & Hl); [lia|].
    exists j, (kv :: es). split; [reflexivity|]. split; [exact Hj|].
    split; [|split].
    + rewrite He, Hf, <- List.app_assoc. reflexivity.
    + cbn [JS.mapM]. rewrite Hp, Hm. reflexivity.
    + cbn [List.length]. now rewrite Hl.
Qed.

(** One call of [next()]: it answers with the first entry that the
    storage, as it is at the call, holds at or behind the slot the
    iterator has reached, and [done] when there is none. *)
Lemma next_live {S : Strategy} {A}
      (project : Tier -> Key * Entry -> JS.result Error A)
      (next : tierIterable -> state -> JS.result Error (iterResult A) * tierIterable)
      (tier : Tier) :
  (forall it st,
      next it st =
      (match fst (JsMap.next (ti_iterator it) (cache st)) with
       | None => JS.Ok Done
       | Some kv => JS.bind (project (ti_tier it) kv) (fun v => JS.Ok (Yield v))
       end,
       mkIterable (ti_tier it) (snd (JsMap.next (ti_iterator it) (cache st))))) ->
  forall i mid,
    match JsMap.entries (skipn i (cache mid)) with
    | [] =>
        next (mkIterable tier (JsMap.mkIter i false)) mid =
        (JS.Ok Done, mkIterable tier (JsMap.mkIter i true))
    | kv :: rest =>
        exists j,
          (i < j <= List.length (cache mid))%nat /\
          JsMap.entries (skipn j (cache mid)) = rest /\
          next (mkIterable tier (JsMap.mkIter i false)) mid =
          (JS.bind (project tier kv) (fun v => JS.Ok (Yield v)),
           mkIterable tier (JsMap.mkIter j false))
    end.
Proof.
  intros Hnext i mid. rewrite Hnext. unfold JsMap.next.
  cbn [ti_iterator JsMap.it_done JsMap.it_index ti_tier].
  pose proof (JsMapFacts.scan_spec (cache mid) i) as Hs.
  destruct (JsMap.scan i (cache mid)) as [[kv j]|]; cbn [fst snd].
  - destruct Hs as [He Hj]. rewrite He. exists j. now repeat split.
  - now rewrite Hs.
Qed.

(** An iterator that has answered [done] answers [done] ever after,
    whatever is stored in the meantime. *)
Lemma next_exhausts {S : Strategy} {A}
      (project : Tier -> Key * Entry -> JS.result Error A)
      (next : tierIterable -> state -> JS.result Error (iterResult A) * tierIterable) :
  (forall it st,
      next it st =
      (match fst (JsMap.next (ti_iterator it) (cache st)) with
       | None => JS.Ok Done
       | Some kv => JS.bind (project (ti_tier it) kv) (fun v => JS.Ok (Yield v))
       end,
       mkIterable (ti_tier it) (snd (JsMap.next (ti_iterator it) (cache st))))) ->
  forall it mid,
    fst (next it mid) = JS.Ok Done ->
    forall st fuel,
      next (snd (next it mid)) st = (JS.Ok Done, snd (next it mid)) /\
      forAwait next (Datatypes.S fuel) (snd (next it mid)) st = Some (JS.Ok []).
Proof.
  intros Hnext it mid Hd st fuel.
  assert (Hdone : JsMap.it_done (ti_iterator (snd (next it mid))) = true).
  { rewrite Hnext in Hd |- *. cbn [fst snd ti_iterator] in *. unfold JsMap.next in *.
    destruct (JsMap.it_done (ti_iterator it)) eqn:E; cbn [fst snd] in *; [exact E|].
    destruct (JsMap.scan (JsMap.it_index (ti_iterator it)) (cache mid)) as [[kv j]|];
      cbn [fst snd] in *; [|reflexivity].
    destruct (project (ti_tier it) kv); discriminate. }
  assert (Hn : next (snd (next it mid)) st = (JS.Ok Done, snd (next it mid))).
  { rewrite (Hnext (snd (next it mid)) st). unfold JsMap.next. rewrite Hdone.
    cbn [fst snd]. now destruct (snd (next it mid)). }
  split; [exact Hn|]. cbn [forAwait]. now rewrite Hn.
Qed.


(** The entries stored by [set], also when its hook throws, and by
    [delete]. *)
Lemma set_stores {S : Strategy} now key tier data timeout (st : state) :
  cache (snd (set now key tier data timeout st)) =
  JsMap.set key (mkEntry tier data) (cache st).
Proof.
  assert (Hst : forall t st1, cache (setTimeout now key t st1) = cache st1).
  { intros t st1.
    now destruct (TieredCacheFacts.setTimeout_spec now key t st1) as ((E & _) & _). }
  assert (Hup : forall st1 : state, cache (emitUpdate st1) = cache st1).
  { intros st1. now destruct (TieredCacheFacts.emitUpdate_spec st1). }
  unfold set, handleSetValue. destruct timeout as [t|]; cbn [snd].
  - rewrite Hup. cbn [cache emit]. now rewrite Hst.
  - destruct (handleTimeoutValue key tier data); cbn [snd]; [|reflexivity].
    rewrite Hup. cbn [cache emit]. now rewrite Hst.
Qed.

Lemma delete_empties {S : Strategy} key (st : state) :
  cache (snd (delete key st)) = snd (JsMap.delete key (cache st)).
Proof.
  assert (Hup : forall st1 : state, cache (emitUpdate st1) = cache st1).
  { intros st1. now destruct (TieredCacheFacts.emitUpdate_spec st1). }
  assert (Hc : cache (clearTimeoutKey key st) = cache st).
  { now destruct (TieredCacheFacts.clearTimeoutKey_spec key st) as ((E & _) & _). }
  unfold delete, handleDeleteValue. rewrite Hc.
  destruct (JsMap.delete key (cache st)) as [[|] c]; cbn [snd]; [|reflexivity].
  rewrite Hup. reflexivity.
Qed.

(** What a loop has still to visit when a [set] of a new key, or a
    [delete], comes between two of its turns. *)
Lemma rest_after_set {S : Strategy} now key tier data timeout j (mid : state) :
  has key mid = false -> (j <= List.length (cache mid))%nat ->
  JsMap.entries (skipn j (cache (snd (set now key tier data timeout mid)))) =
  JsMap.entries (skipn j (cache mid)) ++ [(key, mkEntry tier data)].
Proof.
  intros Hh Hj. rewrite set_stores.
  apply JsMapFacts.entries_skipn_set_absent; [|exact Hj].
  now apply JsMapFacts.has_false.
Qed.

Lemma rest_after_delete {S : Strategy} key j (mid : state) :
  JsMap.wf (cache mid) ->
  JsMap.entries (skipn j (cache (snd (delete key mid)))) =
  filter (fun kv => if eq_dec (fst kv) key then false else true)
         (JsMap.entries (skipn j (cache mid))).
Proof.
  intros Hwf. rewrite delete_empties. now apply JsMapFacts.entries_skipn_delete.
Qed.

(** C1, amended: each call to tierValues(tier) or tierEntries(tier)
    yields a single-pass sequence over the live storage, not over a
    snapshot.  Whatever the storage was at the call, a loop that
    consumes the sequence while the cache is in a state [st] visits, for
    every key present in [st] and only those, in insertion order, the
    stored entry reprojected into the requested tier (tierEntries pairs
    it with its key), and ends at the first reprojection that throws.  A
    loop that has made [n] turns while the cache was in a state [mid]
    has yielded the entries of the slots of [mid] it has gone through;
    finished while the cache is in [st], it yields the entries that [st]
    holds in the slots not yet reached: the remaining ones of [mid] and
    then the new key when [st] is [mid] after a [set] of a key not
    stored, the remaining ones of [mid] without the key when [st] is
    [mid] after a [delete].  Every single [next()] answers with the
    first entry that the storage holds, at that call, at or behind the
    slot reached.  Once [next()] has answered [done] it answers [done]
    ever after, whatever is stored later. *)
Theorem C1_tier_iteration_is_live {S : Strategy}
        (tier : Tier) (called st : state) (fuel : nat) :
  (List.length (cache st) < fuel)%nat ->
  (* the whole loop, run while the cache is in state [st] *)
  forAwait tierValues_next fuel (tierValues tier called) st =
    Some (JS.mapM (fun kv => handleCacheEntry (fst kv) tier (Some (snd kv)))
                  (JsMap.entries (cache st))) /\
  forAwait tierEntries_next fuel (tierEntries tier called) st =
    Some (JS.mapM (fun kv =>
                     JS.bind (handleCacheEntry (fst kv) tier (Some (snd kv)))
                             (fun v => JS.Ok (fst kv, v)))
                  (JsMap.entries (cache st))) /\
  (* the loop begun while the cache is in state [mid], finished in [st] *)
  (forall n mid vs it,
      turns tierValues_next n (tierValues tier called) mid = Some (vs, it) ->
      let j := JsMap.it_index (ti_iterator it) in
      (j <= List.length (cache mid))%nat /\
      JS.mapM (yieldValue tier) (JsMap.entries (firstn j (cache mid))) = JS.Ok vs /\
      List.length vs = n /\
      forAwait tierValues_next fuel it st =
        Some (JS.mapM (yieldValue tier) (JsMap.entries (skipn j (cache st)))) /\
      (forall now key tier' data timeout,
          st = snd (set now key tier' data timeout mid) -> has key mid = false ->
          forAwait tierValues_next fuel it st =
            Some (JS.mapM (yieldValue tier)
                    (JsMap.entries (skipn j (cache mid))
                     ++ [(key, mkEntry tier' data)]))) /\
      (forall key,
          st = snd (delete key mid) -> JsMap.wf (cache mid) ->
          forAwait tierValues_next fuel it st =
            Some (JS.mapM (yieldValue tier)
                    (filter (fun kv => if eq_dec (fst kv) key then false else true)
                            (JsMap.entries (skipn j (cache mid))))))) /\
  (forall n mid vs it,
      turns tierEntries_next n (tierEntries tier called) mid = Some (vs, it) ->
      let j := JsMap.it_index (ti_iterator it) in
      (j <= List.length (cache mid))%nat /\
      JS.mapM (yieldEntry tier) (JsMap.entries (firstn j (cache mid))) = JS.Ok vs /\
      List.length vs = n /\
      forAwait tierEntries_next fuel it st =
        Some (JS.mapM (yieldEntry tier) (JsMap.entries (skipn j (cache st)))) /\
      (forall now key tier' data timeout,
          st = snd (set now key tier' data timeout mid) -> has key mid = false ->
          forAwait tierEntries_next fuel it st =
            Some (JS.mapM (yieldEntry tier)
                    (JsMap.entries (skipn j (cache mid))
                     ++ [(key, mkEntry tier' data)]))) /\
      (forall key,
          st = snd (delete key mid) -> JsMap.wf (cache mid) ->
          forAwait tierEntries_next fuel it st =
            Some (JS.mapM (yieldEntry tier)
                    (filter (fun kv => if eq_dec (fst kv) key then false else true)
                            (JsMap.entries (skipn j (cache mid))))))) /\
  (* each [next()] answers from the storage as it is at that call *)
  (forall i mid,
      match JsMap.entries (skipn i (cache mid)) with
      | [] =>
          tierValues_next (mkIterable tier (JsMap.mkIter i false)) mid =
          (JS.Ok Done, mkIterable tier (JsMap.mkIter i true))
      | kv :: rest =>
          exists j,
            (i < j <= List.length (cache mid))%nat /\
            JsMap.entries (skipn j (cache mid)) = rest /\
            tierValues_next (mkIterable tier (JsMap.mkIter i false)) mid =
            (JS.bind (yieldValue tier kv) (fun v => JS.Ok (Yield v)),
             mkIterable tier (JsMap.mkIter j false))
      end) /\
  (forall i mid,
      match JsMap.entries (skipn i (cache mid)) with
      | [] =>
          tierEntries_next (mkIterable tier (JsMap.mkIter i false)) mid =
          (JS.Ok Done, mkIterable tier (JsMap.mkIter i true))
      | kv :: rest =>
          exists j,
            (i < j <= List.length (cache mid))%nat /\
            JsMap.entries (skipn j (cache mid)) = rest /\
            tierEntries_next (mkIterable tier (JsMap.mkIter i false)) mid =
            (JS.bind (yieldEntry tier kv) (fun v => JS.Ok (Yield v)),
             mkIterable tier (JsMap.mkIter j false))
      end) /\
  (* single pass: after [done] nothing more, whatever is stored then *)
  (forall it mid,
      fst (tierValues_next it mid) = JS.Ok Done ->
      forall st' fuel',
        tierValues_next (snd (tierValues_next it mid)) st' =
          (JS.Ok Done, snd (tierValues_next it mid)) /\
        forAwait tierValues_next (Datatypes.S fuel')
                 (snd (tierValues_next it mid)) st' = Some (JS.Ok [])) /\
  (forall it mid,
      fst (tierEntries_next it mid) = JS.Ok Done ->
      forall st' fuel',
        tierEntries_next (snd (tierEntries_next it mid)) st' =
          (JS.Ok Done, snd (tierEntries_next it mid)) /\
        forAwait tierEntries_next (Datatypes.S fuel')
                 (snd (tierEntries_next it mid)) st' = Some (JS.Ok [])).
Proof.
  intros Hfuel.
  pose proof (entries_skipn_length (cache st)) as Hlen.
  assert (Hv : forall i,
             forAwait tierValues_next fuel (mkIterable tier (JsMap.mkIter i false)) st =
             Some (JS.mapM (yieldValue tier) (JsMap.entries (skipn i (cache st))))).
  { intros i.
    apply (@forAwait_from S _ yieldValue tierValues_next tier st);
      [intros it; apply tierValues_next_shape | specialize (Hlen i); lia]. }
  assert (He : forall i,
             forAwait tierEntries_next fuel (mkIterable tier (JsMap.mkIter i false)) st =
             Some (JS.mapM (yieldEntry tier) (JsMap.entries (skipn i (cache st))))).
  { intros i.
    apply (@forAwait_from S _ yieldEntry tierEntries_next tier st);
      [intros it; apply tierEntries_next_shape | specialize (Hlen i); lia]. }
  split; [exact (Hv 0%nat)|]. split; [exact (He 0%nat)|].
  split; [|split; [|split; [|split; [|split]]]].
  - intros n mid vs it Ht. cbv zeta.
    destruct (@turns_from S _ yieldValue tierValues_next tier mid
                (fun it0 => tierValues_next_shape it0 mid) n 0%nat vs it Ht)
      as (j & es & -> & Hj & Hes & Hm & Hl); [lia|].
    cbn [ti_iterator JsMap.it_index]. cbn [firstn JsMap.entries app] in Hes.
    rewrite Hes. split; [exact Hj|]. split; [exact Hm|]. split; [exact Hl|].
    split; [apply Hv|]. split.
    + intros now key tier' data timeout -> Hh.
      rewrite <- (@rest_after_set S now key tier' data timeout j mid Hh Hj). apply Hv.
    + intros key -> Hwf. rewrite <- (@rest_after_delete S key j mid Hwf). apply Hv.
  - intros n mid vs it Ht. cbv zeta.
    destruct (@turns_from S _ yieldEntry tierEntries_next tier mid
                (fun it0 => tierEntries_next_shape it0 mid) n 0%nat vs it Ht)
      as (j & es & -> & Hj & Hes & Hm & Hl); [lia|].
    cbn [ti_iterator JsMap.it_index]. cbn [firstn JsMap.entries app] in Hes.
    rewrite Hes. split; [exact Hj|]. split; [exact Hm|]. split; [exact Hl|].
    split; [apply He|]. split.
    + intros now key tier' data timeout -> Hh.
      rewrite <- (@rest_after_set S now key tier' data timeout j mid Hh Hj). apply He.
    + intros key -> Hwf. rewrite <- (@rest_after_delete S key j mid Hwf). apply He.
  - exact (@next_live S _ yieldValue tierValues_next tier tierValues_next_shape).
  - exact (@next_live S _ yieldEntry tierEntries_next tier tierEntries_next_shape).
  - intros it mid Hd st' fuel'.
    exact (@next_exhausts S _ yieldValue tierValues_next tierValues_next_shape
             it mid Hd st' fuel').
  - intros it mid Hd st' fuel'.
    exact (@next_exhausts S _ yieldEntry tierEntries_next tierEntries_next_shape
             it mid Hd st' fuel').
Qed.

Lemma C1_tier_iteration_is_live_witness :
  @forAwait DateTieredCache.exampleStrategy _
     (@tierEntries_next DateTieredCache.exampleStrategy) 3
     (@tierEntries DateTieredCache.exampleStrategy DateTieredCache.object
        (withA DateTieredCache.noDateParse))
     (withAB DateTieredCache.noDateParse) =
  Some (JS.mapM
          (fun kv =>
             JS.bind (@handleCacheEntry DateTieredCache.exampleStrategy
                        (fst kv) DateTieredCache.object (Some (snd kv)))
                     (fun v => JS.Ok (fst kv, v)))
          (JsMap.entries (cache (withAB DateTieredCache.noDateParse)))) /\
  (* one turn while only "a" is stored, the others after "b" was stored *)
  @forAwait DateTieredCache.exampleStrategy _
     (@tierEntries_next DateTieredCache.exampleStrategy) 3
     (@mkIterable DateTieredCache.exampleStrategy DateTieredCache.object
        (JsMap.mkIter 1 false))
     (withAB DateTieredCache.noDateParse) =
  Some (JS.mapM (@yieldEntry DateTieredCache.exampleStrategy DateTieredCache.object)
          (JsMap.entries (skipn 1 (cache (withA DateTieredCache.noDateParse)))
           ++ [("b"%string,
                mkEntry DateTieredCache.object
                  (DateTieredCache.DJson
                     (DateTieredCache.cdateObject (JSON.JNum (JS.Num 2)))))])) /\
  (* the iterator that answered done stays done when "c" is stored *)
  @forAwait DateTieredCache.exampleStrategy _
     (@tierEntries_next DateTieredCache.exampleStrategy) 1
     (@mkIterable DateTieredCache.exampleStrategy DateTieredCache.object
        (JsMap.mkIter 2 true))
     (snd (@set DateTieredCache.exampleStrategy 2 "c"%string DateTieredCache.object
             (DateTieredCache.DJson
                (DateTieredCache.cdateObject (JSON.JNum (JS.Num 3)))) None
             (withAB DateTieredCache.noDateParse))) =
  Some (JS.Ok []).
Proof.
  assert (Hfuel : (List.length (cache (withAB DateTieredCache.noDateParse)) < 3)%nat)
    by (cbn; lia).
  pose proof (@C1_tier_iteration_is_live DateTieredCache.exampleStrategy
                DateTieredCache.object (withA DateTieredCache.noDateParse)
                (withAB DateTieredCache.noDateParse) 3 Hfuel)
    as (_ & Hall & _ & Hturns & _ & _ & _ & Hdone).
  split; [exact Hall|]. split.
  - destruct (Hturns 1%nat (withA DateTieredCache.noDateParse) _ _ eq_refl)
      as (_ & _ & _ & _ & Hset & _).
    exact (Hset 1%Z "b"%string DateTieredCache.object
             (DateTieredCache.DJson
                (DateTieredCache.cdateObject (JSON.JNum (JS.Num 2)))) None
             eq_refl eq_refl).
  - exact (proj2 (Hdone (@mkIterable DateTieredCache.exampleStrategy
                           DateTieredCache.object (JsMap.mkIter 2 false))
                        (withAB DateTieredCache.noDateParse) eq_refl
                        (snd (@set DateTieredCache.exampleStrategy 2 "c"%string
                                DateTieredCache.object
                                (DateTieredCache.DJson
                                   (DateTieredCache.cdateObject (JSON.JNum (JS.Num 3))))
                                None (withAB DateTieredCache.noDateParse)))
                        0%nat)).
Defined.

(** *** Read-refresh *)


(** C2 at its failing input: [get] finds the stored entry and the
    reprojection yields a value, the empty string, yet the timer is not
    reset: the state is unchanged, the timer armed by [set] stays due at
    100 although the call granted 5000 ms at time 50, and it fires at
    100, when the hook removes the entry. *)
Theorem C2_get_keeps_timer_on_falsy_value (Date_parse : string -> JS.number) :
  @get (DateCache Date_parse) 50 "k"%string DateTieredCache.stringValue
       (Some (JS.Num 5000)) (withEmptyString Date_parse) =
    (JS.Ok (Some (DateTieredCache.DJson (JSON.JStr EmptyString))),
     withEmptyString Date_parse) /\
  Timers.pending_for "k"%string (timers (withEmptyString Date_parse)) =
    [Timers.mkTimer 1 "k"%string 100] /\
  option_map (fun st => @has (DateCache Date_parse) "k"%string st)
             (@fire (DateCache Date_parse) 100 1 (withEmptyString Date_parse))
  = Some false.
Proof. repeat split. Qed.

(** *** Deletion *)

(** C3 at its failing input: [deleteKeys] emits a [delete] event with
    no key and an [update] event although it removed nothing: for the
    empty iterable in any state, and for keys that are not stored.  The
    sibling [delete] emits nothing on a key that is not stored. *)
Theorem C3_deleteKeys_emits_without_removal {S : Strategy} (st : state) :
  fst (deleteKeys [] st) = 0%nat /\
  emitted (snd (deleteKeys [] st)) =
    emitted st ++ [EvDelete [];
                   EvUpdate (mkStatus (JsMap.size (cache st)) (countTiers (cache st)))] /\
  (forall Date_parse,
      fst (@deleteKeys (DateCache Date_parse) ["a"%string; "b"%string]
                       (@create (DateCache Date_parse))) = 0%nat /\
      emitted (snd (@deleteKeys (DateCache Date_parse) ["a"%string; "b"%string]
                                (@create (DateCache Date_parse)))) =
        [EvDelete []; EvUpdate (statusData (@create (DateCache Date_parse)))] /\
      @delete (DateCache Date_parse) "a"%string (@create (DateCache Date_parse)) =
        (false, @create (DateCache Date_parse))).
Proof.
  split; [reflexivity|]. split.
  - unfold deleteKeys, emitUpdate; cbn. now rewrite <- List.app_assoc.
  - intros Date_parse. repeat split.
Qed.

(** *** The status *)

(** C4, as stated, fails: a [set] whose [handleTimeoutValue] throws has
    stored the entry and leaves the status as it was. *)
Lemma C4_status_stale_after_throwing_set :
  fst (@set FaultyTieredCache.strategy 0 "k"%string tt "v"%string None
            (@create FaultyTieredCache.strategy)) = JS.Throw "handleTimeoutValue"%string /\
  @size FaultyTieredCache.strategy faultyAfterSet = 1%nat /\
  status_size (fst (@status FaultyTieredCache.strategy faultyAfterSet)) = 0%nat.
Proof. repeat split. Qed.

(** C4, amended: after any sequence of public operations and timer
    firings in which no strategy hook throws, the snapshot returned by
    status() has size equal to the number of keys stored and to the sum
    of its tier counters, and the counter of each tier equals the
    number of stored entries tagged with it; status() returns the stored
    snapshot without recomputing, the recomputation being done inside
    each mutating operation just before it emits [update]. *)
Theorem C4_status_consistent {S : Strategy} (ops : list op) :
  (forall t : Tier, In t getInitialStatusData) ->
  quiet ops create = true ->
  let st := run ops create in
  let s := fst (status st) in
  status_size s = size st /\
  (forall t, lookupTier t (status_tiers s) =
             Some (JS.Num (Z.of_nat (tierCount t (cache st))))) /\
  sumTiers (status_tiers s) = JS.Num (Z.of_nat (status_size s)) /\
  status st = (statusData st, st) /\
  (forall o, mutates o st = true -> hookThrew o st = false ->
             statusFresh (snd (step o st)) /\
             exists evs, emitted (snd (step o st)) =
                         evs ++ [EvUpdate (statusData (snd (step o st)))]).
Proof.
  intros Hfull Hq. cbv zeta.
  pose proof (@TieredCacheFacts.run_status S ops create Hq
                TieredCacheFacts.statusFresh_create) as Hf.
  destruct (@TieredCacheFacts.countTiers_spec S (cache (run ops create)) Hfull)
    as (Hsum & Hl).
  unfold status, buildStatus. cbn [fst].
  split; [now rewrite Hf|]. split; [intros t; rewrite Hf; apply Hl|].
  split; [rewrite Hf; exact Hsum|].
  split; [reflexivity|].
  intros o. apply TieredCacheFacts.step_update.
Qed.

Lemma C4_status_consistent_witness :
  status_size (fst (@status DateTieredCache.exampleStrategy
                            (run exampleRun create))) = 1%nat /\
  sumTiers (status_tiers (fst (@status DateTieredCache.exampleStrategy
                                       (run exampleRun create)))) = JS.Num 1.
Proof.
  assert (Hfull : forall t : @Tier DateTieredCache.exampleStrategy,
             In t (@getInitialStatusData DateTieredCache.exampleStrategy)).
  { intros t. destruct t; simpl; auto. }
  pose proof (@C4_status_consistent DateTieredCache.exampleStrategy exampleRun
                Hfull eq_refl) as (Hs & _ & Hsum & _).
  split; [exact Hs | exact Hsum].
Defined.

(** *** One timer per key *)












(** *** Errors of the hooks *)

Lemma setEntriesLoop_first_throw {S : Strategy} now tier pre key data post e :
  forall st : state,
    (forall kd, In kd pre ->
                exists t, handleTimeoutValue (fst kd) tier (snd kd) = JS.Ok t) ->
    handleTimeoutValue key tier data = JS.Throw e ->
    fst (setEntriesLoop now tier (pre ++ (key, data) :: post) None st) = JS.Throw e.
Proof.
  induction pre as [|[k d] pre IH]; intros st Hpre He; cbn [app setEntriesLoop].
  - unfold handleSetValue. rewrite He. reflexivity.
  - destruct (Hpre (k, d)) as [t Ht]; [simpl; auto|]. cbn [fst snd] in Ht.
    unfold handleSetValue at 1. rewrite Ht.
    apply IH; auto. intros kd Hkd. apply Hpre. simpl; auto.
Qed.

(** C6: an exception of Reproject during get, or of InitialTimeout
    during set or setEntries, propagates to the caller: the call
    returns the same exception.  An exception of OnTierTimeout in a
    fired timer is caught: the firing completes, the error is logged,
    nothing is emitted, and the engine arms no timer, so that no retry
    is pending for the key. *)
Theorem C6_hook_errors {S : Strategy}
        (st : state) (now : Z) (key : Key) (tier : Tier) (e : Error) :
  (forall timeout,
      handleCacheEntry key tier (JsMap.get key (cache st)) = JS.Throw e ->
      get now key tier timeout st = (JS.Throw e, st)) /\
  (forall data,
      handleTimeoutValue key tier data = JS.Throw e ->
      fst (set now key tier data None st) = JS.Throw e /\
      emitted (snd (set now key tier data None st)) = emitted st) /\
  (forall pre data post,
      (forall kd, In kd pre ->
                  exists t, handleTimeoutValue (fst kd) tier (snd kd) = JS.Ok t) ->
      handleTimeoutValue key tier data = JS.Throw e ->
      fst (setEntries now tier (pre ++ (key, data) :: post) None st) = JS.Throw e) /\
  (forall id tm st1,
      Timers.fire now id (timers st) = Some (key, tm) ->
      callTierTimeout now key (with_timers tm st) = (JS.Throw e, st1) ->
      fire now id st = Some (log_error e st1) /\
      step (OpFire now id) st = (JS.Ok tt, log_error e st1) /\
      logged (log_error e st1) = logged st ++ [e] /\
      emitted (log_error e st1) = emitted st /\
      timers (log_error e st1) = timers st1) /\
  (forall id tm,
      timersInv st ->
      Timers.fire now id (timers st) = Some (key, tm) ->
      handleTierTimeout key (cache st) = ([], JS.Throw e) ->
      fire now id st = Some (log_error e (with_timers tm st)) /\
      Timers.pending_for key (timers (log_error e (with_timers tm st))) = []).
Proof.
  split; [|split; [|split; [|split]]].
  - intros timeout He. unfold get. now rewrite He.
  - intros data He. unfold set, handleSetValue. rewrite He. now split.
  - intros pre data post Hpre He. unfold setEntries.
    pose proof (@setEntriesLoop_first_throw S now tier pre key data post e st Hpre He)
      as L.
    destruct (setEntriesLoop now tier (pre ++ (key, data) :: post) None st)
      as [[u|e'] st1]; cbn [fst] in *; [discriminate | exact L].
  - intros id tm st1 Hf Hc.
    assert (F : fire now id st = Some (log_error e st1)).
    { unfold fire, runTimeout. now rewrite Hf, Hc. }
    destruct (TieredCacheFacts.callTierTimeout_keeps now key (with_timers tm st))
      as (_ & _ & Ee & El).
    rewrite Hc in Ee, El. cbn [snd] in Ee, El.
    split; [exact F|]. split; [cbn [step]; now rewrite F|].
    cbn. now rewrite Ee, El.
  - intros id tm Hinv Hf Hh.
    assert (Hc : callTierTimeout now key (with_timers tm st) =
                 (JS.Throw e, with_timers tm st)).
    { unfold callTierTimeout. cbn [cache with_timers]. now rewrite Hh. }
    split; [unfold fire, runTimeout; now rewrite Hf, Hc|].
    cbn [timers log_error with_timers].
    apply TimersFacts.fire_spec in Hf as (-> & (tm0 & Hin0 & Hid0 & Hk0 & _)).
    destruct Hinv as [_ Hrec].
    apply TimersFacts.pending_for_nil. intros tm' Htm' Hk'.
    apply TimersFacts.In_clearTimeout in Htm' as [Htm' Hne].
    pose proof (Hrec tm' Htm') as G'. pose proof (Hrec tm0 Hin0) as G0.
    rewrite Hk' in G'. rewrite Hk0 in G0. congruence.
Qed.

Lemma C6_hook_errors_witness :
  @get FaultyTieredCache.strategy 50 "k"%string tt None faultyArmed =
    (JS.Throw "handleCacheEntry"%string, faultyArmed) /\
  fst (@set FaultyTieredCache.strategy 50 "k"%string tt "w"%string None faultyArmed) =
    JS.Throw "handleTimeoutValue"%string /\
  option_map (@logged FaultyTieredCache.strategy)
             (@fire FaultyTieredCache.strategy 100 1 faultyArmed) =
    Some ["handleTierTimeout"%string].
Proof.
  split; [|split].
  - exact (proj1 (@C6_hook_errors FaultyTieredCache.strategy faultyArmed 50
                    "k"%string tt "handleCacheEntry"%string) None eq_refl).
  - exact (proj1 (proj1 (proj2 (@C6_hook_errors FaultyTieredCache.strategy faultyArmed
                                  50 "k"%string tt "handleTimeoutValue"%string))
                        "w"%string eq_refl)).
  - pose proof (proj1 (proj2 (proj2 (proj2
                  (@C6_hook_errors FaultyTieredCache.strategy faultyArmed 100
                     "k"%string tt "handleTierTimeout"%string))))
                1%nat) as W.
    specialize (W _ _ eq_refl eq_refl). destruct W as (F & _). rewrite F.
    reflexivity.
Defined.

End TieredCacheFacts.





(** ** JSON: reading back what [JSON.stringify] wrote *)

Module JSONFacts.
#[local] Open Scope string_scope.

Lemma read_digits_app (d : Decimal.uint) (rest : string) :
  JSON.stops rest ->
  JSON.read_digits (DecimalString.NilEmpty.string_of_uint d ++ rest) = (d, rest).
Proof.
  intros Hstop.
  induction d as [|d IH|d IH|d IH|d IH|d IH|d IH|d IH|d IH|d IH|d IH];
    cbn [DecimalString.NilEmpty.string_of_uint append JSON.read_digits];
    try (change (JSON.is_digit _) with true; cbv iota; rewrite IH; reflexivity).
  destruct rest as [|c r]; cbn [JSON.read_digits]; [reflexivity|].
  cbn in Hstop. now rewrite Hstop.
Qed.

Lemma nzhead_head (d : Decimal.uint) :
  match Decimal.nzhead d with Decimal.D0 _ => False | _ => True end.
Proof. induction d; cbn; auto. Qed.

(** The numeral of a positive number is not empty and has no leading
    zero. *)
Lemma to_uint_head (p : positive) :
  match Pos.to_uint p with
  | Decimal.Nil | Decimal.D0 _ => False
  | _ => True
  end.
Proof.
  pose proof (DecimalPos.Unsigned.to_uint_nonnil p) as Hnil.
  pose proof (DecimalPos.Unsigned.to_uint_nonzero p) as Hzero.
  pose proof (DecimalPos.Unsigned.to_of (Pos.to_uint p)) as Hnorm.
  rewrite DecimalPos.Unsigned.of_to in Hnorm. cbn [N.to_uint] in Hnorm.
  destruct (Pos.to_uint p) as [|d| | | | | | | | |] eqn:E; auto.
  rewrite DecimalFacts.unorm_D0 in Hnorm. unfold Decimal.unorm in Hnorm.
  pose proof (nzhead_head d) as Hh.
  destruct (Decimal.nzhead d) eqn:En; try discriminate; auto.
Qed.

Lemma of_to_uint (p : positive) : Z.of_uint (Pos.to_uint p) = Z.pos p.
Proof. unfold Z.of_uint. now rewrite DecimalPos.Unsigned.of_to. Qed.

(** A numeral that starts with a digit from 1 to 9 is read back as the
    number it writes. *)
Lemma parse_positive (p : positive) (rest : string) :
  JSON.stops rest ->
  match rest with
  | String c _ =>
      (Ascii.eqb c "." || Ascii.eqb c "e" || Ascii.eqb c "E")%char = false
  | EmptyString => True
  end ->
  (Z.pos p <= JSON.maxSafe)%Z ->
  JSON.parse_number (DecimalString.NilEmpty.string_of_uint (Pos.to_uint p) ++ rest) =
    JSON.Parsed (JSON.JNum (JS.Num (Z.pos p))) rest /\
  JSON.parse_number (String "-"%char
                       (DecimalString.NilEmpty.string_of_uint (Pos.to_uint p) ++ rest)) =
    JSON.Parsed (JSON.JNum (JS.Num (Z.neg p))) rest.
Proof.
  intros Hstop Hdot Hle.
  pose proof (to_uint_head p) as Hh. pose proof (of_to_uint p) as Hof.
  pose proof (@read_digits_app (Pos.to_uint p) rest Hstop) as Hrd.
  assert (Hlt : Z.ltb JSON.maxSafe (Z.abs (Z.pos p)) = false)
    by (apply Z.ltb_ge; cbn [Z.abs]; exact Hle).
  unfold JSON.parse_number.
  destruct (Pos.to_uint p) as [|d|d|d|d|d|d|d|d|d|d]; try contradiction;
    cbn [DecimalString.NilEmpty.string_of_uint append] in Hrd |- *;
    (split;
     [ change (Ascii.eqb _ "-"%char) with false; cbv iota
     | change (Ascii.eqb "-"%char "-"%char) with true; cbv iota ];
     rewrite Hrd, Hof; rewrite Hlt;
     (destruct rest as [|c r]; [reflexivity | now rewrite Hdot])).
Qed.

Lemma first_char_number (z : Z) :
  exists c r,
    DecimalString.NilEmpty.string_of_int (Z.to_int z) = String c r /\
    JSON.is_ws c = false /\
    (Ascii.eqb c "n" = false /\ Ascii.eqb c "t" = false /\ Ascii.eqb c "f" = false /\
     Ascii.eqb c JSON.quote = false /\ Ascii.eqb c "[" = false /\
     Ascii.eqb c "{" = false)%char.
Proof.
  destruct z as [|p|p]; cbn [Z.to_int DecimalString.NilEmpty.string_of_int].
  - exists "0"%char, EmptyString. repeat split.
  - pose proof (to_uint_head p) as Hh.
    destruct (Pos.to_uint p) as [|d|d|d|d|d|d|d|d|d|d]; try contradiction;
      cbn [DecimalString.NilEmpty.string_of_uint];
      eexists _, _; repeat split.
  - exists "-"%char, (DecimalString.NilEmpty.string_of_uint (Pos.to_uint p)).
    repeat split.
Qed.

Lemma parse_number_toString (z : Z) :
  (Z.abs z <= JSON.maxSafe)%Z ->
  JSON.parse_number (JSON.Number_toString (JS.Num z) ++ "}") =
  JSON.Parsed (JSON.JNum (JS.Num z)) "}".
Proof.
  intros Hle. unfold JSON.Number_toString.
  destruct z as [|p|p]; cbn [Z.to_int DecimalString.NilEmpty.string_of_int].
  - reflexivity.
  - now apply parse_positive.
  - cbn [append]. now apply parse_positive.
Qed.

Lemma parse_value_object (fuel : nat) (rest : string) :
  JSON.parse_value (S fuel) (String "{"%char (String JSON.quote rest)) =
  JSON.parse_members fuel (String JSON.quote rest) [].
Proof. reflexivity. Qed.

Lemma parse_members_cdate (fuel : nat) (rest : string) :
  JSON.parse_members (S fuel)
    (String JSON.quote ("$cdate" ++ String JSON.quote (String ":"%char rest))) [] =
  match JSON.parse_value fuel rest with
  | JSON.Parsed v r3 =>
      match JSON.skip_ws r3 with
      | String c3 r4 =>
          if Ascii.eqb c3 ","%char
          then JSON.parse_members fuel r4 (JSON.put "$cdate" v [])
          else if Ascii.eqb c3 "}"%char
               then JSON.Parsed (JSON.JObj (JSON.put "$cdate" v [])) r4
               else JSON.SyntaxError
      | EmptyString => JSON.SyntaxError
      end
  | JSON.SyntaxError => JSON.SyntaxError
  | JSON.Unmodelled => JSON.Unmodelled
  end.
Proof. reflexivity. Qed.

Lemma parse_value_number (fuel : nat) (c : ascii) (r : string) :
  JSON.is_ws c = false ->
  (Ascii.eqb c "n" = false /\ Ascii.eqb c "t" = false /\ Ascii.eqb c "f" = false /\
   Ascii.eqb c JSON.quote = false /\ Ascii.eqb c "[" = false /\
   Ascii.eqb c "{" = false)%char ->
  JSON.parse_value (S fuel) (String c r) = JSON.parse_number (String c r).
Proof.
  intros Hws (Hn & Ht & Hf & Hq & Hb & Hc).
  cbn [JSON.parse_value JSON.skip_ws].
  now rewrite Hws, Hn, Ht, Hf, Hq, Hb, Hc.
Qed.

(** [JSON.parse] reads the text of [{$cdate: z}] back as that object. *)
Lemma parse_stringify_cdate (z : Z) :
  (Z.abs z <= JSON.maxSafe)%Z ->
  JSON.parse (JSON.stringify_cdate (JS.Num z)) =
  JSON.Parsed (JSON.JObj [("$cdate", JSON.JNum (JS.Num z))]) EmptyString.
Proof.
  intros Hle. unfold JSON.parse.
  set (text := JSON.stringify_cdate (JS.Num z)).
  assert (Hfuel : exists k, (2 * String.length text + 2 = 3 + k)%nat).
  { exists (2 * String.length text - 1)%nat. subst text.
    cbn [JSON.stringify_cdate String.length]. lia. }
  destruct Hfuel as [k ->]. subst text.
  pose proof (@parse_number_toString z Hle) as Hnum.
  destruct (first_char_number z) as (c & r & Es & Hws & Hchars).
  unfold JSON.Number_toString in Hnum. rewrite Es in Hnum.
  unfold JSON.stringify_cdate, JSON.Number_toString. rewrite Es.
  change (3 + k)%nat with (S (S (S k))).
  rewrite parse_value_object, parse_members_cdate.
  cbn [append] in Hnum |- *.
  rewrite (@parse_value_number k c (r ++ "}") Hws Hchars), Hnum.
  reflexivity.
Qed.

End JSONFacts.

(** ** DateTieredCache: reprojection there and back *)

Module DateTieredCacheFacts.
Import DateTieredCache.
#[local] Open Scope string_scope.

Lemma maxTime_safe (z : Z) : (Z.abs z <= JS.maxTime -> Z.abs z <= JSON.maxSafe)%Z.
Proof. unfold JS.maxTime, JSON.maxSafe. lia. Qed.

Lemma newDate_valid (z : Z) :
  (Z.abs z <= JS.maxTime)%Z -> JS.newDate (JS.Num z) = JS.mkDate (JS.Num z).
Proof.
  intros Hle. unfold JS.newDate, JS.TimeClip.
  now replace (Z.ltb JS.maxTime (Z.abs z)) with false by (symmetry; now apply Z.ltb_ge).
Qed.

(** Reprojecting the data of a valid time value gives the data of the
    same time value in the requested tier. *)
Lemma reproject_canonical (Date_parse : string -> JS.number)
      (key : string) (z : Z) (A B : tierName) :
  (Z.abs z <= JS.maxTime)%Z ->
  handleCacheEntry Date_parse key B (Some (TieredCache.mkEntry A (canonical z A))) =
  JS.Ok (Some (canonical z B)).
Proof.
  intros Hle.
  pose proof (@JSONFacts.parse_stringify_cdate z (@maxTime_safe z Hle)) as Hparse.
  pose proof (@newDate_valid z Hle) as Hdate.
  destruct A, B; unfold handleCacheEntry, getModel, getObject, getStringValue;
    cbn [TieredCache.tier TieredCache.data canonical call_getTime get_cdate
         cdateObject JS.bind JSON.member String.eqb Ascii.eqb Bool.eqb
         parse_data JSON.ToString JS.getTime];
    try reflexivity.
  - cbn [Date_of]. now rewrite Hdate.
  - cbn [Date_of]. now rewrite Hdate.
  - rewrite Hparse. cbn [JS.bind opt_cdate JSON.member String.eqb Ascii.eqb Bool.eqb
                         Date_of]. now rewrite Hdate.
  - now rewrite Hparse.
Qed.

(** C8, as stated, fails: the object [{$cdate: 8640000000000001}],
    stored in the tier ['object'], reprojects to an invalid [Date], and
    that [Date] reprojects back to [{$cdate: NaN}], not to the
    original. *)
Lemma C8_object_beyond_date_range_is_lost :
  (forall Date_parse,
      handleCacheEntry Date_parse "k" model
        (Some (TieredCache.mkEntry object
                 (DJson (cdateObject (JSON.JNum (JS.Num 8640000000000001)))))) =
      JS.Ok (Some (DDate (JS.mkDate JS.NaN)))) /\
  (forall Date_parse,
      handleCacheEntry Date_parse "k" object
        (Some (TieredCache.mkEntry model (DDate (JS.mkDate JS.NaN)))) =
      JS.Ok (Some (DJson (cdateObject (JSON.JNum JS.NaN))))) /\
  JS.number_eqb JS.NaN (JS.Num 8640000000000001) = false.
Proof. repeat split. Qed.

(** C8, amended: for the reference 3-tier date cache, reprojection
    round-trips on the data of a valid time value: for every ordered
    pair of tiers A and B among model, object and stringValue, and for
    the Date of a time value within the range of dates in model, the
    object [{$cdate: t}] of such a time value in object, and the text
    JSON.stringify writes for that object in stringValue, converting
    the data stored in A to B and the result back to A yields the
    original data. *)
Theorem C8_roundtrip_on_valid_time_values
        (Date_parse : string -> JS.number) (key : string) (z : Z) (A B : tierName) :
  (Z.abs z <= JS.maxTime)%Z ->
  exists converted,
    handleCacheEntry Date_parse key B
      (Some (TieredCache.mkEntry A (canonical z A))) = JS.Ok (Some converted) /\
    handleCacheEntry Date_parse key A
      (Some (TieredCache.mkEntry B converted)) = JS.Ok (Some (canonical z A)).
Proof.
  intros Hle. exists (canonical z B).
  split; now apply reproject_canonical.
Qed.

Lemma C8_roundtrip_on_valid_time_values_witness :
  exists converted,
    handleCacheEntry noDateParse "k1" stringValue
      (Some (TieredCache.mkEntry model
               (DDate (JS.mkDate (JS.Num 1704067200000))))) =
      JS.Ok (Some converted) /\
    handleCacheEntry noDateParse "k1" model
      (Some (TieredCache.mkEntry stringValue converted)) =
      JS.Ok (Some (DDate (JS.mkDate (JS.Num 1704067200000)))).
Proof.
  refine (@C8_roundtrip_on_valid_time_values
            noDateParse "k1" 1704067200000 model stringValue _).
  unfold JS.maxTime. cbn. lia.
Defined.

(** The scenario of the specification: the date 2024-01-01T00:00:00Z
    read as ['stringValue'], and its entry after the timer of the tier
    ['model'] fired. *)
Example scenario_2024 :
  let S := exampleStrategy in
  let st := snd (@TieredCache.set S 0 "k1" model
                   (DDate (JS.newDate (JS.Num 1704067200000))) None
                   (@TieredCache.create S)) in
  fst (@TieredCache.get S 10 "k1" stringValue None st) =
    JS.Ok (Some (DJson (JSON.JStr (JSON.stringify_cdate (JS.Num 1704067200000))))) /\
  option_map (fun st' => JsMap.get "k1" (@TieredCache.cache S st'))
             (@TieredCache.fire S 100 1 st) =
    Some (Some (TieredCache.mkEntry object
                  (DJson (cdateObject (JSON.JNum (JS.Num 1704067200000)))))).
Proof. split; reflexivity. Qed.

(** What [handleTierTimeout] stores in the tier ['stringValue'] is the
    bare numeral of the time value; read as ['object'] it is a number,
    not an object, and as ['model'] it is an invalid date. *)
Example stored_numeral_is_not_read_back :
  let S := exampleStrategy in
  let entry := TieredCache.mkEntry stringValue
                 (DJson (JSON.JStr (JSON.Number_toString (JS.Num 1704067200000)))) in
  @TieredCache.handleCacheEntry S "k1" object (Some entry) =
    JS.Ok (Some (DJson (JSON.JNum (JS.Num 1704067200000)))) /\
  @TieredCache.handleCacheEntry S "k1" model (Some entry) =
    JS.Ok (Some (DDate (JS.mkDate JS.NaN))).
Proof. split; reflexivity. Qed.

End DateTieredCacheFacts.


(* ================================================================== *)
(** * Part III: further properties of the caches                       *)
(* ================================================================== *)

(** ** Facts about maps and timers *)

Module PlatformProps.
Section Props.
Context {K : Type} `{EqDec K}.

Lemma has_size_pos {A} (m : JsMap.t K A) k :
  JsMap.has k m = true -> (0 < JsMap.size m)%nat.
Proof.
  unfold JsMap.has, JsMap.size. destruct (JsMap.get k m) as [v|] eqn:E; [|discriminate].
  intros _. apply JsMapFacts.get_In in E. destruct (JsMap.entries m); [destruct E|].
  simpl; lia.
Qed.

(** A pending timer is found by its handle. *)
Lemma find_pending (s : Timers.t K) tm :
  Timers.ids_ok s -> In tm (Timers.pending s) ->
  Timers.find (Timers.t_id tm) s = Some tm.
Proof.
  intros [Hnd _]. unfold Timers.find.
  induction (Timers.pending s) as [|tm0 l IH]; intros Hin; [destruct Hin|].
  cbn [map] in Hnd. inversion Hnd as [|? ? Hnotin Hnd']; subst.
  cbn [List.find]. destruct (Nat.eqb_spec (Timers.t_id tm0) (Timers.t_id tm)) as [E|Hne].
  - destruct Hin as [->|Hin]; [reflexivity|].
    exfalso. apply Hnotin. rewrite E. now apply in_map.
  - destruct Hin as [->|Hin]; [congruence | auto].
Qed.


Lemma pending_for_head (s : Timers.t K) k tm :
  Timers.pending_for k s = [tm] -> In tm (Timers.pending s).
Proof.
  intros Hp. assert (Hin : In tm (Timers.pending_for k s)) by (rewrite Hp; simpl; auto).
  now apply TimersFacts.pending_for_In in Hin.
Qed.

(** Cancelling a handle that no timer of [k] carries leaves the timers
    of [k] as they are. *)
Lemma pending_for_clearTimeout_other (s : Timers.t K) k h :
  (forall tm, In tm (Timers.pending s) -> Timers.t_key tm = k -> Timers.t_id tm <> h) ->
  Timers.pending_for k (Timers.clearTimeout h s) = Timers.pending_for k s.
Proof.
  unfold Timers.pending_for, Timers.clearTimeout. cbn [Timers.pending].
  induction (Timers.pending s) as [|tm l IH]; intros Hno; [reflexivity|].
  cbn [filter].
  destruct (Nat.eqb_spec (Timers.t_id tm) h) as [E|Hne]; cbn [negb filter].
  - destruct (eq_dec (Timers.t_key tm) k) as [Hk|Hk].
    + exfalso. apply (Hno tm); simpl; auto.
    + apply IH. intros tm' Htm'. apply Hno. simpl; auto.
  - destruct (eq_dec (Timers.t_key tm) k); [f_equal|];
      apply IH; intros tm' Htm'; apply Hno; simpl; auto.
Qed.

End Props.
End PlatformProps.

(** ** ExpireCache: reads, sweeps, size and the default expiry *)

Module ExpireCacheProps.
Import ExpireCache.
Section Props.
Context {Key Payload : Type} `{EqDec Key} `{Truthy Payload}.
Abbreviation state := (ExpireCache.state Key Payload).

(** What [set] leaves in the two maps. *)
Lemma set_maps now key data exp (st : state) :
  cache (set now key data exp st) = JsMap.set key data (cache st) /\
  cacheTtl (set now key data exp st) =
    JsMap.set key (option_map JS.getTime (getExpireDate now exp st)) (cacheTtl st) /\
  emitted (set now key data exp st) =
    emitted st ++ [EvSet key data (getExpireDate now exp st)] /\
  defaultExpireMs (set now key data exp st) = defaultExpireMs st.
Proof. unfold set. cbn. auto. Qed.

Lemma expired_set now key ts (ttl : JsMap.t Key (option JS.number)) k :
  expired now (JsMap.set key ts ttl) k =
  if eq_dec key k then isExpired now ts else expired now ttl k.
Proof.
  unfold expired. rewrite JsMapFacts.get_set. now destruct (eq_dec key k).
Qed.

Lemma truthyAt_set key data (c : JsMap.t Key Payload) k :
  truthyAt (JsMap.set key data c) k =
  if eq_dec key k then ToBoolean data else truthyAt c k.
Proof.
  unfold truthyAt. rewrite JsMapFacts.get_set. now destruct (eq_dec key k).
Qed.

Lemma get_spec now key (st : state) :
  wfState st ->
  fst (get now key st) =
  if (expired now (cacheTtl st) key && truthyAt (cache st) key)%bool
  then None else JsMap.get key (cache st).
Proof.
  intros [Hc Ht]. unfold get. cbn [fst].
  destruct (@ExpireCacheFacts.cleanExpired_spec _ _ _ _ now (emit (EvGet key) st) Hc Ht)
    as (Ic & _).
  now rewrite Ic.
Qed.

(** X1: a [get] of a key after a [set] of that key returns the payload
    set, at whatever time, unless the expiry the [set] resolved (the date
    given, else the default) is strictly earlier than the time of the
    [get] and the payload is truthy: then it returns [undefined].  The
    [get] of any other key answers as it did before the [set]. *)
Theorem lazy_get_after_set now now' key data exp (st : state) :
  reachable st ->
  fst (get now' key (set now key data exp st)) =
    (if (isExpired now' (option_map JS.getTime (getExpireDate now exp st))
         && ToBoolean data)%bool
     then None else Some data) /\
  (forall k, k <> key ->
             fst (get now' k (set now key data exp st)) = fst (get now' k st)).
Proof.
  intros Hr.
  pose proof (ExpireCacheFacts.reachable_wf Hr) as Hwf.
  pose proof (ExpireCacheFacts.reachable_wf (reach_set now key data exp Hr)) as Hwf'.
  destruct (set_maps now key data exp st) as (Ec & Et & _).
  split.
  - rewrite (get_spec now' key Hwf'), Ec, Et, expired_set, truthyAt_set,
      JsMapFacts.get_set_same.
    destruct (eq_dec key key); [reflexivity | congruence].
  - intros k Hk.
    rewrite (get_spec now' k Hwf'), (get_spec now' k Hwf), Ec, Et, expired_set,
      truthyAt_set, JsMapFacts.get_set_other by congruence.
    destruct (eq_dec key k); [congruence | reflexivity].
Qed.

(** A sweep that finds no timestamp below [now] changes nothing. *)
Lemma cleanLoop_fresh now es :
  forall (st : state) del,
    (forall e, In e es -> isExpired now (snd e) = false) ->
    fold_left (cleanStep now) es (st, del) = (st, del).
Proof.
  induction es as [|[k e] es IH]; intros st del Hf; cbn [fold_left]; auto.
  rewrite ExpireCacheFacts.cleanStep_fresh by (apply (Hf (k, e)); simpl; auto).
  apply IH. intros e' He'. apply Hf. simpl; auto.
Qed.

Lemma cleanExpired_fresh now (st : state) :
  (forall e, In e (JsMap.entries (cacheTtl st)) -> isExpired now (snd e) = false) ->
  cleanExpired now st = st.
Proof.
  intros Hf. unfold cleanExpired. now rewrite cleanLoop_fresh.
Qed.

Lemma isExpired_mono now now' e :
  (now' <= now)%Z -> isExpired now e = false -> isExpired now' e = false.
Proof.
  unfold isExpired, JS.lt. destruct e as [[|x]|]; auto.
  intros Hle Hx. apply Z.ltb_ge in Hx. apply Z.ltb_ge. lia.
Qed.

Lemma swept_leaves_fresh now (st : state) :
  wfState st ->
  forall e, In e (JsMap.entries (cacheTtl (cleanExpired now st))) ->
            isExpired now (snd e) = false.
Proof.
  intros [Hc Ht] [k e] Hin.
  destruct (ExpireCacheFacts.cleanExpired_spec now st Hc Ht) as (_ & It & _ & _ & _ & Ht').
  apply (@JsMapFacts.In_get _ _ _ _ k e Ht') in Hin. rewrite It in Hin.
  unfold expired in Hin.
  destruct (JsMap.get k (cacheTtl st)) as [e0|]; [|discriminate].
  destruct (isExpired now e0) eqn:E; [discriminate|].
  injection Hin as <-. exact E.
Qed.

Lemma sweep_again now now' (st : state) :
  wfState st -> (now' <= now)%Z ->
  cleanExpired now' (cleanExpired now st) = cleanExpired now st.
Proof.
  intros Hwf Hle. apply cleanExpired_fresh. intros e He.
  apply (isExpired_mono _ Hle). exact (@swept_leaves_fresh now st Hwf e He).
Qed.

(** A read is a sweep, after the [get] event when the read is [get]. *)
Lemma afterRead_sweeps now r (st : state) :
  afterRead now r st =
  cleanExpired now
    (mkState (cache st) (cacheTtl st) (defaultExpireMs st)
             (emitted st ++ readEvents r)).
Proof.
  destruct r as [k|k|k| | |]; cbn [afterRead readEvents];
    unfold get, has, expires, entries, keys, values, emit; cbn [snd];
    try rewrite List.app_nil_r; try reflexivity; now destruct st.
Qed.

(** What a sweep takes out: entries that are stored. *)
Lemma swept_In now (c : JsMap.t Key Payload) es k v :
  In (k, v) (swept now c es) ->
  JsMap.get k c = Some v /\ ToBoolean v = true /\
  exists e, In (k, e) es /\ isExpired now e = true.
Proof.
  unfold swept. intros Hin. apply in_flat_map in Hin as ([k0 e] & He & Hin).
  cbn [fst snd] in Hin.
  destruct (isExpired now e) eqn:Hexp; [|destruct Hin].
  destruct (JsMap.get k0 c) as [v0|] eqn:Hg; [|destruct Hin].
  destruct (ToBoolean v0) eqn:Htr; [|destruct Hin].
  destruct Hin as [Heq|[]]. injection Heq as <- <-.
  split; [exact Hg|]. split; [exact Htr|]. exists e. now split.
Qed.

Lemma swept_keys now (c : JsMap.t Key Payload) es :
  NoDup (map fst es) -> NoDup (map fst (swept now c es)).
Proof.
  induction es as [|[k e] es IH]; intros Hnd; cbn [swept flat_map map fst snd].
  - constructor.
  - inversion Hnd as [|? ? Hnotin Hnd']; subst. specialize (IH Hnd').
    fold (swept now c es).
    assert (Hrest : ~ In k (map fst (swept now c es))).
    { intros Hin. apply in_map_iff in Hin as ([k1 v1] & Hk & Hin). cbn in Hk. subst k1.
      apply swept_In in Hin as (_ & _ & e1 & He1 & _).
      apply Hnotin. apply in_map_iff. exists (k, e1). now split. }
    destruct (isExpired now e); [|exact IH].
    destruct (JsMap.get k c) as [v|]; [|exact IH].
    destruct (ToBoolean v); [|exact IH].
    cbn [app map fst]. now constructor.
Qed.

(** The entries a read takes out are not stored afterwards. *)
Lemma swept_gone now (st : state) k :
  wfState st ->
  In k (map fst (swept now (cache st) (JsMap.entries (cacheTtl st)))) ->
  JsMap.get k (cache (cleanExpired now st)) = None.
Proof.
  intros [Hc Ht] Hin. apply in_map_iff in Hin as ([k1 v] & Hk & Hin). cbn in Hk. subst k1.
  apply swept_In in Hin as (Hg & Htr & e & He & Hexp).
  destruct (ExpireCacheFacts.cleanExpired_spec now st Hc Ht) as (Ic & _).
  rewrite Ic. unfold expired, truthyAt.
  rewrite (@JsMapFacts.In_get _ _ _ _ k e Ht He), Hexp, Hg, Htr. reflexivity.
Qed.

(** Reads notify only entries that are stored when they are made. *)
Lemma reads_notify_stored (gone : Key -> Prop) reads :
  forall st : state,
    wfState st ->
    (forall k, gone k -> JsMap.get k (cache st) = None) ->
    exists evs,
      emitted (afterReads reads st) = emitted st ++ evs /\
      forall k v, In (EvExpires k v) evs -> ~ gone k.
Proof.
  unfold afterReads.
  induction reads as [|[now r] reads IH]; intros st Hwf Hgone; cbn [fold_left fst snd].
  - exists []. split; [now rewrite List.app_nil_r | intros k v []].
  - set (st0 := mkState (cache st) (cacheTtl st) (defaultExpireMs st)
                        (emitted st ++ readEvents r)).
    assert (Hwf0 : wfState st0) by exact Hwf.
    destruct Hwf0 as [Hc0 Ht0].
    destruct (ExpireCacheFacts.cleanExpired_spec now st0 Hc0 Ht0)
      as (Ic & _ & Ie & _ & Hc' & Ht').
    rewrite afterRead_sweeps. fold st0.
    destruct (IH (cleanExpired now st0)) as (evs & Hevs & Hno).
    + now split.
    + intros k Hk. rewrite Ic. unfold st0. cbn [cache cacheTtl].
      rewrite (Hgone k Hk).
      now destruct (expired now (cacheTtl st) k && truthyAt (cache st) k)%bool.
    + exists (readEvents r
                ++ expiresEvents (swept now (cache st) (JsMap.entries (cacheTtl st)))
                ++ evs).
      split.
      * rewrite Hevs, Ie. unfold st0. cbn [emitted cache cacheTtl].
        now rewrite <- !List.app_assoc.
      * intros k v Hin Hk. apply in_app_or in Hin as [Hin|Hin].
        { destruct r; cbn in Hin; try contradiction.
          destruct Hin as [Hin|[]]; discriminate. }
        apply in_app_or in Hin as [Hin|Hin]; [|exact (Hno k v Hin Hk)].
        unfold expiresEvents in Hin. apply in_map_iff in Hin as ([k1 v1] & Heq & Hin).
        cbn in Heq. injection Heq as -> ->.
        apply swept_In in Hin as (Hg & _). rewrite (Hgone k Hk) in Hg. discriminate.
Qed.

(** X2: a read notifies as expired the entries it takes out, each
    once, and removes them.  A read that follows at the same or an
    earlier time sweeps nothing: it leaves the state as it is, but for
    the [get] event when it is a [get].  Reads that follow at any times,
    later ones included, never notify again an entry that the first read
    took out: they sweep other entries only. *)
Theorem lazy_entry_expires_once now r (st : state) :
  reachable st ->
  let st1 := afterRead now r st in
  let gone := swept now (cache st) (JsMap.entries (cacheTtl st)) in
  emitted st1 = emitted st ++ readEvents r ++ expiresEvents gone /\
  NoDup (map fst gone) /\
  (forall k, In k (map fst gone) -> JsMap.get k (cache st1) = None) /\
  (forall now' r',
      (now' <= now)%Z ->
      afterRead now' r' st1 =
      match r' with
      | ReadGet key' => emit (EvGet key') st1
      | _ => st1
      end) /\
  (forall reads,
      exists evs,
        emitted (afterReads reads st1) = emitted st1 ++ evs /\
        forall k v, In (EvExpires k v) evs -> ~ In k (map fst gone)).
Proof.
  intros Hr. cbv zeta. pose proof (ExpireCacheFacts.reachable_wf Hr) as Hwf.
  set (st0 := mkState (cache st) (cacheTtl st) (defaultExpireMs st)
                      (emitted st ++ readEvents r)).
  assert (Hwf0 : wfState st0) by exact Hwf.
  pose proof Hwf0 as [Hc0 Ht0].
  destruct (ExpireCacheFacts.cleanExpired_spec now st0 Hc0 Ht0)
    as (_ & _ & Ie & _ & Hc' & Ht').
  rewrite afterRead_sweeps. fold st0.
  split; [|split; [|split; [|split]]].
  - rewrite Ie. unfold st0. cbn [emitted cache cacheTtl].
    now rewrite <- List.app_assoc.
  - apply swept_keys. exact (proj2 Hwf).
  - intros k Hk. exact (@swept_gone now st0 k Hwf0 Hk).
  - intros now' r' Hle.
    assert (Hq : afterRead now' r' (cleanExpired now st0) =
                 mkState (cache (cleanExpired now st0)) (cacheTtl (cleanExpired now st0))
                         (defaultExpireMs (cleanExpired now st0))
                         (emitted (cleanExpired now st0) ++ readEvents r')).
    { rewrite afterRead_sweeps. apply cleanExpired_fresh. cbn [cacheTtl]. intros e He.
      apply (isExpired_mono _ Hle).
      exact (@swept_leaves_fresh now st0 Hwf0 e He). }
    rewrite Hq.
    destruct r' as [k|k|k| | |]; cbn [readEvents]; try reflexivity;
      rewrite List.app_nil_r; now destruct (cleanExpired now st0).
  - intros reads.
    apply (@reads_notify_stored
             (fun k => In k (map fst (swept now (cache st) (JsMap.entries (cacheTtl st)))))
             reads (cleanExpired now st0)); [now split|].
    intros k Hk. exact (@swept_gone now st0 k Hwf0 Hk).
Qed.

(** X3: [clear] emits one [expires] event for every entry stored,
    truthy or not and expired or not, in insertion order, then one
    [clear] event with the copy of the storage; afterwards the cache has
    size 0, [get], [has], [expires] and [entries] find nothing and sweep
    nothing, and the default expiry is as before. *)
Theorem lazy_clear_notifies_and_empties now key (st : state) :
  reachable st ->
  emitted (clear st) =
    emitted st ++ expiresEvents (JsMap.entries (cache st))
               ++ [EvClear (JsMap.copy (cache st))] /\
  JsMap.entries (JsMap.copy (cache st)) = JsMap.entries (cache st) /\
  size (clear st) = 0%nat /\
  get now key (clear st) = (None, emit (EvGet key) (clear st)) /\
  has now key (clear st) = (false, clear st) /\
  fst (expires now key (clear st)) = None /\
  entries now (clear st) = ([], clear st) /\
  defaultExpireMs (clear st) = defaultExpireMs st.
Proof.
  intros Hr. destruct (ExpireCacheFacts.reachable_wf Hr) as [Hc Ht].
  assert (Hfresh : forall (evs : list (event Key Payload)),
             cleanExpired now
               (mkState (JsMap.clear (cache st)) (JsMap.clear (cacheTtl st))
                        (defaultExpireMs st) evs) =
             mkState (JsMap.clear (cache st)) (JsMap.clear (cacheTtl st))
                     (defaultExpireMs st) evs).
  { intros evs. apply cleanExpired_fresh. cbn [cacheTtl].
    rewrite JsMapFacts.entries_clear. intros e []. }
  unfold clear. rewrite ExpireCacheFacts.notifyExpires_spec.
  cbn [emit cache cacheTtl defaultExpireMs emitted].
  rewrite (ExpireCacheFacts.entries_copy Hc).
  split; [now rewrite <- List.app_assoc|]. split; [reflexivity|].
  split; [unfold size, JsMap.size; cbn [cache]; now rewrite JsMapFacts.entries_clear|].
  unfold get, has, expires, entries, emit, JsMap.has.
  cbn [cache cacheTtl defaultExpireMs emitted].
  rewrite !Hfresh. cbn [cache fst snd].
  rewrite !JsMapFacts.get_clear.
  unfold JsMap.copy. rewrite JsMapFacts.entries_clear. repeat split.
Qed.


(** The size of the storage along the loop of the sweep. *)
Lemma cleanLoop_size now es :
  forall (st : state) del,
    NoDup (map fst es) -> JsMap.wf (cache st) ->
    (JsMap.size (cache (fst (fold_left (cleanStep now) es (st, del))))
     + List.length (swept now (cache st) es) = JsMap.size (cache st))%nat.
Proof.
  induction es as [|[key expire] es IH]; intros st del Hnd Hwc; cbn [fold_left].
  - simpl. lia.
  - inversion Hnd as [|? ? Hnotin Hnd']; subst. simpl in Hnotin.
    destruct (isExpired now expire) eqn:Hexp.
    + rewrite ExpireCacheFacts.cleanStep_expired by exact Hexp.
      set (c1 := if truthyAt (cache st) key
                 then snd (JsMap.delete key (cache st)) else cache st).
      set (st1 := mkState c1 (snd (JsMap.delete key (cacheTtl st)))
                          (defaultExpireMs st) (emitted st)).
      assert (Hwc1 : JsMap.wf c1).
      { unfold c1. destruct (truthyAt (cache st) key); auto.
        now apply JsMapFacts.wf_delete. }
      assert (Hext : swept now c1 es = swept now (cache st) es).
      { apply ExpireCacheFacts.swept_ext. intros k Hk. unfold c1.
        destruct (truthyAt (cache st) key); auto.
        rewrite JsMapFacts.get_delete by exact Hwc.
        destruct (eq_dec key k) as [->|]; [contradiction | reflexivity]. }
      specialize (IH st1 (match JsMap.get key (cache st) with
                          | Some v => if ToBoolean v then JsMap.set key v del else del
                          | None => del
                          end) Hnd' Hwc1).
      cbn [cache st1] in IH. rewrite Hext in IH.
      unfold swept at 1. cbn [flat_map fst snd]. rewrite Hexp.
      fold (swept now (cache st) es). rewrite length_app.
      unfold c1, truthyAt in IH |- *.
      destruct (JsMap.get key (cache st)) as [v|] eqn:Hg; [|simpl; lia].
      destruct (ToBoolean v); [|simpl; lia].
      rewrite JsMapFacts.size_delete in IH.
      assert (Hh : JsMap.has key (cache st) = true) by (unfold JsMap.has; now rewrite Hg).
      rewrite Hh in IH. pose proof (PlatformProps.has_size_pos _ _ Hh). simpl. lia.
    + rewrite ExpireCacheFacts.cleanStep_fresh by exact Hexp.
      specialize (IH st del Hnd' Hwc).
      unfold swept at 1. cbn [flat_map fst snd]. rewrite Hexp. exact IH.
Qed.

Lemma cleanExpired_size now (st : state) :
  wfState st ->
  (JsMap.size (cache (cleanExpired now st))
   + List.length (swept now (cache st) (JsMap.entries (cacheTtl st)))
   = JsMap.size (cache st))%nat.
Proof.
  intros [Hc Ht].
  pose proof (@cleanLoop_size now (JsMap.entries (cacheTtl st)) st JsMap.empty Ht Hc) as L.
  unfold cleanExpired.
  destruct (fold_left (cleanStep now) (JsMap.entries (cacheTtl st)) (st, JsMap.empty))
    as [st1 del]. cbn [fst] in L.
  destruct (Nat.ltb 0 (JsMap.size del)); [|exact L].
  now rewrite ExpireCacheFacts.notifyExpires_spec.
Qed.

(** X4: [size()] does not sweep: it counts the entries stored,
    among them those whose expiry has passed and that no read has swept
    yet.  It exceeds the size found after a read at [now] by exactly the
    number of entries that read takes out, each of which that read
    notifies as expired. *)
Theorem lazy_size_counts_unswept now (st : state) :
  reachable st ->
  let gone := swept now (cache st) (JsMap.entries (cacheTtl st)) in
  size st = size (snd (entries now st)) + List.length gone /\
  List.length (fst (entries now st)) = size (snd (entries now st)) /\
  emitted (snd (entries now st)) = emitted st ++ expiresEvents gone.
Proof.
  intros Hr. cbv zeta. pose proof (ExpireCacheFacts.reachable_wf Hr) as Hwf.
  pose proof (cleanExpired_size now Hwf) as Hs.
  destruct Hwf as [Hc Ht].
  destruct (ExpireCacheFacts.cleanExpired_spec now st Hc Ht) as (_ & _ & Ie & _ & Hc' & _).
  unfold size, entries. cbn [fst snd].
  split; [lia|]. split; [|exact Ie].
  now rewrite (ExpireCacheFacts.entries_copy Hc').
Qed.

(** X5: [expires(key)] answers from the timestamp it reads before
    it sweeps.  For an entry set with a valid expiry date other than the
    epoch it returns that date, also when the date is already past and
    the same call sweeps the entry; the next call then returns
    [undefined], while [has] still finds the entry exactly when its
    payload is falsy.  For an expiry at the epoch (timestamp 0) or an
    invalid date it returns [undefined]. *)
Theorem lazy_expires_reads_before_sweep now now' key data d t (st : state) :
  reachable st ->
  JS.getTime d = JS.Num t -> (Z.abs t <= JS.maxTime)%Z -> t <> 0%Z ->
  let st1 := set now key data (Some d) st in
  fst (expires now' key st1) = Some d /\
  ((t < now')%Z ->
   fst (expires now' key (snd (expires now' key st1))) = None /\
   fst (has now' key (snd (expires now' key st1))) = negb (ToBoolean data)) /\
  fst (expires now' key (set now key data (Some (JS.newDate (JS.Num 0))) st)) = None /\
  fst (expires now' key (set now key data (Some (JS.mkDate JS.NaN)) st)) = None.
Proof.
  intros Hr Hd Hrange Hnz. cbv zeta.
  pose proof (ExpireCacheFacts.reachable_wf (reach_set now key data (Some d) Hr))
    as [Hc Ht].
  assert (Httl : forall d', JsMap.get key (cacheTtl (set now key data (Some d') st)) =
                            Some (Some (JS.getTime d'))).
  { intros d'. unfold set. cbn. apply JsMapFacts.get_set_same. }
  split; [|split; [|split]].
  - unfold expires. cbn [fst]. rewrite Httl, Hd.
    unfold ToBoolean, JS.number_Truthy.
    destruct (Z.eqb_spec t 0) as [->|_]; [congruence|]. cbn [negb].
    unfold JS.newDate, JS.TimeClip.
    destruct (Z.ltb_spec JS.maxTime (Z.abs t)) as [Hgt|_]; [lia|].
    destruct d as [g]. cbn in Hd. now rewrite Hd.
  - intros Hlt.
    destruct (ExpireCacheFacts.cleanExpired_spec now' _ Hc Ht) as (Ic & It & _).
    assert (Hexp : expired now' (cacheTtl (set now key data (Some d) st)) key = true).
    { unfold expired. rewrite Httl, Hd. cbn. now apply Z.ltb_lt. }
    split.
    + unfold expires at 1. cbn [fst]. unfold expires at 1. cbn [snd].
      now rewrite It, Hexp.
    + unfold has at 1. cbn [fst]. unfold expires at 1. cbn [snd].
      pose proof (ExpireCacheFacts.cleanExpired_wf now' (conj Hc Ht)) as [Hc' Ht'].
      rewrite (sweep_again (conj Hc Ht) (Z.le_refl now')).
      unfold JsMap.has. rewrite Ic, Hexp. unfold truthyAt, set. cbn [cache emit].
      rewrite JsMapFacts.get_set_same. now destruct (ToBoolean data).
  - unfold expires. cbn [fst]. now rewrite Httl.
  - unfold expires. cbn [fst]. now rewrite Httl.
Qed.

(** X6: with a default expiry of [ms] milliseconds other than 0, an
    entry set at [now] without [expires] gets the timestamp [now + ms]:
    a [get] returns it up to that time and, for a truthy payload,
    [undefined] after it.  An [expires] argument always takes precedence
    over the default. *)
Theorem lazy_default_expiry_applies now later key data ms (st : state) :
  reachable st ->
  defaultExpireMs st = Some (JS.Num ms) -> ms <> 0%Z ->
  (Z.abs (now + ms) <= JS.maxTime)%Z ->
  let st1 := set now key data None st in
  JsMap.get key (cacheTtl st1) = Some (Some (JS.Num (now + ms))) /\
  fst (get later key st1) =
    (if ((now + ms <? later)%Z && ToBoolean data)%bool then None else Some data) /\
  (forall d, JsMap.get key (cacheTtl (set now key data (Some d) st)) =
             Some (Some (JS.getTime d))).
Proof.
  intros Hr Hdef Hnz Hrange. cbv zeta.
  assert (Hd : getExpireDate now None st = Some (JS.mkDate (JS.Num (now + ms)))).
  { unfold getExpireDate. rewrite Hdef. unfold ToBoolean, JS.number_Truthy.
    destruct (Z.eqb_spec ms 0) as [->|_]; [congruence|]. cbn [negb JS.add].
    unfold JS.newDate, JS.TimeClip.
    now destruct (Z.ltb_spec JS.maxTime (Z.abs (now + ms))) as [Hgt|_]; [lia|]. }
  split; [|split].
  - unfold set. cbn [cacheTtl emit]. rewrite Hd. apply JsMapFacts.get_set_same.
  - pose proof (ExpireCacheFacts.reachable_wf (reach_set now key data None Hr)) as Hwf'.
    destruct (set_maps now key data None st) as (Ec & Et & _).
    rewrite (get_spec later key Hwf'), Ec, Et, expired_set, truthyAt_set,
      JsMapFacts.get_set_same, Hd.
    destruct (eq_dec key key); [reflexivity | congruence].
  - intros d. unfold set. cbn. apply JsMapFacts.get_set_same.
Qed.

End Props.

Section Witnesses.
#[local] Open Scope string_scope.

Lemma lazy_get_after_set_witness :
  fst (get 100 "k" oneEntry) = Some "v" /\ fst (get 101 "k" oneEntry) = None.
Proof.
  split.
  - exact (proj1 (@lazy_get_after_set string string _ _ 0 100 "k" "v"
                    (Some (JS.newDate (JS.Num 100))) (create None) (reach_create None))).
  - exact (proj1 (@lazy_get_after_set string string _ _ 0 101 "k" "v"
                    (Some (JS.newDate (JS.Num 100))) (create None) (reach_create None))).
Defined.

Lemma lazy_entry_expires_once_witness :
  emitted (snd (has 200 "k" oneEntry)) = (emitted oneEntry ++ [EvExpires "k" "v"])%list /\
  JsMap.get "k" (cache (snd (has 200 "k" oneEntry))) = None /\
  snd (has 150 "k" (snd (has 200 "k" oneEntry))) = snd (has 200 "k" oneEntry) /\
  snd (get 150 "k" (snd (has 200 "k" oneEntry))) =
    emit (EvGet "k") (snd (has 200 "k" oneEntry)) /\
  exists evs,
    emitted (afterReads [(250%Z, ReadEntries); (300%Z, ReadGet "k")]
                        (snd (has 200 "k" oneEntry))) =
      (emitted (snd (has 200 "k" oneEntry)) ++ evs)%list /\
    forall k v, In (EvExpires k v) evs -> ~ In k ["k"].
Proof.
  assert (Hr : reachable oneEntry) by (apply reach_set, reach_create).
  assert (Hle : (150 <= 200)%Z) by lia.
  pose proof (@lazy_entry_expires_once string string _ _ 200 (ReadHas "k") oneEntry Hr)
    as (Hev & _ & Hgone & Hsame & Hlater).
  split; [exact Hev|]. split; [exact (Hgone "k" (or_introl eq_refl))|].
  split; [exact (Hsame 150%Z (ReadHas "k") Hle)|].
  split; [exact (Hsame 150%Z (ReadGet "k") Hle)|].
  exact (Hlater [(250%Z, ReadEntries); (300%Z, ReadGet "k")]).
Defined.

Lemma lazy_clear_notifies_and_empties_witness :
  emitted (clear oneEntry) =
    (emitted oneEntry ++
     [EvExpires "k" "v"; EvClear (JsMap.copy (cache oneEntry))])%list /\
  size (clear oneEntry) = 0%nat.
Proof.
  assert (Hr : reachable oneEntry) by (apply reach_set, reach_create).
  pose proof (@lazy_clear_notifies_and_empties string string _ _ 0 "k" oneEntry Hr)
    as (He & _ & Hs & _).
  split; [exact He | exact Hs].
Defined.

Lemma lazy_size_counts_unswept_witness :
  size oneEntry = 1%nat /\ fst (entries 101 oneEntry) = [] /\
  size oneEntry = (size (snd (entries 101 oneEntry)) + 1)%nat.
Proof.
  assert (Hr : reachable oneEntry) by (apply reach_set, reach_create).
  pose proof (@lazy_size_counts_unswept string string _ _ 101 oneEntry Hr) as (Hs & _).
  split; [reflexivity|]. split; [reflexivity | exact Hs].
Defined.

Lemma lazy_expires_reads_before_sweep_witness :
  fst (expires 101 "k" oneEntry) = Some (JS.newDate (JS.Num 100)) /\
  fst (expires 101 "k" (snd (expires 101 "k" oneEntry))) = None.
Proof.
  assert (Hrange : (Z.abs 100 <= JS.maxTime)%Z) by (unfold JS.maxTime; lia).
  assert (Hnz : 100%Z <> 0%Z) by lia.
  assert (Hlt : (100 < 101)%Z) by lia.
  pose proof (@lazy_expires_reads_before_sweep string string _ _ 0 101 "k" "v"
                (JS.newDate (JS.Num 100)) 100 (create None) (reach_create None)
                eq_refl Hrange Hnz) as (H1 & H2 & _).
  split; [exact H1 | exact (proj1 (H2 Hlt))].
Defined.

Lemma lazy_default_expiry_applies_witness :
  JsMap.get "k" (cacheTtl (set 5 "k" "v" None (create (Some (JS.Num 1000))))) =
    Some (Some (JS.Num 1005)) /\
  fst (get 1006 "k" (set 5 "k" "v" None (create (Some (JS.Num 1000))))) = None.
Proof.
  assert (Hnz : 1000%Z <> 0%Z) by lia.
  assert (Hrange : (Z.abs (5 + 1000) <= JS.maxTime)%Z) by (unfold JS.maxTime; lia).
  pose proof (@lazy_default_expiry_applies string string _ _ 5 1006 "k" "v" 1000
                (create (Some (JS.Num 1000))) (reach_create _) eq_refl Hnz Hrange)
    as (H1 & H2 & _).
  split; [exact H1 | exact H2].
Defined.

End Witnesses.
End ExpireCacheProps.

(** ** ExpireTimeoutCache: the life of an entry and of its timer *)

Module ExpireTimeoutCacheProps.
Import ExpireTimeoutCache.
Section Props.
Context {Key Payload : Type} `{EqDec Key} `{Truthy Payload}.
Abbreviation state := (ExpireTimeoutCache.state Key Payload).

Lemma expires_clearTimeout k key (st : state) :
  expires k (clearTimeout key st) = expires k st.
Proof.
  unfold expires, clearTimeout.
  destruct (JsMap.get key (cacheTimeout st)) as [entry|] eqn:Hg; [|reflexivity].
  destruct (timeout entry); [|reflexivity].
  cbn [cacheTimeout]. rewrite JsMapFacts.get_set.
  destruct (eq_dec key k) as [<-|]; [now rewrite Hg | reflexivity].
Qed.

(** [delete] touches the timers and the recorded objects only through
    [clearTimeout]. *)
Lemma delete_frame key (st : state) :
  timers (snd (delete key st)) = timers (clearTimeout key st) /\
  cacheTimeout (snd (delete key st)) = cacheTimeout (clearTimeout key st) /\
  defaultExpireMs (snd (delete key st)) = defaultExpireMs st.
Proof.
  unfold delete.
  destruct (ExpireTimeoutCacheFacts.clearTimeout_frame key st) as (_ & Ed & _).
  destruct (JsMap.get key (cache (clearTimeout key st))) as [e|].
  - destruct (ToBoolean e).
    + rewrite ExpireTimeoutCacheFacts.timed_notifyExpires_spec. cbn [cache emit].
      destruct (JsMap.delete key _). cbn. auto.
    + destruct (JsMap.delete key _). cbn. auto.
  - destruct (JsMap.delete key _). cbn. auto.
Qed.

Lemma expires_delete k key (st : state) :
  expires k (snd (delete key st)) = expires k st.
Proof.
  destruct (delete_frame key st) as (_ & Ec & _).
  unfold expires at 1. rewrite Ec. apply expires_clearTimeout.
Qed.

Lemma set_frame now key data exp (st : state) :
  cache (set now key data exp st) = JsMap.set key data (cache st) /\
  emitted (set now key data exp st) = emitted st /\
  defaultExpireMs (set now key data exp st) = defaultExpireMs st /\
  expires key (set now key data exp st) = getExpireDate now exp st /\
  (forall tm, In tm (Timers.pending (timers (set now key data exp st))) ->
              In tm (Timers.pending (timers (clearTimeout key st))) \/
              Timers.t_key tm = key).
Proof.
  destruct (ExpireTimeoutCacheFacts.clearTimeout_frame key st) as (Ec & Ed & Ee & _).
  assert (Hdate : getExpireDate now exp (clearTimeout key st) =
                  getExpireDate now exp st).
  { unfold getExpireDate. now rewrite Ed. }
  unfold set, handleTimeoutSetup, expires. rewrite Hdate.
  destruct (getExpireDate now exp st) as [d|];
    cbn [option_map fst snd cache cacheTimeout timers emitted defaultExpireMs
         Timers.setTimeout Timers.pending Timers.next_id];
    rewrite JsMapFacts.get_set_same; cbn [expires_at];
    (split; [now rewrite Ec|]); (split; [exact Ee|]); (split; [exact Ed|]);
    (split; [reflexivity|]).
  - intros tm Htm. apply in_app_iff in Htm as [Htm | [<- | []]]; auto.
  - auto.
Qed.

(** The state in which the callback of a fired timer runs. *)
Lemma fired_invariant id (st : state) :
  invariant st ->
  invariant (mkState (cache st) (cacheTimeout st) (defaultExpireMs st)
                     (Timers.clearTimeout id (timers st)) (emitted st)).
Proof.
  intros (Hwf & Hids & Hrec). split; [exact Hwf|]. split.
  - now apply TimersFacts.ids_ok_clearTimeout.
  - intros tm Htm. apply TimersFacts.In_clearTimeout in Htm as [Htm _].
    exact (Hrec tm Htm).
Qed.

(** X7: a [set] with an expiry date emits nothing, stores the
    entry and arms one timer for the key, due after the clamped delay
    [expiry - now].  [get] returns the payload and [expires] the date;
    the timer cannot fire before it is due; when it fires, the entry is
    removed, no timer is left for the key, [delete] and [expires] events
    are emitted if the payload is truthy and none otherwise, and
    [expires(key)] still answers the date. *)
Theorem timed_entry_lives_until_its_timer now now' key data d (st : state) :
  reachable st ->
  let st1 := set now key data (Some d) st in
  let h := Timers.next_id (timers st) in
  let due := (now + Timers.delay_of (JS.sub (JS.getTime d) (JS.Num now)))%Z in
  fst (get key st1) = Some data /\
  expires key st1 = Some d /\
  emitted st1 = emitted st /\
  Timers.pending_for key (timers st1) = [Timers.mkTimer h key due] /\
  ((now' < due)%Z -> fire now' h st1 = None) /\
  ((due <= now')%Z ->
   exists st2, fire now' h st1 = Some st2 /\
               has key st2 = false /\
               Timers.pending_for key (timers st2) = [] /\
               emitted st2 =
                 emitted st ++
                 (if ToBoolean data then [EvDelete key; EvExpires key data] else []) /\
               expires key st2 = Some d).
Proof.
  intros Hr. cbv zeta.
  pose proof (ExpireTimeoutCacheFacts.reachable_invariant Hr) as Hinv.
  destruct (ExpireTimeoutCacheFacts.set_spec now key data (Some d) Hinv) as (Hinv1 & Hp).
  cbn [getExpireDate] in Hp.
  destruct (set_frame now key data (Some d) st) as (Ec & Ee & _ & Hex & _).
  cbn [getExpireDate] in Hex.
  set (st1 := set now key data (Some d) st) in *.
  set (tm := Timers.mkTimer (Timers.next_id (timers st)) key
               (now + Timers.delay_of (JS.sub (JS.getTime d) (JS.Num now)))) in *.
  assert (Hin : In tm (Timers.pending (timers st1))).
  { assert (Hin : In tm (Timers.pending_for key (timers st1)))
      by (rewrite Hp; simpl; auto).
    now apply TimersFacts.pending_for_In in Hin. }
  assert (Hfind : Timers.find (Timers.next_id (timers st)) (timers st1) = Some tm).
  { destruct Hinv1 as (_ & Hids & _). exact (@PlatformProps.find_pending _ _ tm Hids Hin). }
  assert (Hget : JsMap.get key (cache st1) = Some data)
    by (rewrite Ec; apply JsMapFacts.get_set_same).
  split; [exact Hget|]. split; [exact Hex|]. split; [exact Ee|]. split; [exact Hp|].
  split.
  - intros Hlt. unfold fire, Timers.fire. rewrite Hfind. cbn [Timers.t_due tm].
    destruct (Z.leb_spec (now + Timers.delay_of (JS.sub (JS.getTime d) (JS.Num now)))
                         now'); [lia | reflexivity].
  - intros Hle.
    set (mid := mkState (cache st1) (cacheTimeout st1) (defaultExpireMs st1)
                        (Timers.clearTimeout (Timers.next_id (timers st)) (timers st1))
                        (emitted st1)).
    exists (snd (delete key mid)).
    pose proof (fired_invariant (Timers.next_id (timers st)) Hinv1) as Hmid.
    fold mid in Hmid.
    destruct (ExpireTimeoutCacheFacts.delete_spec key Hmid)
      as (_ & Hnone & _ & Hgone & _ & Hev).
    split; [|split; [|split; [|split]]].
    + unfold fire, Timers.fire. rewrite Hfind. cbn [Timers.t_due Timers.t_key tm].
      destruct (Z.leb_spec (now + Timers.delay_of (JS.sub (JS.getTime d) (JS.Num now)))
                           now'); [reflexivity | lia].
    + exact Hgone.
    + exact Hnone.
    + rewrite Hev. cbn [mid cache emitted]. now rewrite Hget, Ee.
    + rewrite expires_delete. exact Hex.
Qed.

Lemma delete_no_orphan key (st : state) :
  invariant st ->
  (forall tm, In tm (Timers.pending (timers st)) ->
              JsMap.has (Timers.t_key tm) (cache st) = true) ->
  forall tm, In tm (Timers.pending (timers (snd (delete key st)))) ->
             JsMap.has (Timers.t_key tm) (cache (snd (delete key st))) = true.
Proof.
  intros Hinv Hown tm Htm.
  destruct (ExpireTimeoutCacheFacts.delete_spec key Hinv)
    as (_ & Hnone & _ & _ & Hother & _).
  destruct (delete_frame key st) as (Et & _).
  destruct (ExpireTimeoutCacheFacts.clearTimeout_frame key st) as (_ & _ & _ & Hsub & _).
  assert (Hk : Timers.t_key tm <> key).
  { intros Hk.
    assert (Hin : In tm (Timers.pending_for key (timers (snd (delete key st)))))
      by (apply TimersFacts.pending_for_In; auto).
    rewrite Hnone in Hin. destruct Hin. }
  unfold JsMap.has. rewrite Hother by exact Hk.
  apply Hown. apply Hsub. now rewrite <- Et.
Qed.

(** X8: in every state the cache can reach, every pending timer
    belongs to a key that is stored: [delete], [clear] and the firing of
    a timer leave no timer behind for an entry that is gone. *)
Theorem timed_no_orphan_timer (st : state) :
  reachable st ->
  forall tm, In tm (Timers.pending (timers st)) -> has (Timers.t_key tm) st = true.
Proof.
  unfold has.
  induction 1 as [d | d st _ IH | now key data exp st Hr IH | key st _ IH
                 | key st Hr IH | st Hr IH | now id st st' Hr IH Hf].
  - intros tm [].
  - exact IH.
  - intros tm Htm.
    pose proof (ExpireTimeoutCacheFacts.reachable_invariant Hr) as Hinv.
    destruct (ExpireTimeoutCacheFacts.clearTimeout_spec key Hinv) as (_ & Hnone).
    destruct (ExpireTimeoutCacheFacts.clearTimeout_frame key st) as (_ & _ & _ & Hsub & _).
    destruct (set_frame now key data exp st) as (Ec & _ & _ & _ & Hp).
    unfold JsMap.has. rewrite Ec, JsMapFacts.get_set.
    destruct (eq_dec key (Timers.t_key tm)) as [E|Hne]; [reflexivity|].
    destruct (Hp tm Htm) as [Hold | Hk]; [|congruence].
    apply Hsub in Hold. apply (IH tm Hold).
  - exact IH.
  - apply delete_no_orphan; [|exact IH].
    now apply ExpireTimeoutCacheFacts.reachable_invariant.
  - intros tm Htm.
    destruct (ExpireTimeoutCacheFacts.clear_spec
                (ExpireTimeoutCacheFacts.reachable_invariant Hr)) as (_ & Hnil).
    rewrite Hnil in Htm. destruct Htm.
  - pose proof (ExpireTimeoutCacheFacts.reachable_invariant Hr) as Hinv.
    unfold fire in Hf.
    destruct (Timers.fire now id (timers st)) as [[key tm']|] eqn:F; [|discriminate].
    injection Hf as <-.
    apply TimersFacts.fire_spec in F as (-> & _).
    unfold handleExpiredCallback.
    apply delete_no_orphan; [now apply fired_invariant|].
    cbn [cache timers]. intros tm Htm.
    apply TimersFacts.In_clearTimeout in Htm as [Htm _]. now apply IH.
Qed.

(** X9: [clear] cancels every pending timer, emits one [expires]
    event for every entry stored, in insertion order, then one [clear]
    event with the copy of the storage; afterwards the cache has size 0,
    [get], [has], [expires] and [entries] find nothing, and the default
    expiry is as before. *)
Theorem timed_clear_cancels_everything key (st : state) :
  reachable st ->
  Timers.pending (timers (clear st)) = [] /\
  emitted (clear st) =
    emitted st ++ expiresEvents (JsMap.entries (cache st))
               ++ [EvClear (JsMap.copy (cache st))] /\
  size (clear st) = 0%nat /\
  get key (clear st) = (None, emit (EvGet key) (clear st)) /\
  has key (clear st) = false /\
  expires key (clear st) = None /\
  entries (clear st) = [] /\
  defaultExpireMs (clear st) = defaultExpireMs st.
Proof.
  intros Hr. pose proof (ExpireTimeoutCacheFacts.reachable_invariant Hr) as Hinv.
  destruct (ExpireTimeoutCacheFacts.clear_spec Hinv) as (_ & Hnil).
  split; [exact Hnil|].
  pose proof (ExpireTimeoutCacheFacts.clearAll_spec
                (JsMap.entries (cacheTimeout st)) Hinv) as L.
  cbv zeta in L. destruct L as (_ & _ & Ec & Ee & Ed).
  destruct Hinv as (Hwf & _).
  unfold clear, get, has, expires, entries, size, JsMap.has, JsMap.size, JsMap.copy.
  rewrite ExpireTimeoutCacheFacts.timed_notifyExpires_spec.
  cbn [emit cache cacheTimeout defaultExpireMs emitted timers fst snd].
  rewrite !JsMapFacts.get_clear, !JsMapFacts.entries_clear, Ec, Ee, Ed.
  fold (JsMap.copy (cache st)). rewrite (ExpireCacheFacts.entries_copy Hwf).
  rewrite <- List.app_assoc. repeat split.
Qed.

(** X10: [delete] and the firing of a timer leave the recorded
    expiry dates as they are: after an entry set with an expiry date is
    deleted, [has] and [get] no longer find it and [expires(key)] still
    returns its date. *)
Theorem timed_expires_outlives_entry now key data d k id (st : state) :
  reachable st ->
  expires k (snd (delete key st)) = expires k st /\
  (forall st', fire now id st = Some st' -> expires k st' = expires k st) /\
  (let st' := snd (delete key (set now key data (Some d) st)) in
   has key st' = false /\ fst (get key st') = None /\ expires key st' = Some d).
Proof.
  intros Hr. split; [apply expires_delete|]. split.
  - intros st' Hf. unfold fire in Hf.
    destruct (Timers.fire now id (timers st)) as [[key' tm']|]; [|discriminate].
    injection Hf as <-. unfold handleExpiredCallback. now rewrite expires_delete.
  - cbv zeta.
    pose proof (ExpireTimeoutCacheFacts.reachable_invariant
                  (reach_set now key data (Some d) Hr)) as Hinv.
    destruct (ExpireTimeoutCacheFacts.delete_spec key Hinv) as (_ & _ & _ & Hgone & _).
    destruct (set_frame now key data (Some d) st) as (_ & _ & _ & Hex & _).
    split; [exact Hgone|]. split.
    + unfold get. cbn [fst emit cache]. now apply JsMapFacts.has_false.
    + rewrite expires_delete. exact Hex.
Qed.

(** X11: with a default expiry of [ms] milliseconds other than 0, a
    [set] at [now] without [expires] records the date [now + ms] and arms
    the timer of the key with the delay [ms], clamped as the platform
    does.  An [expires] argument always takes precedence over the
    default. *)
Theorem timed_default_expiry_applies now key data ms (st : state) :
  reachable st ->
  defaultExpireMs st = Some (JS.Num ms) -> ms <> 0%Z ->
  (Z.abs (now + ms) <= JS.maxTime)%Z ->
  let st1 := set now key data None st in
  expires key st1 = Some (JS.mkDate (JS.Num (now + ms))) /\
  Timers.pending_for key (timers st1) =
    [Timers.mkTimer (Timers.next_id (timers st)) key
                    (now + Timers.delay_of (JS.Num ms))] /\
  (forall d, expires key (set now key data (Some d) st) = Some d).
Proof.
  intros Hr Hdef Hnz Hrange. cbv zeta.
  assert (Hd : getExpireDate now None st = Some (JS.mkDate (JS.Num (now + ms)))).
  { unfold getExpireDate. rewrite Hdef. unfold ToBoolean, JS.number_Truthy.
    destruct (Z.eqb_spec ms 0) as [->|_]; [congruence|]. cbn [negb JS.add].
    unfold JS.newDate, JS.TimeClip.
    now destruct (Z.ltb_spec JS.maxTime (Z.abs (now + ms))) as [Hgt|_]; [lia|]. }
  pose proof (ExpireTimeoutCacheFacts.reachable_invariant Hr) as Hinv.
  destruct (ExpireTimeoutCacheFacts.set_spec now key data None Hinv) as (_ & Hp).
  destruct (set_frame now key data None st) as (_ & _ & _ & Hex & _).
  split; [now rewrite Hex|]. split.
  - rewrite Hp, Hd. cbn [JS.getTime JS.sub].
    now replace (now + ms - now)%Z with ms by lia.
  - intros d. now destruct (set_frame now key data (Some d) st) as (_ & _ & _ & Hex' & _).
Qed.

End Props.

Section Witnesses.
#[local] Open Scope string_scope.

Lemma timed_entry_lives_until_its_timer_witness :
  fire 99 1 timedArmed = None /\
  option_map (has "k") (fire 100 1 timedArmed) = Some false.
Proof.
  pose proof (@timed_entry_lives_until_its_timer string string _ _ 0 99 "k" "v"
                (JS.newDate (JS.Num 100)) (create None) (reach_create None))
    as (_ & _ & _ & _ & Hearly & _).
  pose proof (@timed_entry_lives_until_its_timer string string _ _ 0 100 "k" "v"
                (JS.newDate (JS.Num 100)) (create None) (reach_create None))
    as (_ & _ & _ & _ & _ & Hdue).
  assert (H1 : (99 < 0 + Timers.delay_of
                           (JS.sub (JS.getTime (JS.newDate (JS.Num 100))) (JS.Num 0)))%Z)
    by (cbn; lia).
  assert (H2 : (0 + Timers.delay_of
                      (JS.sub (JS.getTime (JS.newDate (JS.Num 100))) (JS.Num 0)) <= 100)%Z)
    by (cbn; lia).
  split; [exact (Hearly H1)|].
  destruct (Hdue H2) as (st2 & Hf & Hgone & _).
  change (fire 100 1 timedArmed) with
    (fire 100 (Timers.next_id (timers (create None : state string string)))
          (set 0 "k" "v" (Some (JS.newDate (JS.Num 100))) (create None))).
  rewrite Hf. cbn [option_map]. now rewrite Hgone.
Defined.

Lemma timed_no_orphan_timer_witness :
  has "k" timedArmed = true.
Proof.
  assert (Hr : reachable timedArmed) by (apply reach_set, reach_create).
  assert (Hin : In (Timers.mkTimer 1 "k" 100) (Timers.pending (timers timedArmed)))
    by (simpl; auto).
  exact (@timed_no_orphan_timer string string _ _ timedArmed Hr _ Hin).
Defined.

Lemma timed_clear_cancels_everything_witness :
  Timers.pending (timers (clear timedArmed)) = [] /\ size (clear timedArmed) = 0%nat.
Proof.
  assert (Hr : reachable timedArmed) by (apply reach_set, reach_create).
  pose proof (@timed_clear_cancels_everything string string _ _ "k" timedArmed Hr)
    as (Hp & _ & Hs & _).
  split; [exact Hp | exact Hs].
Defined.

Lemma timed_expires_outlives_entry_witness :
  has "k" (snd (delete "k" timedArmed)) = false /\
  expires "k" (snd (delete "k" timedArmed)) = Some (JS.newDate (JS.Num 100)).
Proof.
  pose proof (@timed_expires_outlives_entry string string _ _ 0 "k" "v"
                (JS.newDate (JS.Num 100)) "k" 1%nat (create None) (reach_create None))
    as (_ & _ & Hh & _ & He).
  split; [exact Hh | exact He].
Defined.

Lemma timed_default_expiry_applies_witness :
  Timers.pending_for "k"
    (timers (set 5 "k" "v" None (create (Some (JS.Num 1000))))) =
    [Timers.mkTimer 1 "k" 1005].
Proof.
  assert (Hnz : 1000%Z <> 0%Z) by lia.
  assert (Hrange : (Z.abs (5 + 1000) <= JS.maxTime)%Z) by (unfold JS.maxTime; lia).
  exact (proj1 (proj2 (@timed_default_expiry_applies string string _ _ 5 "k" "v" 1000
                         (create (Some (JS.Num 1000))) (reach_create _) eq_refl
                         Hnz Hrange))).
Defined.

End Witnesses.
End ExpireTimeoutCacheProps.

(** ** ExpireTimeoutCache: keys do not interfere *)

Module ExpireTimeoutCacheIsolation.
Import ExpireTimeoutCache.
Section Props.
Context {Key Payload : Type} `{EqDec Key} `{Truthy Payload}.
Abbreviation state := (ExpireTimeoutCache.state Key Payload).

Lemma exclusive_clearTimeout key (st : state) :
  exclusive st -> exclusive (clearTimeout key st).
Proof.
  intros [Hb Hi]. unfold clearTimeout.
  destruct (JsMap.get key (cacheTimeout st)) as [entry|] eqn:Hg; [|now split].
  destruct (timeout entry) as [h0|] eqn:Ht; [|now split].
  assert (Hold : forall k e h,
             JsMap.get k (JsMap.set key (mkTimeoutObject None (expires_at entry))
                                    (cacheTimeout st)) = Some e ->
             timeout e = Some h -> JsMap.get k (cacheTimeout st) = Some e).
  { intros k e h. rewrite JsMapFacts.get_set.
    destruct (eq_dec key k); [|auto].
    intros E Hh. injection E as <-. discriminate. }
  split; cbn [cacheTimeout timers Timers.clearTimeout Timers.next_id].
  - intros k e h Hk Hh. eapply Hb; [eapply Hold|]; eauto.
  - intros k1 k2 e1 e2 h H1 T1 H2 T2. eapply Hi; [eapply Hold | | eapply Hold |]; eauto.
Qed.

Lemma clearTimeout_other key k (st : state) :
  invariant st -> exclusive st -> k <> key ->
  Timers.pending_for k (timers (clearTimeout key st)) = Timers.pending_for k (timers st).
Proof.
  intros (_ & _ & Hrec) [_ Hi] Hne. unfold clearTimeout.
  destruct (JsMap.get key (cacheTimeout st)) as [entry|] eqn:Hg; [|reflexivity].
  destruct (timeout entry) as [h|] eqn:Ht; [|reflexivity].
  cbn [timers]. apply PlatformProps.pending_for_clearTimeout_other.
  intros tm Htm Hk Hid. destruct (Hrec tm Htm) as (e & He & Hte).
  rewrite Hk, Hid in *. apply Hne. exact (Hi _ _ _ _ _ He Hte Hg Ht).
Qed.

Lemma exclusive_set now key data exp (st : state) :
  exclusive st -> exclusive (set now key data exp st).
Proof.
  intros Hex. apply (exclusive_clearTimeout key) in Hex. destruct Hex as [Hb Hi].
  unfold set, handleTimeoutSetup.
  destruct (getExpireDate now exp (clearTimeout key st)) as [d|];
    cbn [option_map fst snd cache cacheTimeout timers emitted defaultExpireMs
         Timers.setTimeout Timers.pending Timers.next_id]; split;
    cbn [cacheTimeout timers Timers.next_id].
  - intros k e h. rewrite JsMapFacts.get_set.
    destruct (eq_dec key k).
    + intros E Hh. injection E as <-. cbn in Hh. injection Hh as <-. lia.
    + intros Hk Hh. specialize (Hb _ _ _ Hk Hh). lia.
  - intros k1 k2 e1 e2 h. rewrite !JsMapFacts.get_set.
    destruct (eq_dec key k1) as [<-|N1]; destruct (eq_dec key k2) as [<-|N2]; auto.
    + intros E1 T1 H2 T2. injection E1 as <-. cbn in T1. injection T1 as <-.
      specialize (Hb _ _ _ H2 T2). lia.
    + intros H1 T1 E2 T2. injection E2 as <-. cbn in T2. injection T2 as <-.
      specialize (Hb _ _ _ H1 T1). lia.
    + apply Hi.
  - intros k e h. rewrite JsMapFacts.get_set.
    destruct (eq_dec key k).
    + intros E Hh. injection E as <-. discriminate.
    + apply Hb.
  - intros k1 k2 e1 e2 h. rewrite !JsMapFacts.get_set.
    destruct (eq_dec key k1) as [<-|N1]; destruct (eq_dec key k2) as [<-|N2]; auto.
    + intros E1 T1. injection E1 as <-. discriminate.
    + intros H1 T1 E2 T2. injection E2 as <-. discriminate.
    + apply Hi.
Qed.

Lemma exclusive_delete key (st : state) :
  exclusive st -> exclusive (snd (delete key st)).
Proof.
  intros Hex. apply (exclusive_clearTimeout key) in Hex.
  destruct (ExpireTimeoutCacheProps.delete_frame key st) as (Et & Ec & _).
  destruct Hex as [Hb Hi]. split; rewrite Ec, ?Et; auto.
Qed.

Lemma exclusive_fired id (st : state) :
  exclusive st ->
  exclusive (mkState (cache st) (cacheTimeout st) (defaultExpireMs st)
                     (Timers.clearTimeout id (timers st)) (emitted st)).
Proof. intros [Hb Hi]. split; auto. Qed.

Lemma reachable_exclusive (st : state) : reachable st -> exclusive st.
Proof.
  induction 1 as [d | d st _ IH | now key data exp st _ IH | key st _ IH
                 | key st _ IH | st _ IH | now id st st' _ IH Hf].
  - split; intros *; discriminate.
  - exact IH.
  - now apply exclusive_set.
  - exact IH.
  - now apply exclusive_delete.
  - unfold clear. rewrite ExpireTimeoutCacheFacts.timed_notifyExpires_spec.
    split; cbn [cacheTimeout emit]; intros *; rewrite JsMapFacts.get_clear; discriminate.
  - unfold fire in Hf.
    destruct (Timers.fire now id (timers st)) as [[key tm']|] eqn:F; [|discriminate].
    injection Hf as <-. apply TimersFacts.fire_spec in F as (-> & _).
    unfold handleExpiredCallback. now apply exclusive_delete, exclusive_fired.
Qed.

Lemma delete_other key k (st : state) :
  invariant st -> exclusive st -> k <> key ->
  Timers.pending_for k (timers (snd (delete key st))) = Timers.pending_for k (timers st).
Proof.
  intros Hinv Hex Hne.
  destruct (ExpireTimeoutCacheProps.delete_frame key st) as (-> & _).
  now apply clearTimeout_other.
Qed.

(** X12: [set] and [delete] of a key, and the firing of a timer of
    that key, leave every other key as it is: the same pending timer,
    the same payload and, for [set], the same expiry date. *)
Theorem timed_keys_do_not_interfere now key data exp k (st : state) :
  reachable st -> k <> key ->
  (Timers.pending_for k (timers (set now key data exp st)) =
     Timers.pending_for k (timers st) /\
   fst (get k (set now key data exp st)) = fst (get k st) /\
   expires k (set now key data exp st) = expires k st) /\
  (Timers.pending_for k (timers (snd (delete key st))) =
     Timers.pending_for k (timers st) /\
   fst (get k (snd (delete key st))) = fst (get k st)) /\
  (forall now' tm st',
      In tm (Timers.pending (timers st)) -> Timers.t_key tm = key ->
      fire now' (Timers.t_id tm) st = Some st' ->
      Timers.pending_for k (timers st') = Timers.pending_for k (timers st) /\
      fst (get k st') = fst (get k st)).
Proof.
  intros Hr Hne.
  pose proof (ExpireTimeoutCacheFacts.reachable_invariant Hr) as Hinv.
  pose proof (reachable_exclusive Hr) as Hex.
  split; [|split].
  - split; [|split].
    + unfold set, handleTimeoutSetup.
      destruct (getExpireDate now exp (clearTimeout key st)) as [d|];
        cbn [option_map fst snd timers Timers.setTimeout].
      * pose proof (@TimersFacts.pending_for_setTimeout_other
                      _ _ (timers (clearTimeout key st)) key k
                      (JS.sub (JS.getTime d) (JS.Num now)) now) as P.
        cbn [snd Timers.setTimeout] in P. rewrite P by congruence.
        now apply clearTimeout_other.
      * now apply clearTimeout_other.
    + destruct (ExpireTimeoutCacheProps.set_frame now key data exp st) as (Ec & _).
      unfold get. cbn [fst emit cache]. rewrite Ec.
      apply JsMapFacts.get_set_other. congruence.
    + unfold expires, set, handleTimeoutSetup.
      destruct (getExpireDate now exp (clearTimeout key st)) as [d|];
        cbn [option_map fst snd cacheTimeout Timers.setTimeout];
        rewrite JsMapFacts.get_set_other by congruence;
        apply (ExpireTimeoutCacheProps.expires_clearTimeout k key st).
  - split; [now apply delete_other|].
    destruct (ExpireTimeoutCacheFacts.delete_spec key Hinv) as (_ & _ & _ & _ & Ho & _).
    unfold get. cbn [fst emit cache]. now apply Ho.
  - intros now' tm st' Hin Hk Hf.
    destruct Hinv as (Hwf & Hids & Hrec).
    unfold fire, Timers.fire in Hf.
    rewrite (@PlatformProps.find_pending _ _ tm Hids Hin), Hk in Hf.
    destruct (Z.leb (Timers.t_due tm) now'); [|discriminate].
    injection Hf as <-. unfold handleExpiredCallback.
    set (mid := mkState (cache st) (cacheTimeout st) (defaultExpireMs st)
                        (Timers.clearTimeout (Timers.t_id tm) (timers st)) (emitted st)).
    pose proof (ExpireTimeoutCacheProps.fired_invariant (Timers.t_id tm)
                  (conj Hwf (conj Hids Hrec))) as Hmid.
    pose proof (exclusive_fired (Timers.t_id tm) Hex) as Hexm.
    fold mid in Hmid, Hexm.
    split.
    + rewrite (delete_other Hmid Hexm Hne). cbn [mid timers].
      apply PlatformProps.pending_for_clearTimeout_other.
      intros tm' Htm' Hk' Hid.
      destruct Hids as [Hnd _].
      assert (tm' = tm).
      { clear - Hnd Htm' Hin Hid. revert Hnd Htm' Hin.
        induction (Timers.pending (timers st)) as [|t0 l IH]; [intros _ []|].
        cbn [map]. intros Hnd. inversion Hnd as [|? ? Hnotin Hnd']; subst.
        intros [->|H1] [->|H2]; auto.
        - exfalso. apply Hnotin. rewrite Hid. now apply in_map.
        - exfalso. apply Hnotin. rewrite <- Hid. now apply in_map. }
      subst tm'. congruence.
    + destruct (ExpireTimeoutCacheFacts.delete_spec key Hmid) as (_ & _ & _ & _ & Ho & _).
      unfold get. cbn [fst emit cache]. now rewrite Ho.
Qed.

End Props.

Section Witnesses.
#[local] Open Scope string_scope.

Lemma timed_keys_do_not_interfere_witness :
  Timers.pending_for "k" (timers (set 10 "other" "w" None timedArmed)) =
  Timers.pending_for "k" (timers timedArmed).
Proof.
  assert (Hr : reachable timedArmed) by (apply reach_set, reach_create).
  assert (Hne : "k" <> "other") by discriminate.
  exact (proj1 (proj1 (@timed_keys_do_not_interfere string string _ _ 10 "other" "w"
                         None "k" timedArmed Hr Hne))).
Defined.

End Witnesses.
End ExpireTimeoutCacheIsolation.

(** ** TieredCache: storing, deleting and iterating *)

Module TieredCacheProps.
Import TieredCache.
Section Props.
Context {S : Strategy}.

(** The entries stored, operation by operation. *)
Lemma setTimeout_cache now key timeout (st : state) :
  cache (setTimeout now key timeout st) = cache st.
Proof. now destruct (TieredCacheFacts.setTimeout_spec now key timeout st) as ((E & _) & _). Qed.

Lemma clearTimeoutKey_cache key (st : state) :
  cache (clearTimeoutKey key st) = cache st.
Proof. now destruct (TieredCacheFacts.clearTimeoutKey_spec key st) as ((E & _) & _). Qed.

Lemma handleSetValue_cache now key tier data timeout (st : state) :
  cache (snd (handleSetValue now key tier data timeout st)) =
  JsMap.set key (mkEntry tier data) (cache st).
Proof.
  unfold handleSetValue. destruct timeout as [t|]; cbn [snd].
  - now rewrite setTimeout_cache.
  - destruct (handleTimeoutValue key tier data); cbn [snd]; [|reflexivity].
    now rewrite setTimeout_cache.
Qed.

Lemma handleDeleteValue_cache key (st : state) :
  cache (snd (handleDeleteValue key st)) = snd (JsMap.delete key (cache st)).
Proof.
  unfold handleDeleteValue. rewrite clearTimeoutKey_cache.
  now destruct (JsMap.delete key (cache st)).
Qed.

Lemma emitUpdate_cache (st : state) : cache (emitUpdate st) = cache st.
Proof. now destruct (TieredCacheFacts.emitUpdate_spec st). Qed.

Lemma set_cache now key tier data timeout (st : state) :
  cache (snd (set now key tier data timeout st)) =
  JsMap.set key (mkEntry tier data) (cache st).
Proof.
  unfold set. pose proof (handleSetValue_cache now key tier data timeout st) as E.
  destruct (handleSetValue now key tier data timeout st) as [[u|e] st1]; cbn [snd] in *;
    [now rewrite emitUpdate_cache | exact E].
Qed.

Lemma runActions_wf now acts :
  forall st : state, JsMap.wf (cache st) -> JsMap.wf (cache (snd (runActions now acts st))).
Proof.
  induction acts as [|a acts IH]; intros st Hwf; cbn [runActions snd]; auto.
  destruct a as [key tier data timeout | key | key].
  - pose proof (handleSetValue_cache now key tier data timeout st) as E.
    assert (Hwf1 : JsMap.wf (cache (snd (handleSetValue now key tier data timeout st))))
      by (rewrite E; now apply JsMapFacts.wf_set).
    destruct (handleSetValue now key tier data timeout st) as [[u|e] st1];
      cbn [snd] in *; auto.
  - apply IH. rewrite handleDeleteValue_cache. now apply JsMapFacts.wf_delete.
  - apply IH. cbn [cache with_cache]. now apply JsMapFacts.wf_delete.
Qed.

Lemma runTimeout_wf now key (st : state) :
  JsMap.wf (cache st) -> JsMap.wf (cache (runTimeout now key st)).
Proof.
  intros Hwf. unfold runTimeout, callTierTimeout.
  destruct (handleTierTimeout key (cache st)) as [acts outcome].
  pose proof (runActions_wf now acts st Hwf) as Hwf1.
  destruct (runActions now acts st) as [[u|e] st1]; cbn [snd] in Hwf1.
  - destruct outcome as [[t|]|e]; cbn [cache log_error];
      rewrite ?emitUpdate_cache, ?setTimeout_cache, ?clearTimeoutKey_cache; auto.
  - exact Hwf1.
Qed.

Lemma setEntriesLoop_wf now tier entries timeout :
  forall st : state,
    JsMap.wf (cache st) ->
    JsMap.wf (cache (snd (setEntriesLoop now tier entries timeout st))).
Proof.
  induction entries as [|[k d] entries IH]; intros st Hwf; cbn [setEntriesLoop snd]; auto.
  pose proof (handleSetValue_cache now k tier d timeout st) as E.
  assert (Hwf1 : JsMap.wf (cache (snd (handleSetValue now k tier d timeout st))))
    by (rewrite E; now apply JsMapFacts.wf_set).
  destruct (handleSetValue now k tier d timeout st) as [[u|e] st1]; cbn [snd] in *; auto.
Qed.

Lemma deleteKeysLoop_wf keys :
  forall acc (st : state),
    JsMap.wf (cache st) -> JsMap.wf (cache (snd (deleteKeysLoop keys acc st))).
Proof.
  induction keys as [|k keys IH]; intros acc st Hwf; cbn [deleteKeysLoop snd]; auto.
  pose proof (@JsMapFacts.wf_delete _ _ _ (cache (clearTimeoutKey k st)) k) as W.
  rewrite clearTimeoutKey_cache in *.
  destruct (JsMap.delete k (cache st)) as [b c]. apply IH. cbn [cache with_cache snd] in *.
  auto.
Qed.

Lemma wf_clear_entries (m : JsMap.t Key Entry) : JsMap.wf (JsMap.clear m).
Proof. unfold JsMap.wf, JsMap.keys. rewrite JsMapFacts.entries_clear. constructor. Qed.

Lemma step_wf o (st : state) :
  JsMap.wf (cache st) -> JsMap.wf (cache (snd (step o st))).
Proof.
  intros Hwf. destruct o as [now key tier timeout | now key tier data timeout
                            | now tier entries timeout | | key | keys | | now id];
    cbn [step].
  - destruct (TieredCacheFacts.get_keeps now key tier timeout st) as (_ & E & _).
    destruct (get now key tier timeout st) as [[v|e] st1]; cbn [snd] in *; now rewrite E.
  - rewrite set_cache. now apply JsMapFacts.wf_set.
  - unfold setEntries.
    pose proof (setEntriesLoop_wf now tier entries timeout st Hwf) as W.
    destruct (setEntriesLoop now tier entries timeout st) as [[u|e] st1];
      cbn [snd] in *; [now rewrite emitUpdate_cache | exact W].
  - cbn [snd]. unfold clear. rewrite emitUpdate_cache. cbn [cache emit with_cache].
    apply wf_clear_entries.
  - cbn [snd]. unfold delete.
    pose proof (handleDeleteValue_cache key st) as E.
    destruct (handleDeleteValue key st) as [[|] st1]; cbn [snd] in *;
      rewrite ?emitUpdate_cache; cbn [cache emit]; rewrite E;
      now apply JsMapFacts.wf_delete.
  - cbn [snd]. unfold deleteKeys.
    pose proof (deleteKeysLoop_wf keys [] st Hwf) as W.
    destruct (deleteKeysLoop keys [] st) as [dk st1]. cbn [snd] in *.
    now rewrite emitUpdate_cache.
  - exact Hwf.
  - destruct (fire now id st) as [st1|] eqn:F; cbn [snd]; [|exact Hwf].
    apply TieredCacheFacts.fire_Some in F as (key & tm & _ & ->).
    now apply runTimeout_wf.
Qed.

Lemma run_wf ops : forall st : state, JsMap.wf (cache st) -> JsMap.wf (cache (run ops st)).
Proof.
  induction ops as [|o ops IH]; intros st Hwf; cbn [run]; auto.
  apply IH. now apply step_wf.
Qed.

Lemma reached_wf ops : JsMap.wf (cache (run ops (@create S))).
Proof. apply run_wf. apply JsMapFacts.wf_empty. Qed.


(** X13: [set] stores the entry under its tier whether or not the
    hook [handleTimeoutValue] throws: afterwards [getTier] and [has] find
    it, the other entries are untouched, a key that was stored keeps its
    place in the iteration order and a new one comes last, and a [get]
    returns the reprojection of the entry just set.  When the call
    returns, it has emitted [set] with the key and [update] with the
    recomputed status; when it throws, no timeout was given, the hook
    threw that error, and events, status and timers are as before. *)
Theorem tiered_set_stores_entry now now' key tier tier' data timeout timeout'
        (st : state) :
  let r := set now key tier data timeout st in
  let st' := snd r in
  JsMap.get key (cache st') = Some (mkEntry tier data) /\
  getTier key st' = Some tier /\
  has key st' = true /\
  (forall k, k <> key -> JsMap.get k (cache st') = JsMap.get k (cache st)) /\
  JsMap.keys (cache st') =
    (if has key st then JsMap.keys (cache st) else JsMap.keys (cache st) ++ [key]) /\
  fst (get now' key tier' timeout' st') =
    handleCacheEntry key tier' (Some (mkEntry tier data)) /\
  (fst r = JS.Ok tt ->
   statusFresh st' /\
   emitted st' = emitted st ++ [EvSet [key]; EvUpdate (statusData st')]) /\
  (forall e, fst r = JS.Throw e ->
             timeout = None /\ handleTimeoutValue key tier data = JS.Throw e /\
             emitted st' = emitted st /\ statusData st' = statusData st /\
             timers st' = timers st /\ cacheTimeout st' = cacheTimeout st).
Proof.
  cbv zeta.
  pose proof (set_cache now key tier data timeout st) as Ec.
  assert (Hg : JsMap.get key (cache (snd (set now key tier data timeout st))) =
               Some (mkEntry tier data))
    by (rewrite Ec; apply JsMapFacts.get_set_same).
  split; [exact Hg|].
  split; [unfold getTier; now rewrite Hg|].
  split; [unfold has, JsMap.has; now rewrite Hg|].
  split; [intros k Hk; rewrite Ec; apply JsMapFacts.get_set_other; congruence|].
  split; [rewrite Ec; apply JsMapFacts.keys_set|].
  split.
  { unfold get at 1. rewrite Hg.
    now destruct (handleCacheEntry key tier' (Some (mkEntry tier data))). }
  unfold set, handleSetValue.
  destruct timeout as [t|].
  - cbn [fst snd]. split; [|discriminate]. intros _.
    destruct (TieredCacheFacts.emitUpdate_spec
                (emit (EvSet [key])
                   (setTimeout now key (Some t)
                      (with_cache (JsMap.set key (mkEntry tier data) (cache st)) st))))
      as (_ & _ & _ & _ & Hf & He).
    split; [exact Hf|]. rewrite He. cbn [emitted emit].
    destruct (TieredCacheFacts.setTimeout_spec now key (Some t)
                (with_cache (JsMap.set key (mkEntry tier data) (cache st)) st))
      as ((_ & _ & Ee & _) & _).
    rewrite Ee. cbn [emitted with_cache]. now rewrite <- List.app_assoc.
  - destruct (handleTimeoutValue key tier data) as [t|e0] eqn:Hh; cbn [fst snd].
    + split; [|discriminate]. intros _.
      destruct (TieredCacheFacts.emitUpdate_spec
                  (emit (EvSet [key])
                     (setTimeout now key t
                        (with_cache (JsMap.set key (mkEntry tier data) (cache st)) st))))
        as (_ & _ & _ & _ & Hf & He).
      split; [exact Hf|]. rewrite He. cbn [emitted emit].
      destruct (TieredCacheFacts.setTimeout_spec now key t
                  (with_cache (JsMap.set key (mkEntry tier data) (cache st)) st))
        as ((_ & _ & Ee & _) & _).
      rewrite Ee. cbn [emitted with_cache]. now rewrite <- List.app_assoc.
    + split; [discriminate|]. intros e E. injection E as <-. repeat split.
Qed.


(** [handleSetValue] reads and writes the entries, the timer records and
    the timers only. *)
Lemma sameStore_refl (st : state) : sameStore st st.
Proof. repeat split. Qed.

Lemma sameStore_setTimeout now key timeout (s1 s2 : state) :
  sameStore s1 s2 ->
  sameStore (setTimeout now key timeout s1) (setTimeout now key timeout s2).
Proof.
  intros (Ec & Et & Em). unfold setTimeout. rewrite Et, Em.
  destruct (JsMap.get key (cacheTimeout s1)) as [old|];
    destruct timeout as [ms|]; cbn; repeat split; auto; now rewrite ?Et, ?Em.
Qed.

Lemma sameStore_handleSetValue now key tier data timeout (s1 s2 : state) :
  sameStore s1 s2 ->
  fst (handleSetValue now key tier data timeout s2) =
  fst (handleSetValue now key tier data timeout s1) /\
  sameStore (snd (handleSetValue now key tier data timeout s1))
            (snd (handleSetValue now key tier data timeout s2)).
Proof.
  intros (Ec & Et & Em).
  assert (H1 : sameStore (with_cache (JsMap.set key (mkEntry tier data) (cache s1)) s1)
                         (with_cache (JsMap.set key (mkEntry tier data) (cache s2)) s2))
    by (repeat split; cbn; auto; now rewrite Ec).
  unfold handleSetValue. destruct timeout as [t|]; cbn [fst snd].
  - split; [reflexivity|]. now apply sameStore_setTimeout.
  - destruct (handleTimeoutValue key tier data) as [t|e]; cbn [fst snd].
    + split; [reflexivity|]. now apply sameStore_setTimeout.
    + split; [reflexivity | exact H1].
Qed.

Lemma sameStore_emitUpdate (s1 s2 : state) e :
  sameStore s1 s2 -> sameStore s1 (emitUpdate (emit e s2)).
Proof.
  intros (Ec & Et & Em).
  destruct (TieredCacheFacts.emitUpdate_spec (emit e s2)) as (Ec' & Et' & Em' & _).
  repeat split; [rewrite Ec' | rewrite Et' | rewrite Em']; cbn; auto.
Qed.

Lemma setEntriesLoop_as_sets now tier timeout entries :
  forall s1 s2 : state,
    sameStore s1 s2 ->
    fst (setEntriesLoop now tier entries timeout s1) = JS.Ok tt ->
    sameStore (snd (setEntriesLoop now tier entries timeout s1))
              (fold_left (fun s kd => snd (set now (fst kd) tier (snd kd) timeout s))
                         entries s2) /\
    emitted (snd (setEntriesLoop now tier entries timeout s1)) = emitted s1.
Proof.
  induction entries as [|[k d] entries IH]; intros s1 s2 Hs Hok;
    cbn [setEntriesLoop fold_left fst snd] in *.
  - split; [exact Hs | reflexivity].
  - destruct (sameStore_handleSetValue now k tier d timeout Hs) as (Hr & Hs').
    destruct (TieredCacheFacts.handleSetValue_keeps now k tier d timeout s1)
      as (_ & _ & Ee & _).
    unfold set.
    destruct (handleSetValue now k tier d timeout s1) as [[u|e] s1'];
      destruct (handleSetValue now k tier d timeout s2) as [[u2|e2] s2'];
      cbn [fst snd] in *; try discriminate.
    destruct (IH s1' (emitUpdate (emit (EvSet [k]) s2'))
                 (sameStore_emitUpdate (EvSet [k]) Hs') Hok) as (IHs & IHe).
    split; [exact IHs | congruence].
Qed.

(** X14: a [setEntries] that returns leaves the entries, the timer
    records and the timers exactly as one [set] per entry, in order,
    does; it emits one [set] event with all the keys and one [update]
    event with the recomputed status. *)
Theorem tiered_setEntries_as_sets now tier entries timeout (st : state) :
  fst (setEntries now tier entries timeout st) = JS.Ok tt ->
  let st' := snd (setEntries now tier entries timeout st) in
  let each := fold_left (fun s kd => snd (set now (fst kd) tier (snd kd) timeout s))
                        entries st in
  cache st' = cache each /\ cacheTimeout st' = cacheTimeout each /\
  timers st' = timers each /\
  statusFresh st' /\
  emitted st' = emitted st ++ [EvSet (map fst entries); EvUpdate (statusData st')].
Proof.
  intros Hok. cbv zeta. unfold setEntries in *.
  pose proof (@setEntriesLoop_as_sets now tier timeout entries st st (sameStore_refl st))
    as L.
  destruct (setEntriesLoop now tier entries timeout st) as [[u|e] st1];
    cbn [fst snd] in *; [destruct u|discriminate].
  destruct (L eq_refl) as ((Ec & Et & Em) & Ee).
  destruct (TieredCacheFacts.emitUpdate_spec (emit (EvSet (map fst entries)) st1))
    as (Ec' & Et' & Em' & _ & Hf & He').
  rewrite Ec', Et', Em'. cbn [cache cacheTimeout timers emit].
  split; [auto|]. split; [auto|]. split; [auto|]. split; [exact Hf|].
  rewrite He'. cbn [emitted emit]. rewrite Ee. now rewrite <- List.app_assoc.
Qed.






(** X16: [clear] emits [delete] with the keys stored, in insertion
    order, then [clear], then [update] with the status of the empty
    cache; afterwards [status], [size], [has] and [getTier] report an
    empty cache and no timer is pending. *)
Theorem tiered_clear_empties (ops : list op) (key : Key) :
  let st := run ops create in
  let st' := clear st in
  emitted st' =
    emitted st ++ [EvDelete (JsMap.keys (cache st)); EvClear;
                   EvUpdate (mkStatus 0 initialTiers)] /\
  fst (status st') = mkStatus 0 initialTiers /\
  size st' = 0%nat /\
  has key st' = false /\
  getTier key st' = None /\
  Timers.pending (timers st') = [].
Proof.
  cbv zeta.
  destruct (TieredCacheFacts.clear_keeps (run ops create)) as (_ & Hnil).
  specialize (Hnil (@TieredCacheFacts.timersInv_run S ops)).
  split; [|split; [|split; [|split; [|split]]]]; try exact Hnil;
    unfold clear, emitUpdate, buildStatus, status, size, has, getTier, JsMap.has,
      countTiers, JsMap.size, JsMap.values, clearAllTimeouts;
    cbn [cache emit with_cache with_cacheTimeout with_timers with_statusData
         emitted statusData fst snd];
    rewrite ?JsMapFacts.get_clear, ?JsMapFacts.entries_clear; cbn; auto.
  now rewrite <- !List.app_assoc.
Qed.

(** X17: [delete(key)] returns whether the key was stored;
    afterwards the key is not stored and has no pending timer, and the
    other entries are untouched.  When the key was stored the size
    decreases by one and [delete] with the key and [update] with the
    recomputed status are emitted; when it was not, entries, events and
    status are as before. *)
Theorem tiered_delete_removes (ops : list op) (key : Key) :
  let st := run ops create in
  let st' := snd (delete key st) in
  fst (delete key st) = has key st /\
  has key st' = false /\
  getTier key st' = None /\
  Timers.pending_for key (timers st') = [] /\
  (forall k, k <> key -> JsMap.get k (cache st') = JsMap.get k (cache st)) /\
  (has key st = true ->
   size st = Datatypes.S (size st') /\ statusFresh st' /\
   emitted st' = emitted st ++ [EvDelete [key]; EvUpdate (statusData st')]) /\
  (has key st = false ->
   cache st' = cache st /\ emitted st' = emitted st /\ statusData st' = statusData st).
Proof.
  cbv zeta. set (st := run ops create).
  pose proof (reached_wf ops : JsMap.wf (cache st)) as Hwf.
  pose proof (@TieredCacheFacts.timersInv_run S ops : timersInv st) as Hinv.
  destruct (TieredCacheFacts.handleDeleteValue_keeps key st)
    as (_ & Es & Ee & _ & Hfst & Hsame & Hnone).
  specialize (Hnone Hinv).
  pose proof (handleDeleteValue_cache key st) as Ec.
  pose proof (@JsMapFacts.get_delete _ _ _ (cache st) key) as Hget.
  pose proof (JsMapFacts.size_delete (cache st) key) as Hsize.
  unfold delete, has, size, getTier.
  destruct (handleDeleteValue key st) as [isDeleted st1]. cbn [fst snd] in *.
  assert (Hc : cache (snd (if isDeleted
                           then (isDeleted, emitUpdate (emit (EvDelete [key]) st1))
                           else (isDeleted, st1))) = snd (JsMap.delete key (cache st))).
  { destruct isDeleted; cbn [snd]; rewrite ?emitUpdate_cache; cbn [cache emit]; auto. }
  assert (Ht : timers (snd (if isDeleted
                            then (isDeleted, emitUpdate (emit (EvDelete [key]) st1))
                            else (isDeleted, st1))) = timers st1).
  { destruct isDeleted; cbn [snd]; [|reflexivity].
    now destruct (TieredCacheFacts.emitUpdate_spec (emit (EvDelete [key]) st1))
      as (_ & _ & -> & _). }
  assert (Hg : JsMap.get key (snd (JsMap.delete key (cache st))) = None).
  { rewrite Hget by exact Hwf. destruct (eq_dec key key); congruence. }
  rewrite Hc, Ht.
  split; [now destruct isDeleted|].
  split; [now apply JsMapFacts.has_false|].
  split; [now rewrite Hg|].
  split; [exact Hnone|].
  split.
  { intros k Hk. rewrite Hget by exact Hwf. destruct (eq_dec key k); congruence. }
  split.
  - intros Hh. rewrite Hh in Hfst. subst isDeleted. cbn [snd].
    destruct (TieredCacheFacts.emitUpdate_spec (emit (EvDelete [key]) st1))
      as (_ & _ & _ & _ & Hf & He).
    split; [|split; [exact Hf|]].
    + rewrite Hsize, Hh. pose proof (PlatformProps.has_size_pos _ _ Hh). unfold JsMap.size in *. lia.
    + rewrite He. cbn [emitted emit]. rewrite Ee. now rewrite <- List.app_assoc.
  - intros Hh. rewrite Hh in Hfst. subst isDeleted. cbn [snd].
    split; [rewrite <- Ec; now apply Hsame|].
    split; [exact Ee | exact Es].
Qed.


(** X18: [get] returns what [handleCacheEntry] returns for the
    stored entry; it never changes the entries, the status, the events
    or the log, and arms no timer but for its key.  When the hook throws,
    or returns [undefined] or a falsy value, the state is unchanged. *)
Theorem tiered_get_touches_only_the_timer now key tier timeout (st : state) :
  let r := get now key tier timeout st in
  fst r = handleCacheEntry key tier (JsMap.get key (cache st)) /\
  cache (snd r) = cache st /\ statusData (snd r) = statusData st /\
  emitted (snd r) = emitted st /\ logged (snd r) = logged st /\
  (forall tm, In tm (Timers.pending (timers (snd r))) ->
              In tm (Timers.pending (timers st)) \/ Timers.t_key tm = key) /\
  (forall e, fst r = JS.Throw e -> snd r = st) /\
  (fst r = JS.Ok None -> snd r = st) /\
  (forall v, fst r = JS.Ok (Some v) -> ToBoolean v = false -> snd r = st).
Proof.
  cbv zeta. unfold get.
  destruct (handleCacheEntry key tier (JsMap.get key (cache st))) as [[v|]|e];
    cbn [fst snd].
  2,3: repeat split; auto; discriminate.
  destruct (ToBoolean v) eqn:Hv.
  2:{ repeat split; auto; discriminate. }
  destruct (TieredCacheFacts.setTimeout_spec
              now key (orElse timeout (handleTierDefaultTimeout tier)) st)
    as ((Ec & Es & Ee & El) & _).
  split; [reflexivity|]. split; [exact Ec|]. split; [exact Es|]. split; [exact Ee|].
  split; [exact El|]. split.
  - intros tm. unfold setTimeout.
    destruct (JsMap.get key (cacheTimeout st)) as [old|];
      destruct (orElse timeout (handleTierDefaultTimeout tier)) as [ms|];
      cbn [timers with_timers with_cacheTimeout Timers.setTimeout Timers.pending];
      rewrite ?in_app_iff; cbn [In];
      intros Htm; repeat match goal with
                         | H : _ \/ _ |- _ => destruct H
                         | H : False |- _ => destruct H
                         | H : In _ (Timers.pending (Timers.clearTimeout _ _)) |- _ =>
                             apply TimersFacts.In_clearTimeout in H as [H _]
                         end; subst; auto.
  - split; [discriminate|]. split; [discriminate|].
    intros v' E. injection E as <-. congruence.
Qed.

(** A loop over [keys()] that stands at slot [i]. *)
Lemma forOfKeys_from (st : state) :
  forall fuel i,
    (List.length (JsMap.entries (skipn i (cache st))) < fuel)%nat ->
    forOfKeys fuel (JsMap.mkIter i false) st =
    Some (JsMap.keys (skipn i (cache st))).
Proof.
  induction fuel as [|fuel IH]; intros i Hlt; [lia|].
  cbn [forOfKeys]. unfold keys_next, JsMap.next, JsMap.keys.
  cbn [JsMap.it_done JsMap.it_index].
  pose proof (JsMapFacts.scan_spec (cache st) i) as Hs.
  destruct (JsMap.scan i (cache st)) as [[kv j]|]; cbn [option_map].
  - destruct Hs as [He _]. rewrite He in Hlt |- *. cbn [List.length map] in *.
    rewrite IH by lia. reflexivity.
  - rewrite Hs. reflexivity.
Qed.

(** X19: the iterator that [keys()] returns takes no snapshot:
    consumed while the cache is in a state, whatever the state it was
    obtained in, it yields the keys stored in that state, in insertion
    order.  These keys are pairwise distinct and are the keys [has]
    answers true for. *)
Theorem tiered_keys_are_live (ops : list op) (st0 : state) (fuel : nat) :
  let st := run ops create in
  (size st < fuel)%nat ->
  forOfKeys fuel (keys st0) st = Some (JsMap.keys (cache st)) /\
  NoDup (JsMap.keys (cache st)) /\
  (forall k, In k (JsMap.keys (cache st)) <-> has k st = true).
Proof.
  cbv zeta. intros Hlt. split; [|split].
  - unfold keys, JsMap.iter_start. rewrite forOfKeys_from; [reflexivity | exact Hlt].
  - apply reached_wf.
  - intros k. unfold has. rewrite JsMapFacts.has_get. split.
    + intros Hk. destruct (JsMap.get k (cache (run ops create))) as [v|] eqn:E; eauto.
      apply JsMapFacts.get_None in E. contradiction.
    + intros [v Hv]. apply JsMapFacts.get_In in Hv.
      unfold JsMap.keys. change k with (fst (k, v)). now apply in_map.
Qed.

End Props.

Section Witnesses.
#[local] Open Scope string_scope.
Import DateTieredCache.

Lemma tiered_setEntries_as_sets_witness :
  let S := exampleStrategy in
  let entries := [("a", DDate (JS.newDate (JS.Num 1))); ("b", DDate (JS.newDate (JS.Num 2)))] in
  JsMap.keys (cache (snd (@setEntries S 0 model entries None (@create S)))) = ["a"; "b"] /\
  emitted (snd (@setEntries S 0 model entries None (@create S))) =
    [EvSet ["a"; "b"];
     EvUpdate (statusData (snd (@setEntries S 0 model entries None (@create S))))].
Proof.
  cbv zeta.
  pose proof (@tiered_setEntries_as_sets exampleStrategy 0 model
                [("a", DDate (JS.newDate (JS.Num 1))); ("b", DDate (JS.newDate (JS.Num 2)))]
                None (@create exampleStrategy) eq_refl) as (Hc & _ & _ & _ & He).
  split; [now rewrite Hc | exact He].
Defined.

Lemma tiered_keys_are_live_witness :
  @forOfKeys exampleStrategy 5 (@keys exampleStrategy (@create exampleStrategy))
             (run exampleRun (@create exampleStrategy)) = Some ["k1"].
Proof.
  assert (Hlt : (@size exampleStrategy (run exampleRun (@create exampleStrategy)) < 5)%nat)
    by (cbn; lia).
  exact (proj1 (@tiered_keys_are_live exampleStrategy exampleRun
                  (@create exampleStrategy) 5 Hlt)).
Defined.

Lemma tiered_set_stores_entry_witness :
  @getTier exampleStrategy "k"
     (snd (@set exampleStrategy 0 "k" model (DDate (JS.newDate (JS.Num 5))) None
                (@create exampleStrategy))) = Some model /\
  @has FaultyTieredCache.strategy "k" faultyAfterSet = true /\
  @emitted FaultyTieredCache.strategy faultyAfterSet = [].
Proof.
  pose proof (@tiered_set_stores_entry exampleStrategy 0 0 "k" model model
                (DDate (JS.newDate (JS.Num 5))) None None (@create exampleStrategy))
    as (_ & Ht & _).
  pose proof (@tiered_set_stores_entry FaultyTieredCache.strategy 0 0 "k" tt tt "v"
                None None (@create FaultyTieredCache.strategy))
    as (_ & _ & Hh & _ & _ & _ & _ & Hthrow).
  destruct (Hthrow "handleTimeoutValue" eq_refl) as (_ & _ & He & _).
  split; [exact Ht|]. split; [exact Hh | exact He].
Defined.

Lemma tiered_delete_removes_witness :
  fst (@delete exampleStrategy "k1" (run exampleRun (@create exampleStrategy))) = true /\
  @size exampleStrategy (run exampleRun (@create exampleStrategy)) =
    Datatypes.S (@size exampleStrategy
                   (snd (@delete exampleStrategy "k1"
                           (run exampleRun (@create exampleStrategy))))).
Proof.
  pose proof (@tiered_delete_removes exampleStrategy exampleRun "k1")
    as (Hf & _ & _ & _ & _ & Hyes & _).
  split; [exact Hf|]. exact (proj1 (Hyes eq_refl)).
Defined.

Lemma tiered_get_touches_only_the_timer_witness :
  snd (@get (DateTieredCache.strategy noDateParse) 50 "k" stringValue
            (Some (JS.Num 5000)) (withEmptyString noDateParse)) =
  withEmptyString noDateParse.
Proof.
  pose proof (@tiered_get_touches_only_the_timer (DateTieredCache.strategy noDateParse)
                50 "k" stringValue (Some (JS.Num 5000)) (withEmptyString noDateParse))
    as (_ & _ & _ & _ & _ & _ & _ & _ & Hfalsy).
  exact (Hfalsy (DJson (JSON.JStr EmptyString)) eq_refl eq_refl).
Defined.

End Witnesses.
End TieredCacheProps.

(** ** TieredCache: arming and firing *)

Module TieredTimerProps.
Import TieredCache.
Section Props.
Context {S : Strategy}.

(** The state in which the callback of a fired timer runs. *)
Lemma fired_timersInv id (st : state) :
  timersInv st -> timersInv (with_timers (Timers.clearTimeout id (timers st)) st).
Proof.
  intros [Hids Hrec]. split.
  - now apply TimersFacts.ids_ok_clearTimeout.
  - intros tm Htm. cbn in Htm |- *.
    apply TimersFacts.In_clearTimeout in Htm as [Htm _]. now apply Hrec.
Qed.

(** A pending timer fires from its due time on, and not before. *)
Lemma fire_pending now id key due (st : state) :
  timersInv st ->
  In (Timers.mkTimer id key due) (Timers.pending (timers st)) ->
  fire now id st =
  if Z.leb due now
  then Some (runTimeout now key (with_timers (Timers.clearTimeout id (timers st)) st))
  else None.
Proof.
  intros [Hids _] Hin. unfold fire, Timers.fire.
  pose proof (@PlatformProps.find_pending _ _ (Timers.mkTimer id key due)
                Hids Hin) as F.
  cbn [Timers.t_id] in F. rewrite F.
  cbn [Timers.t_due Timers.t_key]. now destruct (Z.leb due now).
Qed.

Lemma setTimeout_arms now key ms (st : state) :
  timersInv st ->
  let st' := setTimeout now key (Some ms) st in
  timersInv st' /\
  Timers.pending_for key (timers st') =
    [Timers.mkTimer (Timers.next_id (timers st)) key (now + Timers.delay_of ms)] /\
  Timers.next_id (timers st') = Datatypes.S (Timers.next_id (timers st)) /\
  cache st' = cache st.
Proof.
  intros Hinv. cbv zeta.
  destruct (TieredCacheFacts.setTimeout_spec now key (Some ms) st)
    as ((Ec & _) & (K & _) & Hp).
  split; [now apply K|]. split; [now apply Hp|]. split; [|exact Ec].
  unfold setTimeout. destruct (JsMap.get key (cacheTimeout st)); reflexivity.
Qed.

(** X23: when a timer fires and the hook [handleTierTimeout] returns,
    the firing completes with one [update] event that carries the
    recomputed status, and logs nothing; the entries are as the hook
    left them, and the key has exactly one pending timer, armed at the
    firing for the timeout the hook returned, or none when the hook
    returned [undefined]. *)
Theorem tiered_fired_timer_rearms (ops : list op) now id key tm outcome (st1 : state) :
  let st := run ops create in
  Timers.fire now id (timers st) = Some (key, tm) ->
  callTierTimeout now key (with_timers tm st) = (JS.Ok outcome, st1) ->
  exists st',
    fire now id st = Some st' /\
    cache st' = cache st1 /\
    logged st' = logged st /\
    statusFresh st' /\
    emitted st' = emitted st ++ [EvUpdate (statusData st')] /\
    Timers.pending_for key (timers st') =
      match outcome with
      | Some t =>
          [Timers.mkTimer (Timers.next_id (timers st1)) key (now + Timers.delay_of t)]
      | None => []
      end.
Proof.
  cbv zeta. intros Hf Hc. set (st := run ops create) in *.
  pose proof (@TieredCacheFacts.timersInv_run S ops : timersInv st) as Hinv.
  pose proof Hf as Hf'. apply TimersFacts.fire_spec in Hf' as (-> & _).
  pose proof (fired_timersInv id Hinv) as Hmid.
  destruct (TieredCacheFacts.callTierTimeout_keeps
              now key (with_timers (Timers.clearTimeout id (timers st)) st))
    as ((K & _) & _ & Ee & El).
  rewrite Hc in K, Ee, El. cbn [snd emitted logged with_timers] in K, Ee, El.
  specialize (K Hmid).
  set (st2 := match outcome with
              | Some t => setTimeout now key (Some t) st1
              | None => clearTimeoutKey key st1
              end).
  assert (H2 : cache st2 = cache st1 /\ emitted st2 = emitted st1 /\
               logged st2 = logged st1 /\
               Timers.pending_for key (timers st2) =
                 match outcome with
                 | Some t =>
                     [Timers.mkTimer (Timers.next_id (timers st1)) key
                                     (now + Timers.delay_of t)]
                 | None => []
                 end).
  { unfold st2. destruct outcome as [t|].
    - destruct (TieredCacheFacts.setTimeout_spec now key (Some t) st1)
        as ((Ec & _ & Ee2 & El2) & _ & Hp). auto.
    - destruct (TieredCacheFacts.clearTimeoutKey_spec key st1)
        as ((Ec & _ & Ee2 & El2) & _ & Hp). auto. }
  destruct H2 as (Ec2 & Ee2 & El2 & Hp2).
  destruct (TieredCacheFacts.emitUpdate_spec st2) as (Ec3 & _ & Et3 & El3 & Hfresh & Ee3).
  exists (emitUpdate st2).
  split; [unfold fire, runTimeout; rewrite Hf, Hc; reflexivity|].
  split; [now rewrite Ec3|]. split; [now rewrite El3, El2|].
  split; [exact Hfresh|]. split; [now rewrite Ee3, Ee2, Ee|].
  now rewrite Et3.
Qed.

End Props.

Section Witnesses.
#[local] Open Scope string_scope.
Import DateTieredCache.

Lemma tiered_fired_timer_rearms_witness :
  let S := exampleStrategy in
  let st := run [@OpSet S 0 "k1" model (DDate (JS.newDate (JS.Num 5))) None] (@create S) in
  option_map (fun st' => Timers.pending_for "k1" (timers st')) (@fire S 100 1 st) =
    Some [Timers.mkTimer 3 "k1" 200].
Proof.
  cbv zeta.
  destruct (@tiered_fired_timer_rearms exampleStrategy
              [@OpSet exampleStrategy 0 "k1" model (DDate (JS.newDate (JS.Num 5))) None]
              100 1 "k1" _ _ _ eq_refl eq_refl) as (st' & Hf & _ & _ & _ & _ & Hp).
  rewrite Hf. cbn [option_map]. exact (f_equal Some Hp).
Defined.

End Witnesses.
End TieredTimerProps.

(** ** DateTieredCache: demotion through the tiers *)

Module DateTieredCacheProps.
Import TieredCache DateTieredCache.
Section Props.
Variable Date_parse : string -> JS.number.
Abbreviation DC := (DateTieredCache.strategy Date_parse).
Abbreviation dstate := (@TieredCache.state (DateTieredCache.strategy Date_parse)).

Lemma default_timeout_100 (t : tierName) :
  @TieredCache.handleTierDefaultTimeout DC t = Some (JS.Num 100).
Proof. now destruct t. Qed.

(** [handleSetValue] without a timeout arms the timer of the tier. *)
Lemma date_handleSetValue now key (t : tierName) (d : data) (st : dstate) :
  timersInv st ->
  let r := @handleSetValue DC now key t d None st in
  fst r = JS.Ok tt /\ timersInv (snd r) /\
  Timers.pending_for key (timers (snd r)) =
    [Timers.mkTimer (Timers.next_id (timers st)) key (now + 100)] /\
  Timers.next_id (timers (snd r)) = Datatypes.S (Timers.next_id (timers st)) /\
  cache (snd r) = JsMap.set key (mkEntry t d) (cache st).
Proof.
  intros Hinv. cbv zeta. unfold handleSetValue.
  change (@TieredCache.handleTimeoutValue DC key t d)
    with (@JS.Ok error _ (@TieredCache.handleTierDefaultTimeout DC t)).
  rewrite default_timeout_100. cbn [fst snd].
  set (st1 := @with_cache DC (JsMap.set key (mkEntry t d) (cache st)) st).
  assert (Hinv1 : timersInv st1).
  { destruct (@TieredCacheFacts.keepsTimers_with_cache DC
                (JsMap.set key (mkEntry t d) (cache st)) st) as [K _]. now apply K. }
  destruct (@TieredTimerProps.setTimeout_arms DC now key (JS.Num 100) st1 Hinv1)
    as (Hi & Hp & Hn & Hc).
  split; [reflexivity|]. split; [exact Hi|]. split; [exact Hp|]. split; [exact Hn|].
  exact Hc.
Qed.


(** The callback of a timer whose hook stores the entry anew: the hook
    arms a timer through [handleSetValue], and [runTimeout] replaces it
    with the timer of the timeout the hook returns. *)
Lemma date_demote now key (t' : tierName) (d' : data) (st : dstate) :
  timersInv st ->
  DateTieredCache.handleTierTimeout Date_parse key (cache st) =
    ([HandleSetValue key t' d' None], JS.Ok (Some (JS.Num 100))) ->
  let st' := @runTimeout DC now key st in
  cache st' = JsMap.set key (mkEntry t' d') (cache st) /\
  timersInv st' /\
  Timers.pending_for key (timers st') =
    [Timers.mkTimer (Datatypes.S (Timers.next_id (timers st))) key (now + 100)] /\
  Timers.next_id (timers st') = Datatypes.S (Datatypes.S (Timers.next_id (timers st))) /\
  statusFresh st' /\
  emitted st' = emitted st ++ [EvUpdate (statusData st')].
Proof.
  intros Hinv Hh. cbv zeta. unfold runTimeout, callTierTimeout.
  change (@TieredCache.handleTierTimeout DC key (cache st))
    with (DateTieredCache.handleTierTimeout Date_parse key (cache st)).
  rewrite Hh. cbn [runActions].
  destruct (date_handleSetValue now key t' d' Hinv) as (Hok & Hi1 & _ & Hn1 & Hc1).
  destruct (@TieredCacheFacts.handleSetValue_keeps DC now key t' d' None st)
    as (_ & _ & Ee1 & _).
  destruct (@handleSetValue DC now key t' d' None st) as [[u|e] st1];
    cbn [fst snd] in *; [|discriminate].
  destruct (@TieredTimerProps.setTimeout_arms DC now key (JS.Num 100) st1 Hi1)
    as (Hi2 & Hp2 & Hn2 & Hc2).
  destruct (@TieredCacheFacts.setTimeout_spec DC now key (Some (JS.Num 100)) st1)
    as ((_ & _ & Ee2 & _) & _).
  set (st2 := @setTimeout DC now key (Some (JS.Num 100)) st1) in *.
  destruct (@TieredCacheFacts.emitUpdate_spec DC st2) as (Ec & Et & Em & _ & Hf & He).
  destruct (@TieredCacheFacts.keepsTimers_emitUpdate DC st2) as [K _].
  split; [now rewrite Ec, Hc2|]. split; [now apply K|].
  rewrite Em. split; [rewrite Hn1 in Hp2; exact Hp2|]. split; [now rewrite Hn2, Hn1|].
  split; [exact Hf|]. rewrite He. now rewrite Ee2, Ee1.
Qed.

(** The callback of the timer of an entry of the last tier. *)
Lemma date_drop now key (st : dstate) :
  timersInv st ->
  DateTieredCache.handleTierTimeout Date_parse key (cache st) =
    ([CacheDelete key], JS.Ok None) ->
  let st' := @runTimeout DC now key st in
  cache st' = snd (JsMap.delete key (cache st)) /\
  timersInv st' /\
  Timers.pending_for key (timers st') = [] /\
  statusFresh st' /\
  emitted st' = emitted st ++ [EvUpdate (statusData st')].
Proof.
  intros Hinv Hh. cbv zeta. unfold runTimeout, callTierTimeout.
  change (@TieredCache.handleTierTimeout DC key (cache st))
    with (DateTieredCache.handleTierTimeout Date_parse key (cache st)).
  rewrite Hh. cbn [runActions].
  match goal with
  | |- context [@clearTimeoutKey DC key ?x] => set (st1 := x)
  end.
  assert (Hi1 : timersInv st1).
  { destruct (@TieredCacheFacts.keepsTimers_with_cache DC (cache st1) st) as [K _].
    now apply K. }
  destruct (@TieredCacheFacts.clearTimeoutKey_spec DC key st1)
    as ((Ec1 & _ & Ee1 & _) & (K1 & _) & Hp1).
  set (st2 := @clearTimeoutKey DC key st1) in *.
  destruct (@TieredCacheFacts.emitUpdate_spec DC st2) as (Ec & Et & Em & _ & Hf & He).
  destruct (@TieredCacheFacts.keepsTimers_emitUpdate DC st2) as [K _].
  split; [now rewrite Ec, Ec1|]. split; [now apply K, K1|].
  rewrite Em. split; [exact (Hp1 Hi1)|]. split; [exact Hf|].
  rewrite He. now rewrite Ee1.
Qed.

(** The hook [handleTierTimeout], by the tier of the entry it finds. *)
Lemma hook_model (c : JsMap.t string DataCacheTier) key d :
  JsMap.get key c = Some (mkEntry model (DDate d)) ->
  DateTieredCache.handleTierTimeout Date_parse key c =
    ([HandleSetValue key object (DJson (cdateObject (JSON.JNum (JS.getTime d)))) None],
     JS.Ok (Some (JS.Num 100))).
Proof. intros Hg. unfold DateTieredCache.handleTierTimeout. now rewrite Hg. Qed.

Lemma hook_object (c : JsMap.t string DataCacheTier) key ms :
  JsMap.get key c = Some (mkEntry object (DJson (JSON.JObj ms))) ->
  DateTieredCache.handleTierTimeout Date_parse key c =
    ([HandleSetValue key stringValue
        (DJson (JSON.JStr (JSON.Number_toString
                             (JS.getTime (Date_of Date_parse (JSON.member "$cdate" ms))))))
        None],
     JS.Ok (Some (JS.Num 100))).
Proof. intros Hg. unfold DateTieredCache.handleTierTimeout. now rewrite Hg. Qed.

Lemma hook_stringValue (c : JsMap.t string DataCacheTier) key x :
  JsMap.get key c = Some (mkEntry stringValue x) ->
  DateTieredCache.handleTierTimeout Date_parse key c = ([CacheDelete key], JS.Ok None).
Proof. intros Hg. unfold DateTieredCache.handleTierTimeout. now rewrite Hg. Qed.

(** X21: in the reference cache an entry set in the tier ['model']
    without a timeout gets a timer of 100 ms.  When it fires the entry
    becomes the object [{$cdate: t}] of its time value in the tier
    ['object'], with a new timer of 100 ms; when that one fires it
    becomes the numeral of the time value in the tier ['stringValue'],
    with a new timer of 100 ms; when that one fires the entry is removed
    and no timer is left for the key. *)
Theorem date_entry_is_demoted_then_dropped (ops : list (@op DC)) now t1 t2 t3 key d :
  let st0 := run ops (@create DC) in
  let h := Timers.next_id (timers st0) in
  let s1 := snd (@set DC now key model (DDate d) None st0) in
  (now + 100 <= t1)%Z -> (t1 + 100 <= t2)%Z -> (t2 + 100 <= t3)%Z ->
  fst (@set DC now key model (DDate d) None st0) = JS.Ok tt /\
  Timers.pending_for key (timers s1) = [Timers.mkTimer h key (now + 100)] /\
  exists s2 s3 s4,
    @fire DC t1 h s1 = Some s2 /\
    JsMap.get key (cache s2) =
      Some (mkEntry object (DJson (cdateObject (JSON.JNum (JS.getTime d))))) /\
    Timers.pending_for key (timers s2) = [Timers.mkTimer (2 + h) key (t1 + 100)] /\
    @fire DC t2 (2 + h) s2 = Some s3 /\
    JsMap.get key (cache s3) =
      Some (mkEntry stringValue
              (DJson (JSON.JStr (JSON.Number_toString (JS.TimeClip (JS.getTime d)))))) /\
    Timers.pending_for key (timers s3) = [Timers.mkTimer (4 + h) key (t2 + 100)] /\
    @fire DC t3 (4 + h) s3 = Some s4 /\
    @has DC key s4 = false /\
    Timers.pending_for key (timers s4) = [].
Proof.
  cbv zeta. intros H1 H2 H3.
  set (st0 := run ops (@create DC)).
  pose proof (@TieredCacheFacts.timersInv_run DC ops : timersInv st0) as Hinv0.
  pose proof (@TieredCacheProps.reached_wf DC ops : JsMap.wf (cache st0)) as Hwf0.
  (* the set *)
  destruct (date_handleSetValue now key model (DDate d) Hinv0)
    as (Hok & Hi1 & Hp1 & Hn1 & Hc1).
  assert (Hset : @set DC now key model (DDate d) None st0 =
                 (JS.Ok tt,
                  emitUpdate (emit (EvSet [key])
                                (snd (@handleSetValue DC now key model (DDate d) None st0))))).
  { unfold set. destruct (@handleSetValue DC now key model (DDate d) None st0)
      as [[u|e] stx]; cbn [fst snd] in *; [reflexivity | discriminate]. }
  rewrite Hset. cbn [fst snd].
  set (s0 := snd (@handleSetValue DC now key model (DDate d) None st0)) in *.
  set (s1 := emitUpdate (emit (EvSet [key]) s0)).
  destruct (@TieredCacheFacts.emitUpdate_spec DC (emit (EvSet [key]) s0))
    as (Ec1 & Et1 & Em1 & _).
  fold s1 in Ec1, Et1, Em1. cbn [cache cacheTimeout timers emit] in Ec1, Et1, Em1.
  assert (Hinv1 : timersInv s1).
  { destruct Hi1 as [Hids Hrec]. split; [now rewrite Em1|].
    intros tm Htm. rewrite Em1 in Htm. rewrite Et1. now apply Hrec. }
  split; [reflexivity|]. split; [now rewrite Em1|].
  (* first firing *)
  set (m1 := with_timers (Timers.clearTimeout (Timers.next_id (timers st0)) (timers s1)) s1).
  assert (Hg1 : JsMap.get key (cache m1) = Some (mkEntry model (DDate d))).
  { cbn [m1 cache with_timers]. rewrite Ec1, Hc1. apply JsMapFacts.get_set_same. }
  assert (Hh1 : DateTieredCache.handleTierTimeout Date_parse key (cache m1) =
                ([HandleSetValue key object
                    (DJson (cdateObject (JSON.JNum (JS.getTime d)))) None],
                 JS.Ok (Some (JS.Num 100)))).
  { exact (@hook_model _ _ _ Hg1). }
  destruct (@date_demote t1 key _ _ _ (TieredTimerProps.fired_timersInv _ Hinv1) Hh1)
    as (Hc2 & Hi2 & Hp2 & Hn2 & _).
  fold m1 in Hc2, Hi2, Hp2, Hn2.
  set (s2 := @runTimeout DC t1 key m1) in *.
  assert (Hnm1 : Timers.next_id (timers m1) = Datatypes.S (Timers.next_id (timers st0)))
    by (cbn [m1 timers with_timers Timers.clearTimeout Timers.next_id]; now rewrite Em1).
  rewrite Hnm1 in Hp2, Hn2.
  (* second firing *)
  set (m2 := with_timers (Timers.clearTimeout (2 + Timers.next_id (timers st0))
                                              (timers s2)) s2).
  assert (Hg2 : JsMap.get key (cache m2) =
                Some (mkEntry object (DJson (cdateObject (JSON.JNum (JS.getTime d)))))).
  { cbn [m2 cache with_timers]. rewrite Hc2. apply JsMapFacts.get_set_same. }
  assert (Hh2 : DateTieredCache.handleTierTimeout Date_parse key (cache m2) =
                ([HandleSetValue key stringValue
                    (DJson (JSON.JStr (JSON.Number_toString
                                         (JS.TimeClip (JS.getTime d))))) None],
                 JS.Ok (Some (JS.Num 100)))).
  { exact (@hook_object _ _ _ Hg2). }
  destruct (@date_demote t2 key _ _ _ (TieredTimerProps.fired_timersInv _ Hi2) Hh2)
    as (Hc3 & Hi3 & Hp3 & Hn3 & _).
  fold m2 in Hc3, Hi3, Hp3, Hn3.
  set (s3 := @runTimeout DC t2 key m2) in *.
  assert (Hnm2 : Timers.next_id (timers m2) =
                 Datatypes.S (Datatypes.S (Datatypes.S (Timers.next_id (timers st0)))))
    by (cbn [m2 timers with_timers Timers.clearTimeout Timers.next_id]; exact Hn2).
  rewrite Hnm2 in Hp3, Hn3.
  (* third firing *)
  set (m3 := with_timers (Timers.clearTimeout (4 + Timers.next_id (timers st0))
                                              (timers s3)) s3).
  assert (Hg3 : JsMap.get key (cache m3) =
                Some (mkEntry stringValue
                        (DJson (JSON.JStr (JSON.Number_toString
                                             (JS.TimeClip (JS.getTime d))))))).
  { cbn [m3 cache with_timers]. rewrite Hc3. apply JsMapFacts.get_set_same. }
  assert (Hh3 : DateTieredCache.handleTierTimeout Date_parse key (cache m3) =
                ([CacheDelete key], JS.Ok None)).
  { exact (@hook_stringValue _ _ _ Hg3). }
  destruct (@date_drop t3 key _ (TieredTimerProps.fired_timersInv _ Hi3) Hh3)
    as (Hc4 & _ & Hp4 & _).
  fold m3 in Hc4, Hp4.
  assert (Hwf3 : JsMap.wf (cache m3)).
  { cbn [m3 cache with_timers]. rewrite Hc3. apply JsMapFacts.wf_set.
    cbn [m2 cache with_timers]. rewrite Hc2. apply JsMapFacts.wf_set.
    cbn [m1 cache with_timers]. rewrite Ec1, Hc1. now apply JsMapFacts.wf_set. }
  exists s2, s3, (@runTimeout DC t3 key m3).
  split.
  { rewrite (@TieredTimerProps.fire_pending DC t1 _ key (now + 100) s1 Hinv1).
    - destruct (Z.leb_spec (now + 100) t1); [reflexivity | lia].
    - apply (@PlatformProps.pending_for_head _ _ _ key). now rewrite Em1. }
  split; [rewrite Hc2; apply JsMapFacts.get_set_same|].
  split; [exact Hp2|].
  split.
  { rewrite (@TieredTimerProps.fire_pending DC t2 _ key (t1 + 100) s2 Hi2).
    - destruct (Z.leb_spec (t1 + 100) t2); [reflexivity | lia].
    - apply (@PlatformProps.pending_for_head _ _ _ key). exact Hp2. }
  split; [rewrite Hc3; apply JsMapFacts.get_set_same|].
  split; [exact Hp3|].
  split.
  { rewrite (@TieredTimerProps.fire_pending DC t3 _ key (t2 + 100) s3 Hi3).
    - destruct (Z.leb_spec (t2 + 100) t3); [reflexivity | lia].
    - apply (@PlatformProps.pending_for_head _ _ _ key). exact Hp3. }
  split; [|exact Hp4].
  unfold has. apply JsMapFacts.has_false. rewrite Hc4.
  now apply JsMapFacts.get_delete_same.
Qed.


(** X22: in the reference cache [get] on a key that is not stored
    returns [undefined] and changes nothing; [get] for the tier an entry
    is stored in returns its data as stored; and for an entry of the
    tier ['stringValue'] whose text is not JSON, [get] for ['model'] or
    ['object'] throws the syntax error of [JSON.parse] and changes
    nothing, while [get] for ['stringValue'] returns the text. *)
Theorem date_get_edge_cases now (key : @Key DC) (target : tierName) timeout
        (st : dstate) :
  (JsMap.get key (cache st) = None ->
   @get DC now key target timeout st = (JS.Ok None, st)) /\
  (forall d, JsMap.get key (cache st) = Some (mkEntry target d) ->
             fst (@get DC now key target timeout st) = JS.Ok (Some d)) /\
  (forall s, JsMap.get key (cache st) =
               Some (mkEntry stringValue (DJson (JSON.JStr s))) ->
             JSON.parse s = JSON.SyntaxError ->
             @get DC now key model timeout st = (JS.Throw SyntaxError, st) /\
             @get DC now key object timeout st = (JS.Throw SyntaxError, st) /\
             fst (@get DC now key stringValue timeout st) =
               JS.Ok (Some (DJson (JSON.JStr s)))).
Proof.
  split; [|split].
  - intros Hg. unfold get. rewrite Hg. reflexivity.
  - intros d Hg. unfold get. rewrite Hg.
    change (@TieredCache.handleCacheEntry DC key target (Some (mkEntry target d)))
      with (DateTieredCache.handleCacheEntry Date_parse key target
              (Some (mkEntry target d))).
    now destruct target.
  - intros s Hg Hp. unfold get. rewrite Hg.
    assert (Hd : parse_data (DJson (JSON.JStr s)) = JS.Throw SyntaxError).
    { unfold parse_data. cbn [JSON.ToString]. now rewrite Hp. }
    change (@TieredCache.handleCacheEntry DC key) with
      (DateTieredCache.handleCacheEntry Date_parse key).
    unfold DateTieredCache.handleCacheEntry, getModel, getObject, getStringValue.
    cbn [tier TieredCache.data]. rewrite Hd. cbn [JS.bind fst]. auto.
Qed.

End Props.

Section Witnesses.
#[local] Open Scope string_scope.

Lemma date_entry_is_demoted_then_dropped_witness :
  let S := exampleStrategy in
  let s1 := snd (@set S 0 "k1" model (DDate (JS.newDate (JS.Num 1704067200000))) None
                      (@create S)) in
  Timers.pending_for "k1" (timers s1) = [Timers.mkTimer 1 "k1" 100] /\
  option_map (@getTier S "k1") (@fire S 100 1 s1) = Some (Some object).
Proof.
  cbv zeta.
  assert (H1 : (0 + 100 <= 100)%Z) by lia.
  assert (H2 : (100 + 100 <= 200)%Z) by lia.
  assert (H3 : (200 + 100 <= 300)%Z) by lia.
  pose proof (@date_entry_is_demoted_then_dropped noDateParse [] 0 100 200 300 "k1"
                (JS.newDate (JS.Num 1704067200000)) H1 H2 H3)
    as (_ & Hp & s2 & s3 & s4 & Hf & Hg & _).
  split; [exact Hp|].
  cbn [run] in Hf. unfold exampleStrategy.
  change (Timers.next_id (timers (@create (strategy noDateParse)))) with 1%nat in Hf.
  rewrite Hf. cbn [option_map]. unfold getTier. now rewrite Hg.
Defined.

Lemma date_get_edge_cases_witness :
  let S := exampleStrategy in
  let st := snd (@set S 0 "k" stringValue (DJson (JSON.JStr "oops")) None (@create S)) in
  @get S 10 "missing" model None st = (JS.Ok None, st) /\
  @get S 10 "k" model None st = (JS.Throw SyntaxError, st) /\
  fst (@get S 10 "k" stringValue None st) = JS.Ok (Some (DJson (JSON.JStr "oops"))).
Proof.
  cbv zeta.
  pose proof (@date_get_edge_cases noDateParse 10 "missing" model None
                (snd (@set exampleStrategy 0 "k" stringValue (DJson (JSON.JStr "oops"))
                           None (@create exampleStrategy)))) as (Hmiss & _).
  pose proof (@date_get_edge_cases noDateParse 10 "k" stringValue None
                (snd (@set exampleStrategy 0 "k" stringValue (DJson (JSON.JStr "oops"))
                           None (@create exampleStrategy)))) as (_ & Hsame & Hbad).
  split; [exact (Hmiss eq_refl)|].
  split; [exact (proj1 (Hbad "oops" eq_refl eq_refl))|].
  exact (Hsame (DJson (JSON.JStr "oops")) eq_refl).
Defined.

End Witnesses.
End DateTieredCacheProps.

(** ** TieredCache: keys do not interfere *)

Module TieredCacheIsolation.
Import TieredCache.
Section Props.
Context {S : Strategy}.

Lemma exclusive_same (st st' : state) :
  cacheTimeout st' = cacheTimeout st ->
  Timers.next_id (timers st') = Timers.next_id (timers st) ->
  exclusive st -> exclusive st'.
Proof. intros Ec En (Hw & Hb & Hi). unfold exclusive. now rewrite Ec, En. Qed.

Lemma exclusive_cancelled key (st : state) :
  exclusive st -> exclusive (cancelled key st).
Proof.
  destruct (TieredCacheFacts.cancelled_spec key st) as (_ & Ec & En & _).
  now apply exclusive_same.
Qed.

Lemma cancelled_other key k (st : state) :
  timersInv st -> exclusive st -> k <> key ->
  Timers.pending_for k (timers (cancelled key st)) = Timers.pending_for k (timers st).
Proof.
  intros [_ Hrec] (_ & _ & Hi) Hne. unfold cancelled.
  destruct (JsMap.get key (cacheTimeout st)) as [h|] eqn:Hg; [|reflexivity].
  cbn [timers with_timers]. apply PlatformProps.pending_for_clearTimeout_other.
  intros tm Htm Hk Hid. pose proof (Hrec tm Htm) as Hr.
  rewrite Hk, Hid in Hr. apply Hne. exact (Hi _ _ _ Hr Hg).
Qed.

Lemma exclusive_setTimeout now key timeout (st : state) :
  exclusive st -> exclusive (setTimeout now key timeout st).
Proof.
  intros Hex. apply (exclusive_cancelled key) in Hex. destruct Hex as (Hw & Hb & Hi).
  unfold setTimeout. fold (cancelled key st).
  destruct timeout as [ms|]; [|now repeat split].
  cbn [Timers.setTimeout]. split; [|split];
    cbn [cacheTimeout timers with_cacheTimeout with_timers Timers.next_id].
  - now apply JsMapFacts.wf_set.
  - intros k h. rewrite JsMapFacts.get_set. destruct (eq_dec key k).
    + intros E. injection E as <-. lia.
    + intros Hk. specialize (Hb _ _ Hk). lia.
  - intros k1 k2 h. rewrite !JsMapFacts.get_set.
    destruct (eq_dec key k1) as [<-|N1]; destruct (eq_dec key k2) as [<-|N2]; auto.
    + intros E1 H2. injection E1 as <-. specialize (Hb _ _ H2). lia.
    + intros H1 E2. injection E2 as <-. specialize (Hb _ _ H1). lia.
    + apply Hi.
Qed.

Lemma setTimeout_other now key timeout k (st : state) :
  timersInv st -> exclusive st -> k <> key ->
  Timers.pending_for k (timers (setTimeout now key timeout st)) =
  Timers.pending_for k (timers st).
Proof.
  intros Hinv Hex Hne. unfold setTimeout. fold (cancelled key st).
  destruct timeout as [ms|]; [|now apply cancelled_other].
  cbn [Timers.setTimeout timers with_cacheTimeout with_timers].
  pose proof (@TimersFacts.pending_for_setTimeout_other
                _ _ (timers (cancelled key st)) key k ms now) as P.
  cbn [snd Timers.setTimeout] in P. rewrite P by congruence.
  now apply cancelled_other.
Qed.

Lemma exclusive_clearTimeoutKey key (st : state) :
  exclusive st -> exclusive (clearTimeoutKey key st).
Proof.
  intros Hex. apply (exclusive_cancelled key) in Hex. destruct Hex as (Hw & Hb & Hi).
  unfold clearTimeoutKey. fold (cancelled key st).
  assert (Hold : forall k h,
             JsMap.get k (snd (JsMap.delete key (cacheTimeout (cancelled key st)))) = Some h ->
             JsMap.get k (cacheTimeout (cancelled key st)) = Some h).
  { intros k h. rewrite JsMapFacts.get_delete by exact Hw.
    destruct (eq_dec key k); [discriminate | auto]. }
  split; [|split]; cbn [cacheTimeout timers with_cacheTimeout].
  - now apply JsMapFacts.wf_delete.
  - intros k h Hk. apply (Hb k). now apply Hold.
  - intros k1 k2 h H1 H2. apply (Hi k1 k2 h); now apply Hold.
Qed.

Lemma clearTimeoutKey_other key k (st : state) :
  timersInv st -> exclusive st -> k <> key ->
  Timers.pending_for k (timers (clearTimeoutKey key st)) =
  Timers.pending_for k (timers st).
Proof.
  intros Hinv Hex Hne. unfold clearTimeoutKey. fold (cancelled key st).
  cbn [timers with_cacheTimeout]. now apply cancelled_other.
Qed.

Lemma exclusive_handleSetValue now key tier data timeout (st : state) :
  exclusive st -> exclusive (snd (handleSetValue now key tier data timeout st)).
Proof.
  intros Hex.
  assert (H1 : exclusive (with_cache (JsMap.set key (mkEntry tier data) (cache st)) st))
    by exact Hex.
  unfold handleSetValue. destruct timeout as [t|]; cbn [snd].
  - now apply exclusive_setTimeout.
  - destruct (handleTimeoutValue key tier data); cbn [snd]; [|exact H1].
    now apply exclusive_setTimeout.
Qed.

Lemma handleSetValue_other now key tier data timeout k (st : state) :
  timersInv st -> exclusive st -> k <> key ->
  Timers.pending_for k (timers (snd (handleSetValue now key tier data timeout st))) =
  Timers.pending_for k (timers st).
Proof.
  intros Hinv Hex Hne.
  set (st1 := with_cache (JsMap.set key (mkEntry tier data) (cache st)) st).
  assert (Hinv1 : timersInv st1) by exact Hinv.
  assert (Hex1 : exclusive st1) by exact Hex.
  unfold handleSetValue. fold st1. destruct timeout as [t|]; cbn [snd].
  - now rewrite setTimeout_other.
  - destruct (handleTimeoutValue key tier data); cbn [snd]; [|reflexivity].
    now rewrite setTimeout_other.
Qed.

Lemma exclusive_handleDeleteValue key (st : state) :
  exclusive st -> exclusive (snd (handleDeleteValue key st)).
Proof.
  intros Hex. apply (exclusive_clearTimeoutKey key) in Hex.
  unfold handleDeleteValue. destruct (JsMap.delete key (cache (clearTimeoutKey key st))).
  exact Hex.
Qed.

Lemma handleDeleteValue_other key k (st : state) :
  timersInv st -> exclusive st -> k <> key ->
  Timers.pending_for k (timers (snd (handleDeleteValue key st))) =
  Timers.pending_for k (timers st).
Proof.
  intros Hinv Hex Hne. unfold handleDeleteValue.
  destruct (JsMap.delete key (cache (clearTimeoutKey key st))). cbn [snd timers with_cache].
  now apply clearTimeoutKey_other.
Qed.

Lemma exclusive_emitUpdate (st : state) : exclusive st -> exclusive (emitUpdate st).
Proof.
  destruct (TieredCacheFacts.emitUpdate_spec st) as (_ & Ec & Et & _).
  apply exclusive_same; [exact Ec | now rewrite Et].
Qed.

Lemma exclusive_runActions now acts :
  forall st : state, exclusive st -> exclusive (snd (runActions now acts st)).
Proof.
  induction acts as [|a acts IH]; intros st Hex; cbn [runActions snd]; auto.
  destruct a as [key tier data timeout | key | key].
  - pose proof (exclusive_handleSetValue now key tier data timeout Hex) as H1.
    destruct (handleSetValue now key tier data timeout st) as [[u|e] st1];
      cbn [snd] in *; auto.
  - apply IH. now apply exclusive_handleDeleteValue.
  - apply IH. exact Hex.
Qed.

Lemma exclusive_runTimeout now key (st : state) :
  exclusive st -> exclusive (runTimeout now key st).
Proof.
  intros Hex. unfold runTimeout, callTierTimeout.
  destruct (handleTierTimeout key (cache st)) as [acts outcome].
  pose proof (exclusive_runActions now acts Hex) as H1.
  destruct (runActions now acts st) as [[u|e] st1]; cbn [snd] in H1; [|exact H1].
  destruct outcome as [[t|]|e]; [| |exact H1]; apply exclusive_emitUpdate.
  - now apply exclusive_setTimeout.
  - now apply exclusive_clearTimeoutKey.
Qed.

Lemma exclusive_setEntriesLoop now tier entries timeout :
  forall st : state,
    exclusive st -> exclusive (snd (setEntriesLoop now tier entries timeout st)).
Proof.
  induction entries as [|[k d] entries IH]; intros st Hex; cbn [setEntriesLoop snd]; auto.
  pose proof (exclusive_handleSetValue now k tier d timeout Hex) as H1.
  destruct (handleSetValue now k tier d timeout st) as [[u|e] st1]; cbn [snd] in *; auto.
Qed.

Lemma exclusive_deleteKeysLoop keys :
  forall acc (st : state),
    exclusive st -> exclusive (snd (deleteKeysLoop keys acc st)).
Proof.
  induction keys as [|k keys IH]; intros acc st Hex; cbn [deleteKeysLoop snd]; auto.
  destruct (JsMap.delete k (cache (clearTimeoutKey k st))) as [b c].
  apply IH. now apply (exclusive_clearTimeoutKey k) in Hex.
Qed.

Lemma exclusive_step o (st : state) : exclusive st -> exclusive (snd (step o st)).
Proof.
  intros Hex. destruct o as [now key tier timeout | now key tier data timeout
                            | now tier entries timeout | | key | keys | | now id];
    cbn [step].
  - unfold get. destruct (handleCacheEntry key tier (JsMap.get key (cache st)))
      as [[v|]|e]; cbn [snd]; auto.
    destruct (ToBoolean v); cbn [snd]; [now apply exclusive_setTimeout | exact Hex].
  - unfold set.
    pose proof (exclusive_handleSetValue now key tier data timeout Hex) as H1.
    destruct (handleSetValue now key tier data timeout st) as [[u|e] st1];
      cbn [snd] in *; [now apply exclusive_emitUpdate | exact H1].
  - unfold setEntries.
    pose proof (exclusive_setEntriesLoop now tier entries timeout Hex) as H1.
    destruct (setEntriesLoop now tier entries timeout st) as [[u|e] st1];
      cbn [snd] in *; [now apply exclusive_emitUpdate | exact H1].
  - cbn [snd]. unfold clear. apply exclusive_emitUpdate.
    split; [|split]; cbn [cacheTimeout emit with_cache clearAllTimeouts with_cacheTimeout].
    + apply ExpireCacheFacts.wf_clear.
    + intros k h. rewrite JsMapFacts.get_clear. discriminate.
    + intros k1 k2 h. rewrite JsMapFacts.get_clear. discriminate.
  - cbn [snd]. unfold delete.
    pose proof (exclusive_handleDeleteValue key Hex) as H1.
    destruct (handleDeleteValue key st) as [[|] st1]; cbn [snd] in *;
      [now apply exclusive_emitUpdate | exact H1].
  - cbn [snd]. unfold deleteKeys.
    pose proof (exclusive_deleteKeysLoop keys [] Hex) as H1.
    destruct (deleteKeysLoop keys [] st) as [dk st1]. cbn [snd] in *.
    now apply exclusive_emitUpdate.
  - exact Hex.
  - destruct (fire now id st) as [st1|] eqn:F; cbn [snd]; [|exact Hex].
    apply TieredCacheFacts.fire_Some in F as (key & tm & F & ->).
    apply TimersFacts.fire_spec in F as (-> & _).
    apply exclusive_runTimeout. exact Hex.
Qed.

Lemma exclusive_run ops : forall st : state, exclusive st -> exclusive (run ops st).
Proof.
  induction ops as [|o ops IH]; intros st Hex; cbn [run]; auto.
  apply IH. now apply exclusive_step.
Qed.

Lemma reached_exclusive ops : exclusive (run ops (@create S)).
Proof.
  apply exclusive_run. split; [apply JsMapFacts.wf_empty|]. split; intros *; discriminate.
Qed.

Lemma setEntriesLoop_other now tier timeout k entries :
  forall st : state,
    timersInv st -> exclusive st -> ~ In k (map fst entries) ->
    Timers.pending_for k (timers (snd (setEntriesLoop now tier entries timeout st))) =
    Timers.pending_for k (timers st).
Proof.
  induction entries as [|[key d] entries IH]; intros st Hinv Hex Hnot;
    cbn [setEntriesLoop snd]; auto.
  cbn [map fst In] in Hnot.
  pose proof (@handleSetValue_other now key tier d timeout k st Hinv Hex) as Ho.
  pose proof (exclusive_handleSetValue now key tier d timeout Hex) as Hex1.
  destruct (TieredCacheFacts.handleSetValue_keeps now key tier d timeout st) as ([K _] & _).
  assert (Hk : k <> key) by (intros ->; tauto).
  destruct (handleSetValue now key tier d timeout st) as [[u|e] st1]; cbn [snd] in *.
  - rewrite IH; [exact (Ho Hk) | exact (K Hinv) | exact Hex1 | tauto].
  - exact (Ho Hk).
Qed.

Lemma deleteKeysLoop_other k keys :
  forall acc (st : state),
    timersInv st -> exclusive st -> ~ In k keys ->
    Timers.pending_for k (timers (snd (deleteKeysLoop keys acc st))) =
    Timers.pending_for k (timers st).
Proof.
  induction keys as [|key keys IH]; intros acc st Hinv Hex Hnot;
    cbn [deleteKeysLoop snd]; auto.
  cbn [In] in Hnot.
  destruct (TieredCacheFacts.clearTimeoutKey_spec key st) as (_ & (K & _) & _).
  pose proof (@clearTimeoutKey_other key k st Hinv Hex) as Ho.
  pose proof (exclusive_clearTimeoutKey key Hex) as Hex1.
  destruct (JsMap.delete key (cache (clearTimeoutKey key st))) as [b c].
  assert (Hk : k <> key) by (intros ->; tauto).
  rewrite IH; [| exact (K Hinv) | exact Hex1 | tauto].
  cbn [timers with_cache]. exact (Ho Hk).
Qed.

(** X20: [set], [get] and [delete] of a key, and [deleteKeys] and
    [setEntries] over keys, leave the pending timer of every other key
    as it is. *)
Theorem tiered_keys_do_not_interfere (ops : list op) now key tier data timeout k :
  let st := run ops create in
  k <> key ->
  Timers.pending_for k (timers (snd (set now key tier data timeout st))) =
    Timers.pending_for k (timers st) /\
  Timers.pending_for k (timers (snd (get now key tier timeout st))) =
    Timers.pending_for k (timers st) /\
  Timers.pending_for k (timers (snd (delete key st))) =
    Timers.pending_for k (timers st) /\
  (forall keys, ~ In k keys ->
                Timers.pending_for k (timers (snd (deleteKeys keys st))) =
                Timers.pending_for k (timers st)) /\
  (forall entries, ~ In k (map fst entries) ->
                   Timers.pending_for k
                     (timers (snd (setEntries now tier entries timeout st))) =
                   Timers.pending_for k (timers st)).
Proof.
  cbv zeta. intros Hne. set (st := run ops create).
  pose proof (@TieredCacheFacts.timersInv_run S ops : timersInv st) as Hinv.
  pose proof (reached_exclusive ops : exclusive st) as Hex.
  split; [|split; [|split; [|split]]].
  - unfold set.
    pose proof (@handleSetValue_other now key tier data timeout k st Hinv Hex Hne) as Ho.
    destruct (handleSetValue now key tier data timeout st) as [[u|e] st1];
      cbn [snd] in *; [|exact Ho].
    destruct (TieredCacheFacts.emitUpdate_spec (emit (EvSet [key]) st1))
      as (_ & _ & -> & _). exact Ho.
  - unfold get. destruct (handleCacheEntry key tier (JsMap.get key (cache st)))
      as [[v|]|e]; cbn [snd]; auto.
    destruct (ToBoolean v); cbn [snd]; auto. now apply setTimeout_other.
  - unfold delete.
    pose proof (@handleDeleteValue_other key k st Hinv Hex Hne) as Ho.
    destruct (handleDeleteValue key st) as [[|] st1]; cbn [snd] in *; [|exact Ho].
    destruct (TieredCacheFacts.emitUpdate_spec (emit (EvDelete [key]) st1))
      as (_ & _ & -> & _). exact Ho.
  - intros keys Hnot. unfold deleteKeys.
    pose proof (@deleteKeysLoop_other k keys [] st Hinv Hex Hnot) as Ho.
    destruct (deleteKeysLoop keys [] st) as [dk st1]. cbn [snd] in *.
    destruct (TieredCacheFacts.emitUpdate_spec (emit (EvDelete dk) st1))
      as (_ & _ & -> & _). exact Ho.
  - intros entries Hnot. unfold setEntries.
    pose proof (@setEntriesLoop_other now tier timeout k entries st Hinv Hex Hnot) as Ho.
    destruct (setEntriesLoop now tier entries timeout st) as [[u|e] st1];
      cbn [snd] in *; [|exact Ho].
    destruct (TieredCacheFacts.emitUpdate_spec (emit (EvSet (map fst entries)) st1))
      as (_ & _ & -> & _). exact Ho.
Qed.

End Props.

Section Witnesses.
#[local] Open Scope string_scope.
Import DateTieredCache.

Lemma tiered_keys_do_not_interfere_witness :
  Timers.pending_for "k1"
    (timers (snd (@delete exampleStrategy "k2" (run exampleRun (@create exampleStrategy))))) =
  Timers.pending_for "k1" (timers (run exampleRun (@create exampleStrategy))).
Proof.
  assert (Hne : "k1" <> "k2") by discriminate.
  exact (proj1 (proj2 (proj2 (@tiered_keys_do_not_interfere exampleStrategy exampleRun
                                0 "k2" model (DDate (JS.newDate (JS.Num 1))) None "k1"
                                Hne)))).
Defined.

End Witnesses.
End TieredCacheIsolation.
